(** * five-minutes-demo: the io-ts sign-up types and the [useForm] hook

    A shallow embedding of [src/types/index.ts] (the branded string types and
    the [SignUpForm] codec) and of the form hook ([errorsToFormErrors],
    [useForm]), together with the part of io-ts, io-ts-types and fp-ts those
    two files call.

    Conventions of the embedding:
    - a JavaScript value is a [jsval]; numbers are the integer-valued ones,
      strings are sequences of code units below 256 and their [length] is
      [String.length]; an object is the association list of its own
      properties in property order (the integer-like names in ascending
      order, then the other names in the order they were added), and its
      prototype is [Object.prototype], whose members a read or an [in] finds
      when the object has no own property of that name;
    - an exception is a [Throw] of the [completion] monad, so a function that
      can raise returns a [completion];
    - a React state cell is a field of the [Form] record; every operation is
      run by the closures of the latest render (React renders again between
      two events), so it reads the current fields. *)

From Stdlib Require Import String Ascii List ZArith NArith Bool Arith Lia.
From Stdlib Require Import DecimalString Sorted.
Import ListNotations.
Local Open Scope string_scope.
Local Open Scope list_scope.
Local Open Scope nat_scope.

Set Implicit Arguments.
Set Warnings "-register-all".

(** ** JavaScript values

    [VInherited name] is the member [name] of [Object.prototype]: a function,
    or for [__proto__] the prototype itself. *)

Inductive jsval : Type :=
| VUndefined
| VNull
| VBool (b : bool)
| VNum (n : Z)
| VStr (s : string)
| VObj (o : list (string * jsval))
| VInherited (name : string).

Definition object := list (string * jsval).

(** [a === b] on values.  Two objects are compared by their contents: the
    embedding has no addresses for plain data. *)
Fixpoint strict_eq (a b : jsval) : bool :=
  match a, b with
  | VUndefined, VUndefined => true
  | VNull, VNull => true
  | VBool x, VBool y => Bool.eqb x y
  | VNum x, VNum y => Z.eqb x y
  | VStr x, VStr y => String.eqb x y
  | VObj x, VObj y =>
      (fix go (x y : list (string * jsval)) : bool :=
         match x, y with
         | [], [] => true
         | (k, v) :: x', (k', v') :: y' =>
             String.eqb k k' && strict_eq v v' && go x' y'
         | _, _ => false
         end) x y
  | VInherited x, VInherited y => String.eqb x y
  | _, _ => false
  end.

(** The property names of [Object.prototype]. *)
Definition objectPrototype : list string :=
  [ "constructor"; "__defineGetter__"; "__defineSetter__"; "hasOwnProperty";
    "__lookupGetter__"; "__lookupSetter__"; "isPrototypeOf";
    "propertyIsEnumerable"; "toString"; "valueOf"; "__proto__";
    "toLocaleString" ].

Definition isInherited (k : string) : bool :=
  existsb (String.eqb k) objectPrototype.

(** The array index a property name stands for, if any: the canonical
    decimal numerals below 2^32 - 1. *)
Definition toIndex (k : string) : option N :=
  match NilZero.uint_of_string k with
  | Some u =>
      let n := N.of_uint u in
      if String.eqb (NilZero.string_of_uint (N.to_uint n)) k
         && (n <? 4294967295)%N
      then Some n
      else None
  | None => None
  end.

(** Property order: a new property [k] goes before [k'] when [k] is an index
    and [k'] is a larger index or no index. *)
Definition goesBefore (k k' : string) : bool :=
  match toIndex k, toIndex k' with
  | Some n, Some n' => (n <? n')%N
  | Some _, None => true
  | None, _ => false
  end.

(** A list of names in property order. *)
Definition propertyOrder (ks : list string) : Prop :=
  StronglySorted (fun k k' => goesBefore k' k = false) ks.

(** What a read of a property finds. *)
Inductive property (A : Type) : Type :=
| Own (a : A)
| Inherited (name : string)
| Missing.
Arguments Inherited {A} name.
Arguments Missing {A}.

Section Obj.
Variable A : Type.

(** [o.hasOwnProperty(k)] *)
Fixpoint has (k : string) (o : list (string * A)) : bool :=
  match o with
  | [] => false
  | (k', _) :: o' => if String.eqb k k' then true else has k o'
  end.

(** The own property [k] of [o], if there is one *)
Fixpoint lookup (k : string) (o : list (string * A)) : option A :=
  match o with
  | [] => None
  | (k', v) :: o' => if String.eqb k k' then Some v else lookup k o'
  end.

(** [k in o]: an own property, or one of [Object.prototype] *)
Definition hasProperty (k : string) (o : list (string * A)) : bool :=
  has k o || isInherited k.

(** [o[k]] *)
Definition getProperty (k : string) (o : list (string * A)) : property A :=
  match lookup k o with
  | Some a => Own a
  | None => if isInherited k then Inherited k else Missing
  end.

(** Writing the own property [k] that [o] has already: it keeps its place. *)
Fixpoint replace (k : string) (v : A) (o : list (string * A))
  : list (string * A) :=
  match o with
  | [] => []
  | (k', v') :: o' =>
      if String.eqb k k' then (k, v) :: o' else (k', v') :: replace k v o'
  end.

(** Adding the own property [k] that [o] has not yet: an index goes to its
    place among the indices, another name goes last. *)
Fixpoint define (k : string) (v : A) (o : list (string * A))
  : list (string * A) :=
  match o with
  | [] => [(k, v)]
  | (k', v') :: o' =>
      if goesBefore k k' then (k, v) :: o else (k', v') :: define k v o'
  end.

(** [{ ...o, [k]: v }] *)
Definition set (k : string) (v : A) (o : list (string * A))
  : list (string * A) :=
  if has k o then replace k v o else define k v o.

(** [Object.keys(o)]: the own property names, in property order, which is
    the order of the list. *)
Definition keys (o : list (string * A)) : list string := map fst o.
End Obj.

(** [o[k]] as a value: without an own property the read falls back on
    [Object.prototype], and yields [undefined] when that has none either. *)
Definition get (k : string) (o : object) : jsval :=
  match getProperty k o with
  | Own v => v
  | Inherited name => VInherited name
  | Missing => VUndefined
  end.

(** ** Exceptions *)

Inductive exn : Type := TypeError.

Inductive completion (A : Type) : Type :=
| Normal (a : A)
| Throw (e : exn).
Arguments Throw {A} e.

Definition bind {A B : Type} (m : completion A) (k : A -> completion B)
  : completion B :=
  match m with
  | Normal a => k a
  | Throw e => Throw e
  end.

Notation "x <- m ;; k" := (bind m (fun x => k))
  (at level 61, m at next level, right associativity).

(** [xs.reduce(f, init)] for a callback that can raise. *)
Fixpoint reduce {A B : Type} (f : B -> A -> completion B) (xs : list A)
  (init : B) : completion B :=
  match xs with
  | [] => Normal init
  | x :: xs' => acc <- f init x ;; reduce f xs' acc
  end.

(** ** fp-ts: [Either] *)

Module E.
Inductive Either (L R : Type) : Type :=
| Left (left : L)
| Right (right : R).
Arguments Left {L R} left.
Arguments Right {L R} right.

Definition isLeft {L R : Type} (e : Either L R) : bool :=
  match e with
  | Left _ => true
  | Right _ => false
  end.

Definition fold {L R B : Type} (onLeft : L -> B) (onRight : R -> B)
  (e : Either L R) : B :=
  match e with
  | Left l => onLeft l
  | Right r => onRight r
  end.

Definition mapLeft {L M R : Type} (f : L -> M) (e : Either L R) : Either M R :=
  match e with
  | Left l => Left (f l)
  | Right r => Right r
  end.
End E.

(** ** io-ts

    The library is a dependency of the repository; what follows embeds the
    functions of io-ts 2.x that the two source files call.  A codec is an
    object with a [validate] method, hence a record holding that function.
    What is left out: [is] and [encode] (never called by the repository), the
    [type] member of a context entry (never read), and literal-tagged unions
    (the repository declares no literal codec). *)

Module t.

Record ContextEntry : Type := { key : string; actual : jsval }.
Definition Context := list ContextEntry.

Record ValidationError : Type :=
  { value : jsval; context : Context; message : option string }.
Definition Errors := list ValidationError.
Definition Validation := E.Either Errors jsval.

Definition failures (errors : Errors) : Validation := E.Left errors.
Definition failure (v : jsval) (c : Context) : Validation :=
  failures [ {| value := v; context := c; message := None |} ].
Definition success (a : jsval) : Validation := E.Right a.

Definition appendContext (c : Context) (k : string) (act : jsval) : Context :=
  c ++ [ {| key := k; actual := act |} ].

(** [addr] is the identity of the codec object: [===] and
    [Array.prototype.includes] compare codecs by it.  Every call of a
    combinator allocates a new object, so the caller supplies the address. *)
Record Mixed : Type :=
  { addr : nat;
    name : string;
    validate : jsval -> Context -> Validation }.

Definition decode (codec : Mixed) (i : jsval) : Validation :=
  validate codec i [ {| key := ""; actual := i |} ].

(** [String(i)] for an array index *)
Definition String_ (i : nat) : String.string :=
  NilZero.string_of_uint (Nat.to_uint i).

Definition join (sep : String.string) (xs : list String.string)
  : String.string :=
  match xs with
  | [] => ""
  | x :: xs' => fold_left (fun acc y => (acc ++ sep ++ y)%string) xs' x
  end.

(** *** Primitive codecs; the library's singletons live at addresses 0-2. *)

Definition string : Mixed :=
  {| addr := 0; name := "string";
     validate := fun u c =>
       match u with VStr _ => success u | _ => failure u c end |}.

Definition boolean : Mixed :=
  {| addr := 1; name := "boolean";
     validate := fun u c =>
       match u with VBool _ => success u | _ => failure u c end |}.

(** [Object.prototype] is the one inherited member that is an object. *)
Definition isRecord (u : jsval) : bool :=
  match u with
  | VObj _ => true
  | VInherited name => String.eqb name "__proto__"
  | _ => false
  end.

Definition UnknownRecord : Mixed :=
  {| addr := 2; name := "UnknownRecord";
     validate := fun u c => if isRecord u then success u else failure u c |}.

(** *** [refinement] and [brand] *)

Definition refinement (a : nat) (codec : Mixed) (predicate : jsval -> bool)
  (nm : String.string) : Mixed :=
  {| addr := a; name := nm;
     validate := fun i c =>
       match validate codec i c with
       | E.Left e => E.Left e
       | E.Right x => if predicate x then success x else failure x c
       end |}.

Definition brand := refinement.

(** *** [intersection]: every member is run, the failures are pushed
    together. *)

Fixpoint intersection_loop (codecs : list Mixed) (i : nat) (u : jsval)
  (c : Context) (us : list jsval) (errors : Errors) : list jsval * Errors :=
  match codecs with
  | [] => (us, errors)
  | codec :: rest =>
      match validate codec u (appendContext c (String_ i) u) with
      | E.Left e => intersection_loop rest (S i) u c us (errors ++ e)
      | E.Right a => intersection_loop rest (S i) u c (us ++ [a]) errors
      end
  end.

Definition ownProps (u : jsval) : object :=
  match u with VObj o => o | _ => [] end.

(** The last branch enumerates the own properties of the members' results;
    the indices of a string result are not enumerated here. *)
Definition mergeAll (base : jsval) (us : list jsval) : jsval :=
  let equal := forallb (fun u => strict_eq u base) us in
  let primitive := forallb (fun u => negb (isRecord u)) us in
  let baseIsNotADictionary := negb (isRecord base) in
  if equal then base
  else if primitive then last us VUndefined
  else
    VObj
      (fold_left
         (fun r u =>
            fold_left
              (fun r kv =>
                 if negb (has (fst kv) r) || baseIsNotADictionary
                    || negb (strict_eq (snd kv) (get (fst kv) (ownProps base)))
                 then set (fst kv) (snd kv) r
                 else r)
              (ownProps u) r)
         us []).

Definition intersection (a : nat) (codecs : list Mixed) : Mixed :=
  {| addr := a;
     name := ("(" ++ join " & " (map name codecs) ++ ")")%string;
     validate := fun u c =>
       match codecs with
       | [] => success u
       | _ =>
           let '(us, errors) := intersection_loop codecs 0 u c [] [] in
           match errors with
           | [] => success (mergeAll u us)
           | _ => failures errors
           end
       end |}.

(** *** [union]: the first member that accepts wins. *)

Fixpoint union_loop (codecs : list Mixed) (i : nat) (u : jsval)
  (c : Context) (errors : Errors) : Validation :=
  match codecs with
  | [] => failures errors
  | codec :: rest =>
      match validate codec u (appendContext c (String_ i) u) with
      | E.Left e => union_loop rest (S i) u c (errors ++ e)
      | E.Right a => success a
      end
  end.

Record UnionC : Type := union { union_addr : nat; types : list Mixed }.

Definition UnionType (codec : UnionC) : Mixed :=
  {| addr := union_addr codec;
     name := ("(" ++ join " | " (map name (types codec)) ++ ")")%string;
     validate := fun u c => union_loop (types codec) 0 u c [] |}.

(** *** [type]: an object codec, one member per property.

    [props] lists the properties in the order of [Object.keys(props)].  The
    write [a[k] = vak] is an own property written; for [k = "__proto__"] the
    program would call the prototype's setter instead, a case no codec of
    the repository reaches since none changes the value it accepts.  When
    nothing is written the value returned is the one that was given, which
    for [Object.prototype] itself is the inherited member, not a copy. *)

Fixpoint type_loop (ps : list (String.string * Mixed)) (c : Context)
  (a : object) (errors : Errors) : object * Errors :=
  match ps with
  | [] => (a, errors)
  | (k, type_k) :: rest =>
      let ak := get k a in
      match validate type_k ak (appendContext c k ak) with
      | E.Left e => type_loop rest c a (errors ++ e)
      | E.Right vak =>
          if negb (strict_eq vak ak)
             || (strict_eq vak VUndefined && negb (has k a))
          then type_loop rest c (set k vak a) errors
          else type_loop rest c a errors
      end
  end.

Record TypeC : Type :=
  type { type_addr : nat; props : list (String.string * Mixed) }.

Definition InterfaceType (codec : TypeC) : Mixed :=
  {| addr := type_addr codec;
     name :=
       ("{ "
        ++ join ", "
             (map (fun p => (fst p ++ ": " ++ name (snd p))%string) (props codec))
        ++ " }")%string;
     validate := fun u c =>
       match validate UnknownRecord u c with
       | E.Left e => E.Left e
       | E.Right o =>
           let '(a, errors) := type_loop (props codec) c (ownProps o) [] in
           match errors with
           | [] =>
               success
                 match o, a with
                 | VObj _, _ => VObj a
                 | _, [] => o
                 | _, _ => VObj a
                 end
           | _ => failures errors
           end
       end |}.

End t.

Coercion t.UnionType : t.UnionC >-> t.Mixed.
Coercion t.InterfaceType : t.TypeC >-> t.Mixed.

(** ** io-ts-types: [withMessage]

    The failures of [codec] are replaced by one failure that carries the
    message and the context [withMessage] was called with. *)

Definition withMessage (a : nat) (codec : t.Mixed)
  (message : jsval -> t.Context -> string) : t.Mixed :=
  {| t.addr := a;
     t.name := t.name codec;
     t.validate := fun i c =>
       E.mapLeft
         (fun _ =>
            [ {| t.value := i; t.context := c; t.message := Some (message i c) |} ])
         (t.validate codec i c) |}.

(** ** [src/types/index.ts] *)

Module validationErrors.
Definition TypeString := "Invalid string type.".
Definition NonEmptyString := "Can not be empty.".
Definition TrimmedString := "Please remove leading and trailing whitespaces.".
Definition TooLong := "Too long.".
Definition TooShort := "Too short.".
Definition EmailString := "Email is not valid.".
Definition PhoneString := "Invalid phone number.".
End validationErrors.

(** White space as [String.prototype.trim] sees it, among the code units
    below 256: tab, the line terminators, space and the no-break space. *)
Definition isWhiteSpace (ch : ascii) : bool :=
  let n := nat_of_ascii ch in
  ((9 <=? n) && (n <=? 13)) || (n =? 32) || (n =? 160).

Fixpoint trimStart (s : string) : string :=
  match s with
  | EmptyString => EmptyString
  | String ch s' => if isWhiteSpace ch then trimStart s' else s
  end.

Fixpoint reverse (s acc : string) : string :=
  match s with
  | EmptyString => acc
  | String ch s' => reverse s' (String ch acc)
  end.

Definition trim (s : string) : string :=
  reverse (trimStart (reverse (trimStart s) EmptyString)) EmptyString.

(** A predicate written for strings, as a refinement of [t.string] receives
    it; [t.string] hands it nothing but strings. *)
Definition onString (p : string -> bool) (u : jsval) : bool :=
  match u with
  | VStr s => p s
  | _ => false
  end.

Section Types.

(** [validator/lib/isEmail] and [validator/lib/isMobilePhone] *)
Variable isEmail : string -> bool.
Variable isMobilePhone : string -> bool.

Definition TypeString : t.Mixed :=
  withMessage 10 t.string (fun _ _ => validationErrors.TypeString).

Definition NonEmptyString : t.Mixed :=
  withMessage 12
    (t.brand 11 t.string (onString (fun s => 0 <? String.length s))
       "NonEmptyString")
    (fun _ _ => validationErrors.NonEmptyString).

Definition TrimmedString : t.Mixed :=
  withMessage 14
    (t.brand 13 t.string
       (onString (fun s => String.length (trim s) =? String.length s))
       "TrimmedString")
    (fun _ _ => validationErrors.TrimmedString).

Definition NonEmptyTrimmedString : t.Mixed :=
  t.intersection 15 [TypeString; NonEmptyString; TrimmedString].

Definition Max64String : t.Mixed :=
  withMessage 17
    (t.brand 16 t.string (onString (fun s => String.length s <=? 64))
       "Max64String")
    (fun _ _ => validationErrors.TooLong).

Definition Max512String : t.Mixed :=
  withMessage 19
    (t.brand 18 t.string (onString (fun s => String.length s <=? 512))
       "Max512String")
    (fun _ _ => validationErrors.TooLong).

Definition Min4String : t.Mixed :=
  withMessage 21
    (t.brand 20 t.string (onString (fun s => 4 <=? String.length s))
       "Min4String")
    (fun _ _ => validationErrors.TooShort).

Definition EmailString : t.Mixed :=
  withMessage 23
    (t.brand 22 t.string (onString isEmail) "EmailString")
    (fun _ _ => validationErrors.EmailString).

Definition PhoneString : t.Mixed :=
  withMessage 25
    (t.brand 24 t.string (onString isMobilePhone) "PhoneString")
    (fun _ _ => validationErrors.PhoneString).

Definition String64 : t.Mixed :=
  t.intersection 26 [NonEmptyTrimmedString; Max64String].

Definition String512 : t.Mixed :=
  t.intersection 27 [NonEmptyTrimmedString; Max512String].

Definition Email : t.Mixed := t.intersection 28 [String64; EmailString].

Definition Password : t.Mixed := t.intersection 29 [String512; Min4String].

Definition Phone : t.Mixed :=
  t.intersection 30 [NonEmptyTrimmedString; PhoneString].

Definition SignUpForm : t.TypeC :=
  t.type 31
    [ ("company", String64);
      ("email", Email);
      ("password", Password);
      ("phone", Phone);
      ("sendNewsletter", t.boolean) ].

(** ** The form hook *)

Definition TextInputField : t.UnionC :=
  t.union 32 [String64; Email; Password; Phone].

Definition CheckboxField : t.Mixed := t.boolean.

End Types.

(** [FormErrors]: field name to message, in property order.  A failure of a
    codec without [withMessage] has no message, hence the [option]. *)
Definition FormErrors := list (string * option string).

(** The callback of the [reduce] in [errorsToFormErrors]; reading [.key] of
    a missing [error.context[1]] raises a TypeError. *)
Definition projectStep (acc : FormErrors) (error : t.ValidationError)
  : completion FormErrors :=
  match nth_error (t.context error) 1 with
  | None => Throw TypeError
  | Some entry =>
      let key := t.key entry in
      if hasProperty key acc then Normal acc
      else Normal (set key (t.message error) acc)
  end.

Definition errorsToFormErrors (errors : t.Errors) : completion FormErrors :=
  reduce projectStep errors [].

(** What a ref may hold: nothing yet ([useRef()] starts at [undefined], React
    writes [null] on unmount), a DOM element, here its rank in document order,
    or some other object, with or without a [focus] method. *)
Inductive Current : Type :=
| CUndefined
| CNull
| CElement (position : nat)
| CObject (focusable : bool).

Record RefObject : Type := { current : Current }.

Module Node.
Definition DOCUMENT_POSITION_PRECEDING : Z := 2.
Definition DOCUMENT_POSITION_FOLLOWING : Z := 4.
End Node.

(** [a.compareDocumentPosition(b)] for two elements of one document *)
Definition compareDocumentPosition (a b : nat) : Z :=
  if a <? b then Node.DOCUMENT_POSITION_FOLLOWING
  else if b <? a then Node.DOCUMENT_POSITION_PRECEDING
  else 0%Z.

(** ['nodeType' in a && a.nodeType === Node.ELEMENT_NODE]; the [in] operator
    raises a TypeError when its right operand is not an object. *)
Definition isDOMElement (a : Current) : completion bool :=
  match a with
  | CUndefined | CNull => Throw TypeError
  | CElement _ => Normal true
  | CObject _ => Normal false
  end.

(** [Array.prototype.sort], as V8 runs it.  The [undefined] entries go last
    and are never handed to the comparator.  The others, when fewer than 64,
    are sorted as one run: [CountAndMakeRun] takes the longest ascending or
    strictly descending prefix, comparing every entry with the one before it
    (and reverses a descending one), and [BinaryInsertionSort] inserts each
    later entry by bisection.  The comparator is always handed the later
    entry first; an exception of the comparator ends the sort.  (An array of
    64 entries or more is cut into several runs that are merged, which is
    not followed here.) *)
Section Sort.
Variable A : Type.
Variable compare : A -> A -> completion Z.

(** The loop of [CountAndMakeRun]: [acc] is the run so far, latest entry
    first. *)
Fixpoint extendRun (isDescending : bool) (previous : A) (acc rest : list A)
  : completion (list A * list A) :=
  match rest with
  | [] => Normal (acc, [])
  | current :: rest' =>
      order <- compare current previous ;;
      if (if isDescending then (0 <=? order)%Z else (order <? 0)%Z)
      then Normal (acc, rest)
      else extendRun isDescending current (current :: acc) rest'
  end.

(** The run, in ascending order, and the entries after it. *)
Definition countAndMakeRun (xs : list A) : completion (list A * list A) :=
  match xs with
  | elementHigh :: elementLow :: rest =>
      order <- compare elementLow elementHigh ;;
      let isDescending := (order <? 0)%Z in
      found <- extendRun isDescending elementLow [elementLow; elementHigh] rest ;;
      Normal (if isDescending then fst found else rev (fst found), snd found)
  | _ => Normal (xs, [])
  end.

(** The bisection of [BinaryInsertionSort]; [steps] bounds [right - left]. *)
Fixpoint binarySearch (steps : nat) (pivot : A) (run : list A)
  (left right : nat) : completion nat :=
  if left <? right then
    match steps with
    | 0 => Normal left
    | S steps' =>
        let mid := left + Nat.div2 (right - left) in
        order <- compare pivot (nth mid run pivot) ;;
        if (order <? 0)%Z then binarySearch steps' pivot run left mid
        else binarySearch steps' pivot run (S mid) right
    end
  else Normal left.

Definition insertAt (pivot : A) (run : list A) (left : nat) : list A :=
  firstn left run ++ pivot :: skipn left run.

Fixpoint binaryInsertionSort (run pending : list A) : completion (list A) :=
  match pending with
  | [] => Normal run
  | pivot :: rest =>
      left <- binarySearch (length run) pivot run 0 (length run) ;;
      binaryInsertionSort (insertAt pivot run left) rest
  end.

Definition sortDefined (xs : list A) : completion (list A) :=
  match xs with
  | [] | [_] => Normal xs
  | _ =>
      found <- countAndMakeRun xs ;;
      binaryInsertionSort (fst found) (snd found)
  end.

Definition defined (xs : list (option A)) : list A :=
  flat_map (fun x => match x with Some v => [v] | None => [] end) xs.

Definition undefineds (xs : list (option A)) : list (option A) :=
  filter (fun x => match x with Some _ => false | None => true end) xs.

Definition sort (xs : list (option A)) : completion (list (option A)) :=
  sorted <- sortDefined (defined xs) ;;
  Normal (map Some sorted ++ undefineds xs).
End Sort.

(** The comparator handed to [sort] by [focusFirstInvalidField]. *)
Definition byDocumentPosition (x y : RefObject) : completion Z :=
  let a := current x in
  let b := current y in
  ea <- isDOMElement a ;;
  if negb ea then Normal 0%Z
  else
    eb <- isDOMElement b ;;
    if negb eb then Normal 0%Z
    else
      match a, b with
      | CElement p, CElement q =>
          let position := compareDocumentPosition p q in
          if negb (Z.land position Node.DOCUMENT_POSITION_FOLLOWING =? 0)%Z
          then Normal (-1)%Z
          else if negb (Z.land position Node.DOCUMENT_POSITION_PRECEDING =? 0)%Z
          then Normal 1%Z
          else Normal 0%Z
      | _, _ => Normal 0%Z
      end.

(** [x && typeof x.focus === 'function'] *)
Definition canFocus (x : Current) : bool :=
  match x with
  | CUndefined | CNull => false
  | CElement _ => true
  | CObject focusable => focusable
  end.

(** The state of one [useForm] call: the codec it was given, the ref and the
    state cells of the hook, and the [focus()] calls made so far, latest
    first. *)
Record Form : Type :=
  { codec : t.TypeC;
    initialStateRef : object;
    state : object;
    refsRef : list (string * RefObject);
    formErrors : FormErrors;
    focusCalls : list Current }.

Definition setState (s : object) (f : Form) : Form :=
  {| codec := codec f; initialStateRef := initialStateRef f; state := s;
     refsRef := refsRef f; formErrors := formErrors f;
     focusCalls := focusCalls f |}.

Definition setFormErrors (fe : FormErrors) (f : Form) : Form :=
  {| codec := codec f; initialStateRef := initialStateRef f; state := state f;
     refsRef := refsRef f; formErrors := fe; focusCalls := focusCalls f |}.

Definition focus (x : Current) (f : Form) : Form :=
  {| codec := codec f; initialStateRef := initialStateRef f; state := state f;
     refsRef := refsRef f; formErrors := formErrors f;
     focusCalls := x :: focusCalls f |}.

(** React writing [ref.current] when the input of field [key] is mounted or
    unmounted. *)
Definition attach (key : string) (x : Current) (f : Form) : Form :=
  {| codec := codec f; initialStateRef := initialStateRef f; state := state f;
     refsRef := set key {| current := x |} (refsRef f);
     formErrors := formErrors f; focusCalls := focusCalls f |}.

(** The first render of [useForm(codec, initialState)]. *)
Definition useForm (c : t.TypeC) (initialState : object) : Form :=
  {| codec := c;
     initialStateRef := initialState;
     state := initialState;
     refsRef :=
       fold_left (fun acc key => set key {| current := CUndefined |} acc)
         (keys (t.props c)) [];
     formErrors := [];
     focusCalls := [] |}.

(** [refs[key]] as the sort and the focus request see it: they read nothing
    of it but [current], which an inherited member does not have, so that one
    reads like a ref that holds [undefined]. *)
Definition refAt (refs : list (string * RefObject)) (key : string)
  : option RefObject :=
  match getProperty key refs with
  | Own r => Some r
  | Inherited _ => Some {| current := CUndefined |}
  | Missing => None
  end.

Definition focusFirstInvalidField (fe : FormErrors) (f : Form)
  : completion Form :=
  sorted <- sort byDocumentPosition (map (refAt (refsRef f)) (keys fe)) ;;
  match sorted with
  | Some r :: _ =>
      let firstFieldInDOM := current r in
      if canFocus firstFieldInDOM then Normal (focus firstFieldInDOM f)
      else Normal f
  | _ => Throw TypeError
  end.

(** A callback returns the form it leaves behind together with its
    completion: a state update made before an exception stays made. *)
Definition onFail (errors : t.Errors) (f : Form) : Form * completion unit :=
  match errorsToFormErrors errors with
  | Throw e => (f, Throw e)
  | Normal fe =>
      let f1 := setFormErrors fe f in
      match focusFirstInvalidField fe f1 with
      | Throw e => (f1, Throw e)
      | Normal f2 => (f2, Normal tt)
      end
  end.

Definition onSuccess (f : Form) : Form * completion unit :=
  (setFormErrors [] f, Normal tt).

Definition validate (f : Form) : Form * completion t.Validation :=
  let result := t.decode (codec f) (VObj (state f)) in
  let '(f', done) :=
    E.fold (fun errors => onFail errors f) (fun _ => onSuccess f) result in
  (f', _ <- done ;; Normal result).

Definition reset (f : Form) : Form := setState (initialStateRef f) f.

Module TextInputProps.
Record t : Type :=
  { value : jsval;
    onChange : jsval -> Form;
    onKeyPress : string -> Form * completion unit;
    ref : property RefObject }.
End TextInputProps.

Module CheckboxProps.
Record t : Type :=
  { isChecked : jsval;
    onChange : jsval -> Form;
    ref : property RefObject }.
End CheckboxProps.

Inductive Props : Type :=
| TextInput (p : TextInputProps.t)
| Checkbox (p : CheckboxProps.t)
| Unhandled.

(** [error] is typed as a string, but for a field named like a member of
    [Object.prototype] it can hold that member. *)
Record Field : Type := { props : Props; isInvalid : bool; error : jsval }.

(** [setState({ ...state, [key]: v })]: what the [onChange] of either kind of
    input does with [target.value] or [target.checked]. *)
Definition setFieldValue (key : string) (v : jsval) (f : Form) : Form :=
  setState (set key v (state f)) f.

Section Fields.
Variable isEmail : string -> bool.
Variable isMobilePhone : string -> bool.

Definition createTextInputProps (f : Form) (key : string)
  : TextInputProps.t :=
  {| TextInputProps.value := get key (state f);
     TextInputProps.onChange := fun v => setState (set key v (state f)) f;
     TextInputProps.onKeyPress := fun eventKey =>
       if String.eqb eventKey "Enter"
       then let '(f', done) := validate f in (f', _ <- done ;; Normal tt)
       else (f, Normal tt);
     TextInputProps.ref := getProperty key (refsRef f) |}.

Definition createCheckboxProps (f : Form) (key : string) : CheckboxProps.t :=
  {| CheckboxProps.isChecked := get key (state f);
     CheckboxProps.onChange := fun v => setState (set key v (state f)) f;
     CheckboxProps.ref := getProperty key (refsRef f) |}.

(** [xs.includes(x)] on codec objects *)
Definition includes (xs : list t.Mixed) (x : t.Mixed) : bool :=
  existsb (fun y => t.addr y =? t.addr x) xs.

Definition createProps (f : Form) (key : string) (type : t.Mixed) : Props :=
  if includes (t.types (TextInputField isEmail isMobilePhone)) type
  then TextInput (createTextInputProps f key)
  else if t.addr type =? t.addr CheckboxField
  then Checkbox (createCheckboxProps f key)
  else Unhandled.

(** [formErrors[key] || '']: an own message unless it is empty, an
    inherited member (which is truthy), or the empty string. *)
Definition errorOf (key : string) (fe : FormErrors) : jsval :=
  match getProperty key fe with
  | Own (Some m) => if String.eqb m "" then VStr "" else VStr m
  | Own None => VStr ""
  | Inherited name => VInherited name
  | Missing => VStr ""
  end.

(** The member [codec.props[key]] is the one listed with [key]. *)
Definition fields (f : Form) : list (string * Field) :=
  fold_left
    (fun acc p =>
       let key := fst p in
       let type := snd p in
       set key
         {| props := createProps f key type;
            isInvalid := hasProperty key (formErrors f);
            error := errorOf key (formErrors f) |}
         acc)
    (t.props (codec f)) [].
End Fields.

(** ** The life of a form

    What can happen to a form between two renders: an input changes a field,
    [validate] or [reset] is called, React mounts or unmounts an input. *)

Inductive event : Type :=
| SetFieldValue (key : string) (v : jsval)
| Validate
| Reset
| Attach (key : string) (x : Current).

Definition step (f : Form) (ev : event) : Form :=
  match ev with
  | SetFieldValue key v => setFieldValue key v f
  | Validate => fst (validate f)
  | Reset => reset f
  | Attach key x => attach key x f
  end.

Definition run (events : list event) (f : Form) : Form :=
  fold_left step events f.

(** ** The sign-up scenario *)

Definition signUpInitial : object :=
  [ ("company", VStr ""); ("email", VStr ""); ("password", VStr "");
    ("phone", VStr ""); ("sendNewsletter", VBool false) ].

Definition signUpEdits : list event :=
  [ SetFieldValue "email" (VStr "a@b.com");
    SetFieldValue "company" (VStr "Acme");
    SetFieldValue "password" (VStr "abcd");
    SetFieldValue "phone" (VStr "+14155552671") ].

Definition signUpFilled : object :=
  [ ("company", VStr "Acme"); ("email", VStr "a@b.com");
    ("password", VStr "abcd"); ("phone", VStr "+14155552671");
    ("sendNewsletter", VBool false) ].

Definition signUpErrors : FormErrors :=
  [ ("company", Some validationErrors.NonEmptyString);
    ("email", Some validationErrors.NonEmptyString);
    ("password", Some validationErrors.NonEmptyString);
    ("phone", Some validationErrors.NonEmptyString) ].

Definition isElement (r : RefObject) : Prop :=
  exists position, current r = CElement position.

(** The input of field [key] is mounted: its ref holds a DOM element. *)
Definition mounted (refs : list (string * RefObject)) (key : string) : Prop :=
  exists position, lookup key refs = Some {| current := CElement position |}.

(** ** Sample inputs

    Stand-ins for the two predicates of validator.js, each accepting the one
    string of the sign-up scenario, and two small forms. *)

Module Sample.
Definition isEmail (s : string) : bool := String.eqb s "a@b.com".
Definition isMobilePhone (s : string) : bool := String.eqb s "+14155552671".

Definition signUp : Form :=
  useForm (SignUpForm isEmail isMobilePhone) signUpInitial.

(** A form with the fields email and phone, both empty. *)
Definition contact : Form :=
  useForm
    (t.type 50 [ ("email", Email isEmail); ("phone", Phone isMobilePhone) ])
    [ ("email", VStr ""); ("phone", VStr "") ].

(** The sign-up form filled in, with the errors of an earlier validation
    still stored. *)
Definition filled : Form :=
  setFormErrors signUpErrors (setState signUpFilled signUp).
End Sample.

(** ** Vocabulary of the statements *)

Module Spec.

(** The context the [i]-th member of an intersection or union is run in. *)
Definition memberContext (c : t.Context) (i : nat) (u : jsval) : t.Context :=
  t.appendContext c (t.String_ i) u.

(** The failures of the members, from member [i] on, in declared order. *)
Fixpoint memberFailures (codecs : list t.Mixed) (i : nat) (u : jsval)
  (c : t.Context) : t.Errors :=
  match codecs with
  | [] => []
  | codec :: rest =>
      match t.validate codec u (memberContext c i u) with
      | E.Left e => e ++ memberFailures rest (S i) u c
      | E.Right _ => memberFailures rest (S i) u c
      end
  end.

(** The values of the members that accept, in declared order. *)
Fixpoint memberResults (codecs : list t.Mixed) (i : nat) (u : jsval)
  (c : t.Context) : list jsval :=
  match codecs with
  | [] => []
  | codec :: rest =>
      match t.validate codec u (memberContext c i u) with
      | E.Left _ => memberResults rest (S i) u c
      | E.Right a => a :: memberResults rest (S i) u c
      end
  end.

Fixpoint allAccept (codecs : list t.Mixed) (i : nat) (u : jsval)
  (c : t.Context) : bool :=
  match codecs with
  | [] => true
  | codec :: rest =>
      negb (E.isLeft (t.validate codec u (memberContext c i u)))
      && allAccept rest (S i) u c
  end.

Fixpoint allReject (codecs : list t.Mixed) (i : nat) (u : jsval)
  (c : t.Context) : bool :=
  match codecs with
  | [] => true
  | codec :: rest =>
      E.isLeft (t.validate codec u (memberContext c i u))
      && allReject rest (S i) u c
  end.

(** The value of the first member, in declared order, that accepts. *)
Fixpoint firstAccepting (codecs : list t.Mixed) (i : nat) (u : jsval)
  (c : t.Context) : option jsval :=
  match codecs with
  | [] => None
  | codec :: rest =>
      match t.validate codec u (memberContext c i u) with
      | E.Left _ => firstAccepting rest (S i) u c
      | E.Right a => Some a
      end
  end.

(** Short-circuit, in the words of the specification: the result of a
    rejecting intersection is the failure of its first failing member and
    nothing else. *)
Definition firstFailureOnly (a : nat) (codecs : list t.Mixed) (u : jsval)
  (c : t.Context) : Prop :=
  forall pre codec post e,
    codecs = pre ++ codec :: post ->
    allAccept pre 0 u c = true ->
    t.validate codec u (memberContext c (length pre) u) = E.Left e ->
    t.validate (t.intersection a codecs) u c = E.Left e.

(** A codec never fails with an empty list of failures. *)
Definition failsWithSome (codec : t.Mixed) : Prop :=
  forall u c, t.validate codec u c <> E.Left [].

(** The first path segment below the root: the field a failure is about. *)
Definition fieldOf (e : t.ValidationError) : option string :=
  option_map t.key (nth_error (t.context e) 1).

Definition isAbout (k : string) (e : t.ValidationError) : bool :=
  match fieldOf e with
  | Some k' => String.eqb k k'
  | None => false
  end.

(** The projection in the words of the specification: walk the failures in
    order and keep, for every field name, the first failure met. *)
Fixpoint firstPerField (errors : t.Errors) (seen : list string) : FormErrors :=
  match errors with
  | [] => []
  | e :: rest =>
      match fieldOf e with
      | None => firstPerField rest seen
      | Some k =>
          if existsb (String.eqb k) seen then firstPerField rest seen
          else (k, t.message e) :: firstPerField rest (seen ++ [k])
      end
  end.

(** The context [decode] starts from. *)
Definition root (u : jsval) : t.Context := [ {| t.key := ""; t.actual := u |} ].

(** The context the member of property [k] is run in. *)
Definition fieldContext (c : t.Context) (k : string) (o : object) : t.Context :=
  t.appendContext c k (get k o).

(** The failures of the members of an object codec on [o], property by
    property in declared order. *)
Fixpoint fieldFailures (ps : list (string * t.Mixed)) (o : object)
  (c : t.Context) : t.Errors :=
  match ps with
  | [] => []
  | (k, type_k) :: rest =>
      match t.validate type_k (get k o) (fieldContext c k o) with
      | E.Left e => e ++ fieldFailures rest o c
      | E.Right _ => fieldFailures rest o c
      end
  end.

(** The properties whose member rejects the value [o] holds for them. *)
Definition rejectedFields (ps : list (string * t.Mixed)) (o : object)
  (c : t.Context) : list string :=
  keys
    (filter
       (fun p =>
          E.isLeft (t.validate (snd p) (get (fst p) o) (fieldContext c (fst p) o)))
       ps).

(** A codec reports at least one failure when it rejects, each of them at
    or below the context it was run in. *)
Definition reportsBelow (codec : t.Mixed) : Prop :=
  forall u c errs,
    t.validate codec u c = E.Left errs ->
    errs <> [] /\
    Forall (fun e => exists rest, t.context e = c ++ rest) errs.

End Spec.

(** ** Vocabulary for the messages of a codec *)

Module Report.

(** The messages of the failures of a validation, in order; none when it
    succeeded. *)
Definition messagesOf (v : t.Validation) : list (option string) :=
  match v with
  | E.Left errs => map t.message errs
  | E.Right _ => []
  end.

(** What one leaf contributes: nothing when its check holds, its message
    otherwise. *)
Definition complaint (ok : bool) (msg : string) : list (option string) :=
  if ok then [] else [Some msg].

Definition isString (u : jsval) : bool :=
  match u with VStr _ => true | _ => false end.

(** The messages of the members of an intersection, from member [i] on. *)
Fixpoint memberMessages (codecs : list t.Mixed) (i : nat) (u : jsval)
  (c : t.Context) : list (option string) :=
  match codecs with
  | [] => []
  | codec :: rest =>
      messagesOf (t.validate codec u (Spec.memberContext c i u))
      ++ memberMessages rest (S i) u c
  end.

(** The checks of the leaves, as [src/types/index.ts] writes them. *)
Definition nonEmpty (s : string) : bool := 0 <? String.length s.
Definition trimmed (s : string) : bool :=
  String.length (trim s) =? String.length s.
Definition atMost (n : nat) (s : string) : bool := String.length s <=? n.
Definition atLeast (n : nat) (s : string) : bool := n <=? String.length s.

(** A codec that hands its input back when it accepts. *)
Definition returnsInput (codec : t.Mixed) : Prop :=
  forall u c v, t.validate codec u c = E.Right v -> v = u.

(** A codec that rejects [undefined], the value of a missing property. *)
Definition rejectsUndefined (codec : t.Mixed) : Prop :=
  forall c, E.isLeft (t.validate codec VUndefined c) = true.

(** The rank in document order of the element a ref holds. *)
Definition position (r : RefObject) : nat :=
  match current r with
  | CElement p => p
  | _ => 0
  end.

(** A ref that holds no object: the input is not mounted, or no longer. *)
Definition holdsNothing (r : RefObject) : Prop :=
  current r = CUndefined \/ current r = CNull.

(** The first of the refs holds an element that none of the others comes
    before in the document. *)
Definition leastFirst (rs : list RefObject) : Prop :=
  match rs with
  | h :: _ => forall y, In y rs -> position h <= position y
  | [] => True
  end.

End Report.

(** ** More sample forms *)

Module Example.

(** The sign-up form with its four text inputs mounted; the phone input
    comes first in the document. *)
Definition mountedSignUp : Form :=
  attach "phone" (CElement 0)
    (attach "email" (CElement 2)
       (attach "company" (CElement 1)
          (attach "password" (CElement 3) Sample.signUp))).

(** A sign-up form whose value is filled in but has no sendNewsletter
    property. *)
Definition noNewsletter : Form :=
  useForm (SignUpForm Sample.isEmail Sample.isMobilePhone)
    [ ("company", VStr "Acme"); ("email", VStr "a@b.com");
      ("password", VStr "abcd"); ("phone", VStr "+14155552671") ].

(** The sign-up form filled in except for the password, nothing mounted. *)
Definition noPassword : Form :=
  setFieldValue "password" (VStr "")
    (setState signUpFilled Sample.signUp).

(** A form whose one field is constrained by a brand that is given no
    message, and is empty. *)
Definition nickname : Form :=
  useForm
    (t.type 61
       [ ("nick",
          t.brand 62 t.string (onString (fun s => 0 <? String.length s))
            "NonEmpty") ])
    [ ("nick", VStr "") ].

(** A form whose one field is named like a member of [Object.prototype],
    and is empty. *)
Definition constructorField : Form :=
  useForm (t.type 60 [ ("constructor", String64) ])
    [ ("constructor", VStr "") ].

End Example.

(** ** Objects *)

Section ObjFacts.
Variable A : Type.
Implicit Types (o : list (string * A)) (k : string).

Lemma has_lookup k o : has k o = match lookup k o with Some _ => true | None => false end.
Proof.
  induction o as [|[k' v] o IH]; simpl; [reflexivity|].
  destruct (String.eqb k k'); [reflexivity | exact IH].
Qed.

Lemma has_In k o : has k o = true <-> In k (keys o).
Proof.
  induction o as [|[k' v] o IH]; simpl.
  - split; [discriminate | tauto].
  - destruct (String.eqb_spec k k') as [->|Hne].
    + split; auto.
    + rewrite IH. split; [auto | intros [Heq|H]; [congruence | exact H]].
Qed.

Lemma define_last k (v : A) o :
  Forall (fun k' => goesBefore k k' = false) (keys o) ->
  define k v o = o ++ [(k, v)].
Proof.
  induction o as [|[k' v'] o IH]; simpl; [reflexivity|].
  intros Hall. inversion Hall as [|? ? Hk Hrest]; subst.
  rewrite Hk. now rewrite IH.
Qed.

(** A new property that need not go before any other goes last. *)
Lemma set_new k (v : A) o :
  has k o = false ->
  Forall (fun k' => goesBefore k k' = false) (keys o) ->
  set k v o = o ++ [(k, v)].
Proof. intros Hhas Hall. unfold set. rewrite Hhas. now apply define_last. Qed.

Lemma lookup_replace_same k (v : A) o :
  has k o = true -> lookup k (replace k v o) = Some v.
Proof.
  induction o as [|[k' v'] o IH]; simpl; [discriminate|].
  destruct (String.eqb k k') eqn:Hk; simpl.
  - now rewrite String.eqb_refl.
  - now rewrite Hk.
Qed.

Lemma lookup_replace_other k k' (v : A) o :
  k <> k' -> lookup k (replace k' v o) = lookup k o.
Proof.
  intros Hne. induction o as [|[k2 v2] o IH]; simpl; [reflexivity|].
  destruct (String.eqb_spec k' k2) as [->|Hk]; simpl.
  - destruct (String.eqb_spec k k2); [contradiction | reflexivity].
  - destruct (String.eqb k k2); [reflexivity | exact IH].
Qed.

Lemma lookup_define_same k (v : A) o :
  has k o = false -> lookup k (define k v o) = Some v.
Proof.
  induction o as [|[k' v'] o IH]; simpl.
  - now rewrite String.eqb_refl.
  - destruct (String.eqb k k') eqn:Hk; [discriminate|]. intros Hhas.
    destruct (goesBefore k k'); simpl.
    + now rewrite String.eqb_refl.
    + rewrite Hk. now apply IH.
Qed.

Lemma lookup_define_other k k' (v : A) o :
  k <> k' -> lookup k (define k' v o) = lookup k o.
Proof.
  intros Hne. induction o as [|[k2 v2] o IH]; simpl.
  - destruct (String.eqb_spec k k'); [contradiction | reflexivity].
  - destruct (goesBefore k' k2); simpl.
    + destruct (String.eqb_spec k k'); [contradiction | reflexivity].
    + destruct (String.eqb k k2); [reflexivity | exact IH].
Qed.

Lemma lookup_set_same k (v : A) o : lookup k (set k v o) = Some v.
Proof.
  unfold set. destruct (has k o) eqn:Hhas.
  - now apply lookup_replace_same.
  - now apply lookup_define_same.
Qed.

Lemma lookup_set_other k k' (v : A) o :
  k <> k' -> lookup k (set k' v o) = lookup k o.
Proof.
  intros Hne. unfold set. destruct (has k' o).
  - now apply lookup_replace_other.
  - now apply lookup_define_other.
Qed.

Lemma has_set_other k k' (v : A) o : k <> k' -> has k (set k' v o) = has k o.
Proof. intros H. now rewrite !has_lookup, lookup_set_other. Qed.

Lemma has_set_same k (v : A) o : has k (set k v o) = true.
Proof. now rewrite has_lookup, lookup_set_same. Qed.

Lemma keys_set_present k (v : A) o : has k o = true -> keys (set k v o) = keys o.
Proof.
  unfold set. intros Hhas. rewrite Hhas. revert Hhas. unfold keys.
  induction o as [|[k' v'] o IH]; simpl; [discriminate|].
  destruct (String.eqb_spec k k') as [->|Hne]; simpl; [reflexivity|].
  intros H. f_equal. now apply IH.
Qed.

(** A new property adds its name to the names, wherever it goes. *)
Lemma keys_define_In k (v : A) o k' :
  In k' (keys (define k v o)) <-> k' = k \/ In k' (keys o).
Proof.
  unfold keys. induction o as [|[k2 v2] o IH]; simpl.
  - intuition.
  - destruct (goesBefore k k2); simpl; [intuition|].
    rewrite IH. intuition.
Qed.

Lemma keys_set_In k (v : A) o k' :
  In k' (keys (set k v o)) <-> k' = k \/ In k' (keys o).
Proof.
  rewrite <- !has_In. destruct (String.eqb_spec k' k) as [->|Hne].
  - rewrite has_set_same. intuition.
  - rewrite has_set_other by exact Hne. intuition.
Qed.

Lemma keys_define_NoDup k (v : A) o :
  has k o = false -> NoDup (keys o) -> NoDup (keys (define k v o)).
Proof.
  unfold keys. induction o as [|[k' v'] o IH]; simpl; intros Hhas Hnd.
  - constructor; [intros [] | constructor].
  - destruct (String.eqb_spec k k') as [->|Hne]; [discriminate|].
    inversion Hnd as [|? ? Hk' Hrest]; subst.
    destruct (goesBefore k k'); simpl.
    + constructor; [|exact Hnd].
      intros [Heq|Hin]; [congruence|].
      apply (proj2 (has_In k o)) in Hin. congruence.
    + constructor; [|now apply IH].
      intros Hin. apply (keys_define_In k v o k') in Hin.
      destruct Hin as [Heq|Hin]; [congruence | contradiction].
Qed.

Lemma keys_set_NoDup k (v : A) o : NoDup (keys o) -> NoDup (keys (set k v o)).
Proof.
  intros Hnd. destruct (has k o) eqn:Hhas.
  - now rewrite keys_set_present.
  - unfold set. rewrite Hhas. now apply keys_define_NoDup.
Qed.

Lemma lookup_app_l k o o' :
  has k o = true -> lookup k (o ++ o') = lookup k o.
Proof.
  induction o as [|[k' v'] o IH]; simpl; [discriminate|].
  destruct (String.eqb k k'); [reflexivity | exact IH].
Qed.

Lemma lookup_app_r k o o' :
  has k o = false -> lookup k (o ++ o') = lookup k o'.
Proof.
  induction o as [|[k' v'] o IH]; simpl; [reflexivity|].
  destruct (String.eqb k k'); [discriminate | exact IH].
Qed.

Lemma getProperty_set_same k (v : A) o : getProperty k (set k v o) = Own v.
Proof. unfold getProperty. now rewrite lookup_set_same. Qed.

Lemma getProperty_set_other k k' (v : A) o :
  k <> k' -> getProperty k (set k' v o) = getProperty k o.
Proof. intros H. unfold getProperty. now rewrite lookup_set_other. Qed.

Lemma getProperty_own k o a : lookup k o = Some a -> getProperty k o = Own a.
Proof. unfold getProperty. now intros ->. Qed.

Lemma getProperty_plain k o :
  isInherited k = false ->
  getProperty k o = match lookup k o with Some a => Own a | None => Missing end.
Proof. unfold getProperty. intros ->. reflexivity. Qed.

Lemma hasProperty_plain k o : isInherited k = false -> hasProperty k o = has k o.
Proof. unfold hasProperty. intros ->. apply orb_false_r. Qed.
End ObjFacts.

(** In a list in property order, what comes after a name need not go before
    it. *)
Lemma propertyOrder_app_last l : forall k rest,
  propertyOrder (l ++ k :: rest) ->
  Forall (fun k' => goesBefore k k' = false) l.
Proof.
  unfold propertyOrder.
  induction l as [|k0 l IH]; intros k rest Hs; [constructor|].
  simpl in Hs. apply StronglySorted_inv in Hs. destruct Hs as [Hs Hall].
  constructor; [|now apply IH with rest].
  rewrite Forall_forall in Hall. apply Hall. apply in_or_app. right. now left.
Qed.

Lemma propertyOrder_tail k l : propertyOrder (k :: l) -> propertyOrder l.
Proof. intros H. now apply StronglySorted_inv in H. Qed.

Lemma get_set_other k k' v (o : object) : k <> k' -> get k (set k' v o) = get k o.
Proof. intros H. unfold get. now rewrite getProperty_set_other. Qed.

Lemma get_set_same k v (o : object) : get k (set k v o) = v.
Proof. unfold get. now rewrite getProperty_set_same. Qed.

(** ** Facts about the io-ts combinators *)

Lemma intersection_loop_collects codecs : forall i u c us errors,
  t.intersection_loop codecs i u c us errors
  = (us ++ Spec.memberResults codecs i u c,
     errors ++ Spec.memberFailures codecs i u c).
Proof.
  induction codecs as [|codec rest IH]; intros i u c us errors; simpl.
  - now rewrite !app_nil_r.
  - unfold Spec.memberContext.
    destruct (t.validate codec u (t.appendContext c (t.String_ i) u)) as [e|a];
      rewrite IH; rewrite <- ?app_assoc; reflexivity.
Qed.

Lemma intersection_validate a codecs u c :
  t.validate (t.intersection a codecs) u c
  = match Spec.memberFailures codecs 0 u c with
    | [] => E.Right (t.mergeAll u (Spec.memberResults codecs 0 u c))
    | errs => E.Left errs
    end.
Proof.
  destruct codecs as [|codec rest]; [reflexivity|].
  cbn [t.validate t.intersection].
  rewrite intersection_loop_collects. cbn [app].
  destruct (Spec.memberFailures (codec :: rest) 0 u c); reflexivity.
Qed.

Lemma memberFailures_nil_iff codecs : forall i u c,
  Forall Spec.failsWithSome codecs ->
  (Spec.memberFailures codecs i u c = [] <-> Spec.allAccept codecs i u c = true).
Proof.
  induction codecs as [|codec rest IH]; intros i u c Hall; simpl.
  - tauto.
  - inversion Hall as [|? ? Hc Hrest]; subst.
    specialize (IH (S i) u c Hrest).
    destruct (t.validate codec u (Spec.memberContext c i u)) as [e|v] eqn:Hv; simpl.
    + split; [|discriminate].
      intros H. apply app_eq_nil in H. destruct H as [-> _].
      now apply Hc in Hv.
    + exact IH.
Qed.

Lemma memberFailures_app pre : forall post i u c,
  Spec.memberFailures (pre ++ post) i u c
  = Spec.memberFailures pre i u c
    ++ Spec.memberFailures post (length pre + i) u c.
Proof.
  induction pre as [|codec rest IH]; intros post i u c; simpl; [reflexivity|].
  rewrite IH, <- plus_n_Sm.
  destruct (t.validate codec u (Spec.memberContext c i u));
    rewrite <- ?app_assoc; reflexivity.
Qed.

Lemma allAccept_no_failures codecs : forall i u c,
  Spec.allAccept codecs i u c = true -> Spec.memberFailures codecs i u c = [].
Proof.
  induction codecs as [|codec rest IH]; intros i u c; simpl; [reflexivity|].
  destruct (t.validate codec u (Spec.memberContext c i u)); simpl.
  - discriminate.
  - apply IH.
Qed.

Lemma union_loop_first codecs : forall i u c errors,
  t.union_loop codecs i u c errors
  = match Spec.firstAccepting codecs i u c with
    | Some v => E.Right v
    | None => E.Left (errors ++ Spec.memberFailures codecs i u c)
    end.
Proof.
  induction codecs as [|codec rest IH]; intros i u c errors; simpl.
  - now rewrite app_nil_r.
  - unfold Spec.memberContext.
    destruct (t.validate codec u (t.appendContext c (t.String_ i) u)) as [e|v].
    + rewrite IH, <- app_assoc. reflexivity.
    + reflexivity.
Qed.

Lemma firstAccepting_Some_iff codecs : forall i u c,
  (exists v, Spec.firstAccepting codecs i u c = Some v)
  <-> (exists n codec v,
         nth_error codecs n = Some codec /\
         t.validate codec u (Spec.memberContext c (n + i) u) = E.Right v).
Proof.
  induction codecs as [|codec rest IH]; intros i u c; simpl.
  - split; [intros [v H]; discriminate|].
    intros (n & codec & v & H & _). destruct n; discriminate.
  - destruct (t.validate codec u (Spec.memberContext c i u)) as [e|v] eqn:Hv.
    + rewrite IH. split.
      * intros (n & cd & v & Hn & Hval). exists (S n), cd, v.
        split; [exact Hn|]. simpl. now rewrite plus_n_Sm.
      * intros (n & cd & v & Hn & Hval). destruct n as [|n]; simpl in *.
        -- injection Hn as <-. congruence.
        -- exists n, cd, v. split; [exact Hn|]. now rewrite <- plus_n_Sm.
    + split; [|intros _; now exists v].
      intros _. exists 0, codec, v. split; [reflexivity | exact Hv].
Qed.

Lemma firstAccepting_after_rejects pre : forall codec post i u c v,
  Spec.allReject pre i u c = true ->
  t.validate codec u (Spec.memberContext c (length pre + i) u) = E.Right v ->
  Spec.firstAccepting (pre ++ codec :: post) i u c = Some v.
Proof.
  induction pre as [|p rest IH]; intros codec post i u c v Hrej Hacc; simpl in *.
  - now rewrite Hacc.
  - destruct (t.validate p u (Spec.memberContext c i u)); [|discriminate].
    apply IH; [exact Hrej|]. now rewrite <- plus_n_Sm.
Qed.

Lemma firstAccepting_all_reject codecs : forall i u c,
  Spec.allReject codecs i u c = true -> Spec.firstAccepting codecs i u c = None.
Proof.
  induction codecs as [|codec rest IH]; intros i u c; simpl; [reflexivity|].
  destruct (t.validate codec u (Spec.memberContext c i u)); simpl.
  - apply IH.
  - discriminate.
Qed.

Lemma withMessage_failsWithSome a codec message :
  Spec.failsWithSome (withMessage a codec message).
Proof.
  intros u c. cbn. destruct (t.validate codec u c); cbn; discriminate.
Qed.

Lemma mergeAll_same base us :
  forallb (fun u => strict_eq u base) us = true -> t.mergeAll base us = base.
Proof. intros H. unfold t.mergeAll. now rewrite H. Qed.

(** ** The codecs of [src/types/index.ts] on strings *)

Section TypesFacts.
Variable isEmail : string -> bool.
Variable isMobilePhone : string -> bool.
Implicit Types (s : string) (c : t.Context).

Lemma TypeString_string s c : t.validate TypeString (VStr s) c = E.Right (VStr s).
Proof. reflexivity. Qed.

Lemma NonEmptyString_string s c :
  0 < String.length s ->
  t.validate NonEmptyString (VStr s) c = E.Right (VStr s).
Proof.
  intros H. cbn -[Nat.ltb]. apply Nat.ltb_lt in H. now rewrite H.
Qed.

Lemma TrimmedString_string s c :
  trim s = s -> t.validate TrimmedString (VStr s) c = E.Right (VStr s).
Proof.
  intros H. cbn -[trim Nat.eqb]. now rewrite H, Nat.eqb_refl.
Qed.

Lemma Max64String_string s c :
  String.length s <= 64 ->
  t.validate Max64String (VStr s) c = E.Right (VStr s).
Proof.
  intros H. cbn -[Nat.leb]. apply Nat.leb_le in H. now rewrite H.
Qed.

Lemma Max512String_string s c :
  String.length s <= 512 ->
  t.validate Max512String (VStr s) c = E.Right (VStr s).
Proof.
  intros H. cbn -[Nat.leb]. apply Nat.leb_le in H. now rewrite H.
Qed.

Lemma Min4String_string s c :
  4 <= String.length s ->
  t.validate Min4String (VStr s) c = E.Right (VStr s).
Proof.
  intros H. cbn -[Nat.leb]. apply Nat.leb_le in H. now rewrite H.
Qed.

Lemma EmailString_string s c :
  isEmail s = true ->
  t.validate (EmailString isEmail) (VStr s) c = E.Right (VStr s).
Proof. intros H. cbn. now rewrite H. Qed.

Lemma PhoneString_string s c :
  isMobilePhone s = true ->
  t.validate (PhoneString isMobilePhone) (VStr s) c = E.Right (VStr s).
Proof. intros H. cbn. now rewrite H. Qed.

(** An intersection whose members all hand a string back hands it back. *)
Lemma intersection_string a codecs s c :
  (forall codec c', In codec codecs ->
                    t.validate codec (VStr s) c' = E.Right (VStr s)) ->
  t.validate (t.intersection a codecs) (VStr s) c = E.Right (VStr s).
Proof.
  intros Hall. rewrite intersection_validate.
  assert (Hgen : forall i,
    Spec.memberFailures codecs i (VStr s) c = []
    /\ forallb (fun u => strict_eq u (VStr s))
         (Spec.memberResults codecs i (VStr s) c) = true).
  { induction codecs as [|codec rest IH]; intros i; simpl; [auto|].
    rewrite (Hall codec); [|now left]. simpl.
    rewrite String.eqb_refl.
    apply IH. intros cd c' Hin. apply Hall. now right. }
  destruct (Hgen 0) as [-> Hres]. now rewrite mergeAll_same.
Qed.

Lemma NonEmptyTrimmedString_string s c :
  0 < String.length s -> trim s = s ->
  t.validate NonEmptyTrimmedString (VStr s) c = E.Right (VStr s).
Proof.
  intros Hlen Htrim. apply intersection_string.
  intros codec c' [<-|[<-|[<-|[]]]];
    auto using TypeString_string, NonEmptyString_string, TrimmedString_string.
Qed.

Lemma String64_string s c :
  0 < String.length s -> String.length s <= 64 -> trim s = s ->
  t.validate String64 (VStr s) c = E.Right (VStr s).
Proof.
  intros Hlen Hmax Htrim. apply intersection_string.
  intros codec c' [<-|[<-|[]]];
    auto using NonEmptyTrimmedString_string, Max64String_string.
Qed.

Lemma String512_string s c :
  0 < String.length s -> String.length s <= 512 -> trim s = s ->
  t.validate String512 (VStr s) c = E.Right (VStr s).
Proof.
  intros Hlen Hmax Htrim. apply intersection_string.
  intros codec c' [<-|[<-|[]]];
    auto using NonEmptyTrimmedString_string, Max512String_string.
Qed.

Lemma Email_string s c :
  0 < String.length s -> String.length s <= 64 -> trim s = s ->
  isEmail s = true ->
  t.validate (Email isEmail) (VStr s) c = E.Right (VStr s).
Proof.
  intros Hlen Hmax Htrim Hmail. apply intersection_string.
  intros codec c' [<-|[<-|[]]];
    auto using String64_string, EmailString_string.
Qed.

Lemma Password_string s c :
  4 <= String.length s -> String.length s <= 512 -> trim s = s ->
  t.validate Password (VStr s) c = E.Right (VStr s).
Proof.
  intros Hmin Hmax Htrim. apply intersection_string.
  intros codec c' [<-|[<-|[]]]; [apply String512_string; auto; lia|].
  now apply Min4String_string.
Qed.

Lemma Phone_string s c :
  0 < String.length s -> trim s = s -> isMobilePhone s = true ->
  t.validate (Phone isMobilePhone) (VStr s) c = E.Right (VStr s).
Proof.
  intros Hlen Htrim Hphone. apply intersection_string.
  intros codec c' [<-|[<-|[]]];
    auto using NonEmptyTrimmedString_string, PhoneString_string.
Qed.

Lemma Email_rejects s c :
  isEmail s = false ->
  exists e, t.validate (Email isEmail) (VStr s) c = E.Left e.
Proof.
  intros Hmail. unfold Email. rewrite intersection_validate.
  cbn -[String64 Spec.memberContext]. rewrite Hmail. cbn -[String64 Spec.memberContext].
  destruct (t.validate String64 (VStr s) _) as [e|v].
  - destruct e; cbn; eauto.
  - eauto.
Qed.
End TypesFacts.


(** ** Intersections and unions *)

(** C1, as amended: an intersection accepts exactly when every member accepts;
    the members are run left to right and none is skipped, so on rejection the
    result is the failures of the first failing member followed by those of
    every later failing member.  Decoding [123] against
    [intersection([TypeString, NonEmptyString])] yields two failures, the
    message of [TypeString] first and that of [NonEmptyString] second. *)
Theorem intersection_collects_member_failures
  (a : nat) (codecs : list t.Mixed) (u : jsval) (c : t.Context) :
  Forall Spec.failsWithSome codecs ->
  (E.isLeft (t.validate (t.intersection a codecs) u c) = false
   <-> Spec.allAccept codecs 0 u c = true)
  /\ (Spec.allAccept codecs 0 u c = false ->
      t.validate (t.intersection a codecs) u c
      = E.Left (Spec.memberFailures codecs 0 u c))
  /\ (forall pre codec post e,
        codecs = pre ++ codec :: post ->
        Spec.allAccept pre 0 u c = true ->
        t.validate codec u (Spec.memberContext c (length pre) u) = E.Left e ->
        t.validate (t.intersection a codecs) u c
        = E.Left (e ++ Spec.memberFailures post (S (length pre)) u c))
  /\ (exists e1 e2,
        t.decode (t.intersection a [TypeString; NonEmptyString]) (VNum 123)
        = E.Left [e1; e2]
        /\ t.message e1 = Some validationErrors.TypeString
        /\ t.message e2 = Some validationErrors.NonEmptyString).
Proof.
  intros Hsome.
  pose proof (memberFailures_nil_iff 0 u c Hsome) as Hnil.
  rewrite intersection_validate.
  split; [|split; [|split]].
  - destruct (Spec.memberFailures codecs 0 u c) as [|e es]; simpl.
    + split; [intros _; now apply Hnil | reflexivity].
    + split; [discriminate|]. intros H. apply Hnil in H. discriminate.
  - intros Hrej. destruct (Spec.memberFailures codecs 0 u c) as [|e es];
      [|reflexivity].
    destruct Hnil as [Hnil _]. rewrite Hnil in Hrej; [discriminate|reflexivity].
  - intros pre codec post e -> Hpre Hfail.
    rewrite memberFailures_app, (allAccept_no_failures _ _ _ _ Hpre).
    cbn [app Spec.memberFailures]. rewrite Nat.add_0_r, Hfail.
    destruct e as [|e0 e'].
    + apply Forall_app in Hsome. destruct Hsome as [_ Hsome].
      inversion Hsome as [|? ? Hc _]; subst. now apply Hc in Hfail.
    + reflexivity.
  - do 2 eexists. split; [reflexivity|]. split; reflexivity.
Qed.

(** C8: the decode of a union accepts exactly when some member accepts, and
    then with the value of the first accepting member in declared order; when
    every member rejects it fails with the failures of all members, in
    order.  The same holds of [validate] in any context.  A trimmed string of
    ten characters is decoded by [TextInputField], and by the union of the
    same members listed as [Email], [Password], [Phone], [String64]. *)
Theorem union_first_accepting_member
  (a : nat) (codecs : list t.Mixed) (u : jsval) (c : t.Context) :
  t.validate (t.union a codecs) u c
  = match Spec.firstAccepting codecs 0 u c with
    | Some v => E.Right v
    | None => E.Left (Spec.memberFailures codecs 0 u c)
    end
  /\ t.decode (t.union a codecs) u
     = match Spec.firstAccepting codecs 0 u (Spec.root u) with
       | Some v => E.Right v
       | None => E.Left (Spec.memberFailures codecs 0 u (Spec.root u))
       end
  /\ (E.isLeft (t.decode (t.union a codecs) u) = false
      <-> exists n codec v,
            nth_error codecs n = Some codec
            /\ t.validate codec u (Spec.memberContext (Spec.root u) n u)
               = E.Right v)
  /\ (forall pre codec post v,
        codecs = pre ++ codec :: post ->
        Spec.allReject pre 0 u (Spec.root u) = true ->
        t.validate codec u (Spec.memberContext (Spec.root u) (length pre) u)
        = E.Right v ->
        t.decode (t.union a codecs) u = E.Right v)
  /\ (Spec.allReject codecs 0 u (Spec.root u) = true ->
      t.decode (t.union a codecs) u
      = E.Left (Spec.memberFailures codecs 0 u (Spec.root u)))
  /\ (forall (isEmail isMobilePhone : string -> bool) (s : string),
        String.length s = 10 -> trim s = s ->
        t.decode (TextInputField isEmail isMobilePhone) (VStr s)
        = E.Right (VStr s)
        /\ t.decode
             (t.union a
                [Email isEmail; Password; Phone isMobilePhone; String64])
             (VStr s)
           = E.Right (VStr s)).
Proof.
  assert (Hval : forall codecs' u' c',
    t.validate (t.union a codecs') u' c'
    = match Spec.firstAccepting codecs' 0 u' c' with
      | Some v => E.Right v
      | None => E.Left (Spec.memberFailures codecs' 0 u' c')
      end).
  { intros codecs' u' c'. cbn [t.validate t.UnionType t.types].
    now rewrite union_loop_first. }
  assert (Hdec : forall codecs' u',
    t.decode (t.union a codecs') u'
    = match Spec.firstAccepting codecs' 0 u' (Spec.root u') with
      | Some v => E.Right v
      | None => E.Left (Spec.memberFailures codecs' 0 u' (Spec.root u'))
      end) by (intros codecs' u'; apply Hval).
  split; [apply Hval|]. split; [apply Hdec|]. split; [|split; [|split]].
  - rewrite Hdec.
    pose proof (firstAccepting_Some_iff codecs 0 u (Spec.root u)) as Hiff.
    destruct (Spec.firstAccepting codecs 0 u (Spec.root u)) as [v|]; simpl.
    + split; [intros _|reflexivity].
      destruct Hiff as [Hiff _]. destruct Hiff as (n & cd & w & Hn & Hw);
        [now exists v|].
      exists n, cd, w. now rewrite Nat.add_0_r in Hw.
    + split; [discriminate|].
      intros (n & cd & w & Hn & Hw). destruct Hiff as [_ Hiff].
      destruct Hiff as [w' Hw']; [|discriminate].
      exists n, cd, w. now rewrite Nat.add_0_r.
  - intros pre codec post v -> Hrej Hacc. rewrite Hdec.
    rewrite (firstAccepting_after_rejects pre codec post 0 u (Spec.root u)
               (v := v));
      [reflexivity | exact Hrej | now rewrite Nat.add_0_r].
  - intros Hrej. rewrite Hdec. now rewrite firstAccepting_all_reject.
  - intros isEmail isMobilePhone s Hlen Htrim. split.
    + unfold t.decode.
      cbn [t.validate t.UnionType t.types TextInputField t.union_loop].
      rewrite String64_string; [reflexivity | lia | lia | exact Htrim].
    + rewrite Hdec.
      cbn [Spec.firstAccepting].
      destruct (isEmail s) eqn:Hmail.
      * rewrite (Email_string isEmail); [reflexivity|lia|lia|exact Htrim|exact Hmail].
      * destruct (Email_rejects isEmail s
                    (Spec.memberContext (Spec.root (VStr s)) 0 (VStr s))
                    Hmail) as [e ->].
        rewrite Password_string; [reflexivity|lia|lia|exact Htrim].
Qed.

(** ** The projection of failures to [FormErrors] *)

Lemma has_existsb (A : Type) k (o : list (string * A)) :
  existsb (String.eqb k) (keys o) = has k o.
Proof.
  unfold keys. induction o as [|[k' v] o IH]; simpl; [reflexivity|].
  destruct (String.eqb k k'); [reflexivity | exact IH].
Qed.

Lemma fieldOf_None e : Spec.fieldOf e = None <-> length (t.context e) < 2.
Proof.
  unfold Spec.fieldOf.
  destruct (nth_error (t.context e) 1) as [entry|] eqn:Hn; simpl.
  - split; [discriminate|]. intros Hlen.
    assert (nth_error (t.context e) 1 = None) by (apply nth_error_None; lia).
    congruence.
  - split; [|reflexivity]. intros _. apply nth_error_None in Hn. lia.
Qed.

Lemma reduce_projectStep_total errors : forall acc,
  Forall (fun e => Spec.fieldOf e <> None) errors ->
  exists fe, reduce projectStep errors acc = Normal fe.
Proof.
  induction errors as [|e rest IH]; intros acc Hall; simpl; [eauto|].
  inversion Hall as [|? ? He Hrest]; subst.
  unfold projectStep at 1. unfold Spec.fieldOf in He.
  destruct (nth_error (t.context e) 1) as [entry|]; simpl in *;
    [|contradiction].
  destruct (hasProperty (t.key entry) acc); simpl; now apply IH.
Qed.

(** With no name of [Object.prototype] among the fields, and the fields met
    in property order, the reduction is the projection. *)
Lemma reduce_projectStep_ok errors : forall acc,
  Forall (fun e => exists k, Spec.fieldOf e = Some k /\ isInherited k = false)
    errors ->
  propertyOrder (keys (acc ++ Spec.firstPerField errors (keys acc))) ->
  reduce projectStep errors acc
  = Normal (acc ++ Spec.firstPerField errors (keys acc)).
Proof.
  induction errors as [|e rest IH]; intros acc Hall Hord; simpl.
  - now rewrite app_nil_r.
  - inversion Hall as [|? ? (k & He & Hk) Hrest]; subst.
    simpl in Hord. rewrite He in *.
    unfold projectStep at 1. unfold Spec.fieldOf in He.
    destruct (nth_error (t.context e) 1) as [entry|]; simpl in He;
      [|discriminate].
    inversion He; subst. simpl.
    rewrite hasProperty_plain by exact Hk.
    rewrite has_existsb in *.
    destruct (has (t.key entry) acc) eqn:Hhas; simpl.
    + now apply IH.
    + assert (Hlast : set (t.key entry) (t.message e) acc
                      = acc ++ [(t.key entry, t.message e)]).
      { apply set_new; [exact Hhas|].
        unfold keys in Hord. rewrite map_app in Hord. simpl in Hord.
        eapply propertyOrder_app_last. exact Hord. }
      rewrite Hlast. rewrite IH.
      * unfold keys. rewrite map_app. simpl. now rewrite <- app_assoc.
      * exact Hrest.
      * unfold keys in *. rewrite !map_app in *. simpl in *.
        now rewrite <- app_assoc.
Qed.

(** What the reduction records under a name that [Object.prototype] does not
    define: what was there, or else the message of the first failure about
    the name.  This holds in whatever order the names come. *)
Lemma reduce_projectStep_lookup errors : forall acc fe k,
  reduce projectStep errors acc = Normal fe ->
  isInherited k = false ->
  lookup k fe
  = match lookup k acc with
    | Some x => Some x
    | None => option_map t.message (find (Spec.isAbout k) errors)
    end.
Proof.
  induction errors as [|e rest IH]; intros acc fe k Hred Hk.
  - simpl in *. inversion Hred; subst. now destruct (lookup k fe).
  - cbn [reduce bind] in Hred. cbn [find].
    unfold projectStep at 1 in Hred. unfold Spec.isAbout at 1, Spec.fieldOf.
    destruct (nth_error (t.context e) 1) as [entry|];
      cbn [option_map bind] in *; [|discriminate].
    destruct (hasProperty (t.key entry) acc) eqn:Hin; cbn [bind] in Hred.
    + rewrite (IH _ _ _ Hred Hk).
      destruct (lookup k acc) eqn:Hl; [reflexivity|].
      destruct (String.eqb_spec k (t.key entry)) as [Heq|Hne];
        [|reflexivity].
      subst k. rewrite hasProperty_plain in Hin by exact Hk.
      rewrite has_lookup, Hl in Hin. discriminate.
    + rewrite (IH _ _ _ Hred Hk).
      destruct (String.eqb_spec k (t.key entry)) as [Heq|Hne].
      * subst k. rewrite lookup_set_same.
        rewrite hasProperty_plain in Hin by exact Hk.
        rewrite has_lookup in Hin.
        now destruct (lookup (t.key entry) acc).
      * rewrite lookup_set_other by congruence. reflexivity.
Qed.

(** The reduction records nothing under a name that [Object.prototype]
    defines. *)
Lemma reduce_projectStep_inherited errors : forall acc fe k,
  reduce projectStep errors acc = Normal fe ->
  isInherited k = true ->
  lookup k fe = lookup k acc.
Proof.
  induction errors as [|e rest IH]; intros acc fe k Hred Hk; simpl in *.
  - now inversion Hred.
  - unfold projectStep at 1 in Hred.
    destruct (nth_error (t.context e) 1) as [entry|]; simpl in *;
      [|discriminate].
    destruct (hasProperty (t.key entry) acc) eqn:Hin; simpl in Hred.
    + now apply IH.
    + rewrite (IH _ _ _ Hred Hk). apply lookup_set_other.
      intros ->. unfold hasProperty in Hin. rewrite Hk in Hin.
      now rewrite orb_true_r in Hin.
Qed.

Lemma reduce_projectStep_NoDup errors : forall acc fe,
  reduce projectStep errors acc = Normal fe ->
  NoDup (keys acc) -> NoDup (keys fe).
Proof.
  induction errors as [|e rest IH]; intros acc fe Hred Hnd; simpl in *.
  - now inversion Hred; subst.
  - unfold projectStep at 1 in Hred.
    destruct (nth_error (t.context e) 1) as [entry|]; simpl in *;
      [|discriminate].
    destruct (hasProperty (t.key entry) acc); simpl in Hred.
    + now apply IH with acc.
    + apply IH with (set (t.key entry) (t.message e) acc); [exact Hred|].
      now apply keys_set_NoDup.
Qed.

Lemma errorsToFormErrors_ok errors :
  Forall (fun e => exists k, Spec.fieldOf e = Some k /\ isInherited k = false)
    errors ->
  propertyOrder (keys (Spec.firstPerField errors [])) ->
  errorsToFormErrors errors = Normal (Spec.firstPerField errors []).
Proof.
  intros Hall Hord. unfold errorsToFormErrors.
  now rewrite reduce_projectStep_ok.
Qed.

Lemma propertyOrder_filter (A : Type) (P : string * A -> bool) ps :
  propertyOrder (keys ps) -> propertyOrder (keys (filter P ps)).
Proof.
  unfold propertyOrder, keys.
  induction ps as [|p rest IH]; intros Hs; simpl; [constructor|].
  simpl in Hs. apply StronglySorted_inv in Hs. destruct Hs as [Hs Hall].
  destruct (P p); simpl; [|now apply IH].
  constructor; [now apply IH|].
  rewrite Forall_forall in *. intros k Hin. apply Hall.
  apply in_map_iff in Hin. destruct Hin as (q & Hq & Hin).
  apply filter_In in Hin. apply in_map_iff. exists q. tauto.
Qed.

Lemma reduce_projectStep_throw errors : forall acc,
  Exists (fun e => Spec.fieldOf e = None) errors ->
  reduce projectStep errors acc = Throw TypeError.
Proof.
  induction errors as [|e rest IH]; intros acc Hex; simpl.
  - inversion Hex.
  - unfold projectStep at 1. unfold Spec.fieldOf in *.
    destruct (nth_error (t.context e) 1) as [entry|] eqn:Hn; simpl;
      [|reflexivity].
    inversion Hex as [? ? He|? ? Hrest]; subst.
    + rewrite Hn in He. discriminate.
    + destruct (hasProperty (t.key entry) acc); simpl; now apply IH.
Qed.

Lemma firstPerField_lookup errors : forall seen k,
  lookup k (Spec.firstPerField errors seen)
  = if existsb (String.eqb k) seen then None
    else option_map t.message (find (Spec.isAbout k) errors).
Proof.
  induction errors as [|e rest IH]; intros seen k; simpl.
  - now destruct (existsb (String.eqb k) seen).
  - unfold Spec.isAbout at 1.
    destruct (Spec.fieldOf e) as [k'|]; [|apply IH].
    destruct (existsb (String.eqb k') seen) eqn:Hseen'.
    + rewrite IH. destruct (existsb (String.eqb k) seen) eqn:Hseen;
        [reflexivity|].
      destruct (String.eqb_spec k k') as [->|Hne]; [congruence | reflexivity].
    + simpl. destruct (String.eqb_spec k k') as [->|Hne].
      * now rewrite Hseen'.
      * rewrite IH, existsb_app. simpl.
        destruct (String.eqb_spec k k'); [contradiction|].
        now rewrite !orb_false_r.
Qed.

Lemma firstPerField_fresh errors : forall seen k,
  In k (keys (Spec.firstPerField errors seen)) ->
  existsb (String.eqb k) seen = false.
Proof.
  intros seen k Hin. apply <- has_In in Hin.
  rewrite has_lookup, firstPerField_lookup in Hin.
  destruct (existsb (String.eqb k) seen); [discriminate | reflexivity].
Qed.

Lemma firstPerField_NoDup errors : forall seen,
  NoDup (keys (Spec.firstPerField errors seen)).
Proof.
  induction errors as [|e rest IH]; intros seen; simpl; [constructor|].
  destruct (Spec.fieldOf e) as [k|]; [|apply IH].
  destruct (existsb (String.eqb k) seen); [apply IH|].
  simpl. constructor; [|apply IH].
  intros Hin. apply firstPerField_fresh in Hin.
  rewrite existsb_app in Hin. simpl in Hin.
  rewrite String.eqb_refl, orb_true_r in Hin. discriminate.
Qed.

(** Failures that are all about a field already seen add nothing. *)
Lemma firstPerField_skip k block : forall rest seen,
  Forall (fun e => Spec.fieldOf e = Some k) block ->
  existsb (String.eqb k) seen = true ->
  Spec.firstPerField (block ++ rest) seen = Spec.firstPerField rest seen.
Proof.
  induction block as [|e es IH]; intros rest seen Hall Hseen; simpl;
    [reflexivity|].
  inversion Hall as [|? ? He Hes]; subst.
  rewrite He, Hseen. now apply IH.
Qed.

Lemma firstPerField_block k e es rest seen :
  Forall (fun e => Spec.fieldOf e = Some k) (e :: es) ->
  existsb (String.eqb k) seen = false ->
  Spec.firstPerField ((e :: es) ++ rest) seen
  = (k, t.message e) :: Spec.firstPerField rest (seen ++ [k]).
Proof.
  intros Hall Hseen. inversion Hall as [|? ? He Hes]; subst.
  simpl. rewrite He, Hseen. f_equal.
  apply firstPerField_skip with (k := k); [exact Hes|].
  rewrite existsb_app. simpl. now rewrite String.eqb_refl, orb_true_r.
Qed.

(** ** Codecs that report below their context *)

Lemma reportsBelow_string : Spec.reportsBelow t.string.
Proof.
  intros u c errs H. cbn in H.
  destruct u; inversion H; subst; (split; [discriminate|]);
    repeat constructor; exists []; cbn; now rewrite app_nil_r.
Qed.

Lemma reportsBelow_boolean : Spec.reportsBelow t.boolean.
Proof.
  intros u c errs H. cbn in H.
  destruct u; inversion H; subst; (split; [discriminate|]);
    repeat constructor; exists []; cbn; now rewrite app_nil_r.
Qed.

Lemma reportsBelow_refinement a codec predicate nm :
  Spec.reportsBelow codec ->
  Spec.reportsBelow (t.refinement a codec predicate nm).
Proof.
  intros Hc u c errs H. cbn in H.
  destruct (t.validate codec u c) as [e|x] eqn:Hv.
  - inversion H; subst. now apply (Hc u c).
  - destruct (predicate x); inversion H; subst.
    split; [discriminate|].
    repeat constructor. exists []. cbn. now rewrite app_nil_r.
Qed.

Lemma reportsBelow_withMessage a codec message :
  Spec.reportsBelow (withMessage a codec message).
Proof.
  intros u c errs H. cbn in H.
  destruct (t.validate codec u c); cbn in H; inversion H; subst.
  split; [discriminate|].
  repeat constructor. exists []. cbn. now rewrite app_nil_r.
Qed.

Lemma memberFailures_below codecs : forall i u c,
  Forall Spec.reportsBelow codecs ->
  Forall (fun e => exists rest, t.context e = c ++ rest)
    (Spec.memberFailures codecs i u c).
Proof.
  induction codecs as [|codec rest IH]; intros i u c Hall; simpl;
    [constructor|].
  inversion Hall as [|? ? Hc Hrest]; subst.
  destruct (t.validate codec u (Spec.memberContext c i u)) as [e|v] eqn:Hv;
    [|now apply IH].
  apply Forall_app. split; [|now apply IH].
  destruct (Hc _ _ _ Hv) as [_ Hbelow].
  eapply Forall_impl; [|exact Hbelow].
  intros x [tail Hx]. unfold Spec.memberContext, t.appendContext in Hx.
  rewrite <- app_assoc in Hx. eauto.
Qed.

Lemma reportsBelow_intersection a codecs :
  Forall Spec.reportsBelow codecs ->
  Spec.reportsBelow (t.intersection a codecs).
Proof.
  intros Hall u c errs H. rewrite intersection_validate in H.
  destruct (Spec.memberFailures codecs 0 u c) as [|e es] eqn:Hf;
    [discriminate|].
  inversion H; subst. split; [discriminate|].
  rewrite <- Hf. now apply memberFailures_below.
Qed.

(** Walks down a codec of the repository, combinator by combinator. *)
Ltac reports_below :=
  repeat first
    [ apply Forall_nil
    | apply Forall_cons
    | apply reportsBelow_withMessage
    | apply reportsBelow_intersection
    | apply reportsBelow_refinement
    | apply reportsBelow_string
    | apply reportsBelow_boolean ].

Lemma SignUpForm_reportsBelow isEmail isMobilePhone :
  Forall (fun p => Spec.reportsBelow (snd p))
    (t.props (SignUpForm isEmail isMobilePhone)).
Proof.
  cbn [t.props SignUpForm].
  repeat apply Forall_cons; try apply Forall_nil; cbn [snd];
    unfold String64, Email, Password, Phone, String512, NonEmptyTrimmedString;
    reports_below.
Qed.

(** ** Object codecs *)

Lemma type_loop_failures ps : forall c (o a : object) errors,
  NoDup (keys ps) ->
  (forall k, In k (keys ps) -> get k a = get k o) ->
  snd (t.type_loop ps c a errors) = errors ++ Spec.fieldFailures ps o c.
Proof.
  induction ps as [|[k type_k] rest IH]; intros c o a errors Hnd Hsame; simpl.
  - now rewrite app_nil_r.
  - inversion Hnd as [|? ? Hk Hrest]; subst.
    unfold Spec.fieldContext. rewrite (Hsame k) by now left.
    assert (Hrest_same : forall k', In k' (keys rest) -> get k' a = get k' o)
      by (intros k' Hin; apply Hsame; now right).
    destruct (t.validate type_k (get k o) (t.appendContext c k (get k o)))
      as [e|vak].
    + rewrite (IH c o) by assumption. now rewrite app_assoc.
    + destruct (negb (strict_eq vak (get k o))
                || strict_eq vak VUndefined && negb (has k a)).
      * apply IH; [assumption|].
        intros k' Hin. rewrite get_set_other; [now apply Hrest_same|].
        intros ->. contradiction.
      * now apply IH.
Qed.

Lemma type_validate_failures (codec : t.TypeC) (o : object) c errs :
  NoDup (keys (t.props codec)) ->
  t.validate codec (VObj o) c = E.Left errs ->
  errs = Spec.fieldFailures (t.props codec) o c.
Proof.
  intros Hnd H. cbn in H.
  pose proof (@type_loop_failures (t.props codec) c o o [] Hnd
                (fun _ _ => eq_refl)) as Hloop.
  destruct (t.type_loop (t.props codec) c o []) as [a errors].
  simpl in Hloop. subst errors.
  destruct (Spec.fieldFailures (t.props codec) o c); [discriminate|].
  now inversion H.
Qed.

Lemma type_validate_non_record (codec : t.TypeC) u c :
  t.isRecord u = false ->
  t.validate codec u c
  = E.Left [ {| t.value := u; t.context := c; t.message := None |} ].
Proof. intros H. cbn. rewrite H. reflexivity. Qed.

Lemma fieldFailures_about ps : forall (o : object) r seen,
  NoDup (keys ps) ->
  Forall (fun p => Spec.reportsBelow (snd p)) ps ->
  (forall k, In k (keys ps) -> existsb (String.eqb k) seen = false) ->
  Forall (fun e => Spec.fieldOf e <> None) (Spec.fieldFailures ps o [r])
  /\ keys (Spec.firstPerField (Spec.fieldFailures ps o [r]) seen)
     = Spec.rejectedFields ps o [r].
Proof.
  induction ps as [|[k type_k] rest IH]; intros o r seen Hnd Hall Hseen.
  - split; [constructor | reflexivity].
  - inversion Hnd as [|? ? Hk Hrest]; subst.
    inversion Hall as [|? ? Hck Hcrest]; subst. simpl in Hck.
    unfold Spec.rejectedFields. cbn [Spec.fieldFailures filter fst snd].
    destruct (t.validate type_k (get k o) (Spec.fieldContext [r] k o))
      as [e|v] eqn:Hv; cbn [E.isLeft].
    + destruct (Hck _ _ _ Hv) as [Hne Hbelow].
      assert (Habout : Forall (fun x => Spec.fieldOf x = Some k) e).
      { eapply Forall_impl; [|exact Hbelow].
        intros x [tail Hx]. unfold Spec.fieldOf. rewrite Hx. reflexivity. }
      destruct (IH o r (seen ++ [k]) Hrest Hcrest) as [IHok IHkeys].
      { intros k' Hin. rewrite existsb_app. simpl.
        rewrite Hseen by now right.
        destruct (String.eqb_spec k' k) as [->|]; [contradiction|reflexivity]. }
      split.
      * apply Forall_app. split; [|exact IHok].
        eapply Forall_impl; [|exact Habout]. intros x Hx. congruence.
      * destruct e as [|e0 es]; [contradiction|].
        rewrite firstPerField_block with (k := k);
          [|exact Habout|apply Hseen; now left].
        unfold keys in *. cbn [map fst]. f_equal. exact IHkeys.
    + apply IH; try assumption. intros k' Hin. apply Hseen. now right.
Qed.

(** Every failure of an object codec is filed under one of its properties. *)
Lemma fieldFailures_fields ps : forall (o : object) r,
  Forall (fun p => Spec.reportsBelow (snd p)) ps ->
  Forall (fun e => exists k, In k (keys ps) /\ Spec.fieldOf e = Some k)
    (Spec.fieldFailures ps o [r]).
Proof.
  induction ps as [|[k ty] rest IH]; intros o r Hall; [constructor|].
  inversion Hall as [|? ? Hk Hrest]; subst. cbn [snd] in Hk.
  cbn [Spec.fieldFailures].
  assert (Htail : Forall
            (fun e => exists k', In k' (keys ((k, ty) :: rest))
                                 /\ Spec.fieldOf e = Some k')
            (Spec.fieldFailures rest o [r])).
  { eapply Forall_impl; [|apply IH; exact Hrest].
    intros e (k' & Hin & He). exists k'. split; [now right | exact He]. }
  destruct (t.validate ty (get k o) (Spec.fieldContext [r] k o)) as [e|v] eqn:Hv;
    [|exact Htail].
  apply Forall_app. split; [|exact Htail].
  destruct (Hk _ _ _ Hv) as [_ Hbelow].
  eapply Forall_impl; [|exact Hbelow].
  intros x [tail Hx]. exists k. split; [now left|].
  unfold Spec.fieldOf. rewrite Hx. reflexivity.
Qed.

(** ** The hook *)

Lemma focusFirstInvalidField_frame fe f f' :
  focusFirstInvalidField fe f = Normal f' ->
  codec f' = codec f /\ initialStateRef f' = initialStateRef f
  /\ state f' = state f /\ refsRef f' = refsRef f
  /\ formErrors f' = formErrors f.
Proof.
  unfold focusFirstInvalidField.
  destruct (sort byDocumentPosition _) as [sorted|]; simpl; [|discriminate].
  destruct sorted as [|[r|] rest]; try discriminate.
  destruct (canFocus (current r)); intros H; inversion H; subst; cbn; auto.
Qed.

(** The outcome of the focus request depends on the refs alone. *)
Lemma focusFirstInvalidField_refs fe f g :
  refsRef f = refsRef g ->
  match focusFirstInvalidField fe f, focusFirstInvalidField fe g with
  | Normal _, Normal _ => True
  | Throw e, Throw e' => e = e'
  | _, _ => False
  end.
Proof.
  intros Hrefs. unfold focusFirstInvalidField. rewrite Hrefs.
  destruct (sort byDocumentPosition _) as [sorted|e]; simpl; [|reflexivity].
  destruct sorted as [|[r|] rest]; try reflexivity.
  destruct (canFocus (current r)); exact I.
Qed.

Lemma validate_rejecting f errs fe :
  t.decode (codec f) (VObj (state f)) = E.Left errs ->
  errorsToFormErrors errs = Normal fe ->
  formErrors (fst (validate f)) = fe
  /\ state (fst (validate f)) = state f
  /\ codec (fst (validate f)) = codec f
  /\ initialStateRef (fst (validate f)) = initialStateRef f
  /\ refsRef (fst (validate f)) = refsRef f
  /\ (snd (validate f) = Normal (E.Left errs)
      \/ snd (validate f) = Throw TypeError).
Proof.
  intros Hdec Hproj. unfold validate. rewrite Hdec. cbn [E.fold].
  unfold onFail. rewrite Hproj.
  destruct (focusFirstInvalidField fe (setFormErrors fe f)) as [f2|e] eqn:Hf.
  - apply focusFirstInvalidField_frame in Hf. cbn in *.
    destruct Hf as (? & ? & ? & ? & ?). repeat split; auto.
  - cbn. destruct e. repeat split; auto.
Qed.

Lemma validate_accepting f v :
  t.decode (codec f) (VObj (state f)) = E.Right v ->
  validate f = (setFormErrors [] f, Normal (E.Right v)).
Proof. intros Hdec. unfold validate. now rewrite Hdec. Qed.

Lemma validate_frame f :
  codec (fst (validate f)) = codec f
  /\ initialStateRef (fst (validate f)) = initialStateRef f
  /\ state (fst (validate f)) = state f
  /\ refsRef (fst (validate f)) = refsRef f.
Proof.
  destruct (t.decode (codec f) (VObj (state f))) as [errs|v] eqn:Hdec.
  - destruct (errorsToFormErrors errs) as [fe|e] eqn:Hproj.
    + destruct (validate_rejecting f Hdec Hproj) as (_ & ? & ? & ? & ? & _).
      auto.
    + unfold validate, onFail. rewrite Hdec. cbn [E.fold]. rewrite Hproj.
      cbn. auto.
  - rewrite (validate_accepting f Hdec). cbn. auto.
Qed.

Lemma run_frame events : forall f,
  codec (run events f) = codec f
  /\ initialStateRef (run events f) = initialStateRef f.
Proof.
  unfold run.
  induction events as [|ev rest IH]; intros f; simpl; [auto|].
  destruct (IH (step f ev)) as [-> ->].
  destruct ev; cbn; auto.
  destruct (validate_frame f) as (? & ? & _). auto.
Qed.

(** ** Properties of the hook *)

(** C2: for an object codec whose field names are not names that
    [Object.prototype] defines: when the decode of the whole value fails, the
    [FormErrors] that [validate] stores is the projection of the failures:
    each failure is filed under its first path segment below the root, and
    only the first failure met for a field name is kept.  So no field name
    occurs twice, the entry of a field is the message of its first failure
    (nothing when that failure carries no message), and the keys are exactly
    the fields whose member rejects, however many failures each produced. *)
Theorem validate_keeps_first_failure_per_field (f : Form) (errs : t.Errors) :
  NoDup (keys (t.props (codec f))) ->
  propertyOrder (keys (t.props (codec f))) ->
  Forall (fun k => isInherited k = false) (keys (t.props (codec f))) ->
  Forall (fun p => Spec.reportsBelow (snd p)) (t.props (codec f)) ->
  t.decode (codec f) (VObj (state f)) = E.Left errs ->
  errorsToFormErrors errs = Normal (formErrors (fst (validate f)))
  /\ formErrors (fst (validate f)) = Spec.firstPerField errs []
  /\ NoDup (keys (formErrors (fst (validate f))))
  /\ (forall k,
        lookup k (formErrors (fst (validate f)))
        = option_map t.message (find (Spec.isAbout k) errs))
  /\ keys (formErrors (fst (validate f)))
     = Spec.rejectedFields (t.props (codec f)) (state f)
         (Spec.root (VObj (state f))).
Proof.
  intros Hnd Hord Hplain Hbelow Hdec.
  pose proof (@type_validate_failures (codec f) (state f) _ errs Hnd Hdec)
    as Herrs.
  destruct (@fieldFailures_about (t.props (codec f)) (state f)
              {| t.key := ""; t.actual := VObj (state f) |} [] Hnd Hbelow
              (fun _ _ => eq_refl)) as [_ Hkeys].
  pose proof (@fieldFailures_fields (t.props (codec f)) (state f)
                {| t.key := ""; t.actual := VObj (state f) |} Hbelow)
    as Hfields.
  unfold t.decode in Hdec. rewrite <- Herrs in Hfields, Hkeys.
  assert (Hproj : errorsToFormErrors errs = Normal (Spec.firstPerField errs [])).
  { apply errorsToFormErrors_ok.
    - eapply Forall_impl; [|exact Hfields].
      intros e (k & Hin & He). exists k. split; [exact He|].
      rewrite Forall_forall in Hplain. now apply Hplain.
    - rewrite Hkeys. unfold Spec.rejectedFields.
      now apply propertyOrder_filter. }
  destruct (validate_rejecting f Hdec Hproj) as (Hfe & _).
  rewrite Hfe. unfold Spec.root. split; [exact Hproj|]. split; [reflexivity|].
  split; [apply firstPerField_NoDup|]. split; [|exact Hkeys].
  intros k. now rewrite firstPerField_lookup.
Qed.

(** C4: when the decode of the current value succeeds, [validate] empties the
    stored [FormErrors], whatever an earlier validation left there, and
    returns the decoded value. *)
Theorem validate_success_clears_formErrors (f : Form) (v : jsval) :
  t.decode (codec f) (VObj (state f)) = E.Right v ->
  formErrors (fst (validate f)) = []
  /\ snd (validate f) = Normal (E.Right v)
  /\ state (fst (validate f)) = state f.
Proof.
  intros Hdec. rewrite (validate_accepting f Hdec). cbn. auto.
Qed.

(** C5: after any sequence of events, [reset] puts the initial value handed
    to [useForm] back as the current value and leaves [formErrors] (and the
    refs) as they were; a [validate] that follows decodes that initial
    value. *)
Theorem reset_restores_initial_value
  (c : t.TypeC) (initialValue : object) (events : list event) :
  state (reset (run events (useForm c initialValue))) = initialValue
  /\ formErrors (reset (run events (useForm c initialValue)))
     = formErrors (run events (useForm c initialValue))
  /\ refsRef (reset (run events (useForm c initialValue)))
     = refsRef (run events (useForm c initialValue))
  /\ (forall r,
        snd (validate (reset (run events (useForm c initialValue)))) = Normal r ->
        r = t.decode c (VObj initialValue))
  /\ (forall v,
        t.decode c (VObj initialValue) = E.Right v ->
        validate (reset (run events (useForm c initialValue)))
        = (setFormErrors [] (reset (run events (useForm c initialValue))),
           Normal (E.Right v)))
  /\ (forall errs fe,
        t.decode c (VObj initialValue) = E.Left errs ->
        errorsToFormErrors errs = Normal fe ->
        formErrors (fst (validate (reset (run events (useForm c initialValue)))))
        = fe).
Proof.
  set (f := run events (useForm c initialValue)).
  destruct (run_frame events (useForm c initialValue)) as [Hcodec Hinit].
  fold f in Hcodec, Hinit. cbn in Hcodec, Hinit.
  assert (Hstate : state (reset f) = initialValue) by (cbn; exact Hinit).
  assert (Hc : codec (reset f) = c) by (cbn; exact Hcodec).
  split; [exact Hstate|]. split; [reflexivity|]. split; [reflexivity|].
  split; [|split].
  - intros r Hr. unfold validate in Hr. rewrite Hc, Hstate in Hr.
    destruct (E.fold _ _ _) as [f' done]. cbn in Hr.
    destruct done; cbn in Hr; [now inversion Hr | discriminate].
  - intros v Hdec. apply validate_accepting. now rewrite Hc, Hstate.
  - intros errs fe Hdec Hproj.
    apply (validate_rejecting (reset f)) with (errs := errs);
      [now rewrite Hc, Hstate | exact Hproj].
Qed.

(** C7: a second [validate] right after a first one, with no edit or reset
    in between, stores the same [FormErrors] and completes the same way, with
    the same decode result. *)
Theorem validate_twice_same (f : Form) :
  formErrors (fst (validate (fst (validate f)))) = formErrors (fst (validate f))
  /\ snd (validate (fst (validate f))) = snd (validate f).
Proof.
  destruct (validate_frame f) as (Hc & _ & Hs & Hr).
  set (f1 := fst (validate f)) in *.
  destruct (t.decode (codec f) (VObj (state f))) as [errs|v] eqn:Hdec.
  - assert (Hdec1 : t.decode (codec f1) (VObj (state f1)) = E.Left errs)
      by now rewrite Hc, Hs.
    destruct (errorsToFormErrors errs) as [fe|e] eqn:Hproj.
    + destruct (validate_rejecting f Hdec Hproj) as (Hfe & _).
      destruct (validate_rejecting f1 Hdec1 Hproj) as (Hfe1 & _).
      fold f1 in Hfe. split; [congruence|].
      unfold validate, onFail. rewrite Hdec, Hdec1. cbn [E.fold].
      rewrite Hproj.
      assert (Hrefs : refsRef (setFormErrors fe f1) = refsRef (setFormErrors fe f))
        by (cbn; exact Hr).
      pose proof (focusFirstInvalidField_refs fe _ _ Hrefs) as Hsame.
      destruct (focusFirstInvalidField fe (setFormErrors fe f1));
        destruct (focusFirstInvalidField fe (setFormErrors fe f));
        cbn; try contradiction; congruence.
    + assert (Hf1 : f1 = f).
      { unfold f1, validate, onFail. rewrite Hdec. cbn [E.fold].
        now rewrite Hproj. }
      rewrite Hf1. split; [|reflexivity].
      change (fst (validate f)) with f1. now rewrite Hf1.
  - assert (Hdec1 : t.decode (codec f1) (VObj (state f1)) = E.Right v)
      by now rewrite Hc, Hs.
    rewrite (validate_accepting f1 Hdec1). unfold f1.
    rewrite (validate_accepting f Hdec). cbn. auto.
Qed.

(** C10: [errorsToFormErrors] returns a mapping exactly when every failure
    has a context of at least two entries; a failure with a shorter context
    makes the read of [error.context[1].key] raise.  Such a failure is what
    an object codec reports when the value it decodes is not an object. *)
Theorem errorsToFormErrors_needs_two_context_entries (errors : t.Errors) :
  ((exists fe, errorsToFormErrors errors = Normal fe)
   <-> Forall (fun e => 2 <= length (t.context e)) errors)
  /\ (Exists (fun e => length (t.context e) < 2) errors ->
      errorsToFormErrors errors = Throw TypeError)
  /\ (forall (codec : t.TypeC) (u : jsval),
        t.isRecord u = false ->
        exists errs,
          t.decode codec u = E.Left errs
          /\ errorsToFormErrors errs = Throw TypeError).
Proof.
  assert (Hthrow : forall errs,
    Exists (fun e => length (t.context e) < 2) errs ->
    errorsToFormErrors errs = Throw TypeError).
  { intros errs Hex. apply reduce_projectStep_throw.
    eapply Exists_impl; [|exact Hex]. intros e He. now apply fieldOf_None. }
  split; [|split].
  - split.
    + intros [fe Hfe]. apply Forall_forall. intros e Hin.
      destruct (le_lt_dec 2 (length (t.context e))) as [Hle|Hlt];
        [exact Hle|].
      rewrite Hthrow in Hfe; [discriminate|].
      apply Exists_exists. exists e. split; assumption.
    + intros Hall. apply reduce_projectStep_total.
      eapply Forall_impl; [|exact Hall].
      intros e He Hnone. apply fieldOf_None in Hnone. cbn beta in He. lia.
  - exact (Hthrow errors).
  - intros codec u Hu. eexists. split.
    + unfold t.decode. now apply type_validate_non_record.
    + apply Hthrow. constructor. cbn. lia.
Qed.

(** ** Sorting *)

Section SortFacts.
Variable A : Type.
Variable compare : A -> A -> completion Z.

Lemma extendRun_In d : forall rest previous acc run pending,
  extendRun compare d previous acc rest = Normal (run, pending) ->
  forall y, In y run \/ In y pending <-> In y acc \/ In y rest.
Proof.
  induction rest as [|cur rest IH]; intros previous acc run pending H y;
    simpl in H.
  - inversion H; subst. tauto.
  - destruct (compare cur previous) as [z|]; [|discriminate].
    cbn [bind] in H.
    destruct (if d then (0 <=? z)%Z else (z <? 0)%Z).
    + inversion H; subst. tauto.
    + rewrite (IH _ _ _ _ H y). simpl. tauto.
Qed.

Lemma countAndMakeRun_In xs run pending :
  countAndMakeRun compare xs = Normal (run, pending) ->
  forall y, In y run \/ In y pending <-> In y xs.
Proof.
  destruct xs as [|hi [|lo rest]]; simpl; intros H y.
  - inversion H; subst. simpl. tauto.
  - inversion H; subst. simpl. tauto.
  - destruct (compare lo hi) as [z|]; [|discriminate]. cbn [bind] in H.
    destruct (extendRun compare (z <? 0)%Z lo [lo; hi] rest)
      as [[r p]|] eqn:He; [|discriminate].
    cbn in H. inversion H; subst.
    pose proof (extendRun_In _ _ _ _ He y) as Hin. simpl in Hin.
    destruct (z <? 0)%Z; [|rewrite <- in_rev]; tauto.
Qed.

Lemma insertAt_In (pivot : A) run left y :
  In y (insertAt pivot run left) <-> y = pivot \/ In y run.
Proof.
  unfold insertAt. rewrite <- (firstn_skipn left run) at 3.
  rewrite !in_app_iff. simpl. split.
  - intros [H|[H|H]]; [right; now left | left; now symmetry | right; now right].
  - intros [H|[H|H]]; [right; left; now symmetry | now left | right; now right].
Qed.

Lemma binaryInsertionSort_In pending : forall run r,
  binaryInsertionSort compare run pending = Normal r ->
  forall y, In y r <-> In y run \/ In y pending.
Proof.
  induction pending as [|pivot rest IH]; intros run r H y; simpl in H.
  - inversion H; subst. simpl. tauto.
  - destruct (binarySearch compare (length run) pivot run 0 (length run))
      as [left|]; [|discriminate].
    cbn [bind] in H. rewrite (IH _ _ H y), insertAt_In. simpl. intuition.
Qed.

(** The bisection does not depend on its bound, once that is large
    enough: [length run] is. *)
Lemma binarySearch_steps (pivot : A) run : forall steps steps' left right,
  right - left <= steps -> right - left <= steps' ->
  binarySearch compare steps pivot run left right
  = binarySearch compare steps' pivot run left right.
Proof.
  induction steps as [|steps IH]; intros steps' left right Hs Hs'.
  - assert (Hlr : (left <? right) = false) by (apply Nat.ltb_ge; lia).
    destruct steps'; cbn [binarySearch]; now rewrite Hlr.
  - destruct steps' as [|steps']; cbn [binarySearch].
    + assert (Hlr : (left <? right) = false) by (apply Nat.ltb_ge; lia).
      now rewrite Hlr.
    + destruct (left <? right) eqn:Hlt; [|reflexivity].
      apply Nat.ltb_lt in Hlt.
      assert (Hhalf : Nat.div2 (right - left) < right - left)
        by (apply Nat.lt_div2; lia).
      revert Hhalf. generalize (Nat.div2 (right - left)). intros half Hhalf.
      destruct (compare pivot (nth (left + half) run pivot)) as [z|];
        [|reflexivity].
      cbn [bind]. destruct (z <? 0)%Z; apply IH; lia.
Qed.

(** Sorting keeps the entries. *)
Lemma sortDefined_In xs r :
  sortDefined compare xs = Normal r -> forall y, In y r <-> In y xs.
Proof.
  destruct xs as [|x [|x' rest]]; intros H y.
  - inversion H. tauto.
  - inversion H. tauto.
  - unfold sortDefined in H.
    destruct (countAndMakeRun compare (x :: x' :: rest))
      as [[run pending]|] eqn:Hc; [|discriminate].
    cbn [bind fst snd] in H.
    rewrite (binaryInsertionSort_In _ _ H y).
    exact (countAndMakeRun_In _ Hc y).
Qed.

Lemma defined_In (xs : list (option A)) y :
  In y (defined xs) <-> In (Some y) xs.
Proof.
  unfold defined. rewrite in_flat_map. split.
  - intros ([v|] & Hin & Hy); [|destruct Hy].
    destruct Hy as [<-|[]]. exact Hin.
  - intros Hin. exists (Some y). split; [exact Hin | now left].
Qed.
End SortFacts.

Lemma sorted_defined (A : Type) (s : list A) (xs : list (option A)) r :
  In (Some r) (map Some s ++ undefineds xs) -> In r s.
Proof.
  intros Hin. apply in_app_or in Hin. destruct Hin as [Hin|Hin].
  - apply in_map_iff in Hin. destruct Hin as (y & Hy & Hin). congruence.
  - unfold undefineds in Hin. apply filter_In in Hin.
    destruct Hin as [_ Hin]. discriminate.
Qed.

(** ** Focusing the first invalid field *)

(** On elements the comparator completes, and is negative exactly when its
    first argument comes first in the document. *)
Lemma byDocumentPosition_order x y :
  isElement x -> isElement y ->
  exists z, byDocumentPosition x y = Normal z
            /\ (z <? 0)%Z = (Report.position x <? Report.position y).
Proof.
  intros [p Hx] [q Hy]. unfold byDocumentPosition, Report.position.
  rewrite Hx, Hy. cbn [isDOMElement bind negb].
  unfold compareDocumentPosition.
  destruct (p <? q) eqn:Hpq.
  - eexists. split; reflexivity.
  - destruct (q <? p) eqn:Hqp; eexists; split; reflexivity.
Qed.

Lemma leastFirst_snoc l p x :
  Report.leastFirst l -> In p l ->
  Report.position p <= Report.position x ->
  Report.leastFirst (l ++ [x]).
Proof.
  destruct l as [|h rest]; intros Hl Hp Hx; [destruct Hp|].
  cbn [app Report.leastFirst] in *. intros y Hy.
  change (In y ((h :: rest) ++ [x])) in Hy.
  apply in_app_or in Hy. destruct Hy as [Hy|[<-|[]]].
  - now apply Hl.
  - specialize (Hl p Hp). lia.
Qed.

Lemma extendRun_elements (d : bool) : forall rest previous tail,
  isElement previous -> Forall isElement rest ->
  (if d return Prop
   then forall y, In y tail -> Report.position previous <= Report.position y
   else Report.leastFirst (rev (previous :: tail))) ->
  exists run pending,
    extendRun byDocumentPosition d previous (previous :: tail) rest
    = Normal (run, pending)
    /\ Report.leastFirst (if d then run else rev run).
Proof.
  induction rest as [|cur rest IH]; intros previous tail Hp Hrest Hinv.
  - exists (previous :: tail), []. split; [reflexivity|].
    destruct d; [|exact Hinv].
    intros y [<-|Hy]; [lia | now apply Hinv].
  - inversion Hrest as [|? ? Hcur Hrest']; subst.
    destruct (byDocumentPosition_order Hcur Hp) as (z & Hz & Hord).
    cbn [extendRun]. rewrite Hz. cbn [bind].
    rewrite Z.leb_antisym, Hord.
    destruct (Report.position cur <? Report.position previous) eqn:Hcmp.
    + apply Nat.ltb_lt in Hcmp. destruct d; cbn [negb].
      * apply IH; [exact Hcur | exact Hrest'|].
        intros y [<-|Hy]; [lia|]. specialize (Hinv y Hy). lia.
      * exists (previous :: tail), (cur :: rest). split; [reflexivity|].
        exact Hinv.
    + apply Nat.ltb_ge in Hcmp. destruct d; cbn [negb].
      * exists (previous :: tail), (cur :: rest). split; [reflexivity|].
        intros y [<-|Hy]; [lia | now apply Hinv].
      * apply IH; [exact Hcur | exact Hrest'|].
        change (rev (cur :: previous :: tail))
          with (rev (previous :: tail) ++ [cur]).
        apply leastFirst_snoc with previous; [exact Hinv| |exact Hcmp].
        apply -> in_rev. now left.
Qed.

Lemma countAndMakeRun_elements xs :
  Forall isElement xs ->
  exists run pending,
    countAndMakeRun byDocumentPosition xs = Normal (run, pending)
    /\ Report.leastFirst run.
Proof.
  intros Hall. destruct xs as [|hi [|lo rest]].
  - exists [], []. split; [reflexivity | exact I].
  - exists [hi], []. split; [reflexivity|]. intros y [<-|[]]. lia.
  - inversion Hall as [|? ? Hhi Hall']; subst.
    inversion Hall' as [|? ? Hlo Hrest]; subst.
    destruct (byDocumentPosition_order Hlo Hhi) as (z & Hz & Hord).
    cbn [countAndMakeRun]. rewrite Hz. cbn [bind]. rewrite Hord.
    destruct (@extendRun_elements
                (Report.position lo <? Report.position hi) rest lo [hi]
                Hlo Hrest) as (run & pending & -> & Hleast).
    { destruct (Report.position lo <? Report.position hi) eqn:Hcmp.
      - apply Nat.ltb_lt in Hcmp. intros y [<-|[]]. lia.
      - apply Nat.ltb_ge in Hcmp. cbn.
        intros y [<-|[<-|[]]]; [lia | exact Hcmp]. }
    cbn [bind fst snd].
    destruct (Report.position lo <? Report.position hi); eauto.
Qed.

Lemma binarySearch_elements pivot run : forall steps left right,
  isElement pivot -> Forall isElement run ->
  left <= right -> right <= length run -> right - left <= steps ->
  exists res,
    binarySearch byDocumentPosition steps pivot run left right = Normal res
    /\ left <= res <= right
    /\ (res = left -> left < right ->
        Report.position pivot < Report.position (nth left run pivot))
    /\ (left < res ->
        exists m, m < right
          /\ Report.position (nth m run pivot) <= Report.position pivot).
Proof.
  intros steps. induction steps as [|steps IH];
    intros left right Hp Hrun Hlr Hrn Hsteps.
  - exists left. cbn [binarySearch]. assert (left = right) by lia. subst.
    rewrite Nat.ltb_irrefl. repeat split; try lia.
  - cbn [binarySearch]. destruct (left <? right) eqn:Hlt.
    + apply Nat.ltb_lt in Hlt.
      assert (Hhalf : Nat.div2 (right - left) < right - left)
        by (apply Nat.lt_div2; lia).
      revert Hhalf. generalize (Nat.div2 (right - left)). intros half Hhalf.
      remember (left + half) as mid eqn:Hmid.
      assert (Hel : isElement (nth mid run pivot)).
      { rewrite Forall_forall in Hrun. apply Hrun. apply nth_In. lia. }
      destruct (byDocumentPosition_order Hp Hel) as (z & Hz & Hord).
      rewrite Hz. cbn [bind]. rewrite Hord.
      destruct (Report.position pivot <? Report.position (nth mid run pivot))
        eqn:Hcmp.
      * apply Nat.ltb_lt in Hcmp.
        destruct (IH left mid Hp Hrun ltac:(lia) ltac:(lia) ltac:(lia))
          as (res & Hres & Hb & H3 & H4).
        exists res. split; [exact Hres|]. split; [lia|]. split.
        -- intros Heq _. destruct (Nat.eq_dec left mid) as [E|E].
           ++ rewrite E. exact Hcmp.
           ++ apply H3; lia.
        -- intros Hl. destruct (H4 Hl) as (m & Hm & Hle).
           exists m. split; [lia | exact Hle].
      * apply Nat.ltb_ge in Hcmp.
        destruct (IH (S mid) right Hp Hrun ltac:(lia) ltac:(lia) ltac:(lia))
          as (res & Hres & Hb & _ & _).
        exists res. split; [exact Hres|]. split; [lia|]. split.
        -- intros Heq. lia.
        -- intros _. exists mid. split; [lia | exact Hcmp].
    + exists left. apply Nat.ltb_ge in Hlt. repeat split; try lia.
Qed.

Lemma insertAt_leastFirst pivot run res :
  Report.leastFirst run ->
  (res = 0 -> 0 < length run ->
   Report.position pivot < Report.position (nth 0 run pivot)) ->
  (0 < res ->
   exists m, m < length run
     /\ Report.position (nth m run pivot) <= Report.position pivot) ->
  Report.leastFirst (insertAt pivot run res).
Proof.
  intros Hleast Hzero Hpos. destruct run as [|h rest].
  - unfold insertAt. rewrite firstn_nil, skipn_nil. intros y [<-|[]]. lia.
  - destruct res as [|n].
    + unfold insertAt. cbn [firstn skipn app].
      assert (Hlt : Report.position pivot < Report.position h)
        by (apply Hzero; [reflexivity | cbn; lia]).
      intros y [<-|Hy]; [lia|]. specialize (Hleast y Hy). lia.
    + assert (Hhead : insertAt pivot (h :: rest) (S n)
                      = h :: (firstn n rest ++ pivot :: skipn n rest))
        by reflexivity.
      cbn [Report.leastFirst] in Hleast.
      rewrite Hhead. cbn [Report.leastFirst]. rewrite <- Hhead.
      intros y Hy. apply insertAt_In in Hy. destruct Hy as [->|Hy].
      * destruct Hpos as (m & Hm & Hle); [lia|].
        assert (Hin : In (nth m (h :: rest) pivot) (h :: rest))
          by now apply nth_In.
        specialize (Hleast _ Hin). lia.
      * now apply Hleast.
Qed.

Lemma binaryInsertionSort_elements pending : forall run,
  Forall isElement run -> Forall isElement pending ->
  Report.leastFirst run ->
  exists r,
    binaryInsertionSort byDocumentPosition run pending = Normal r
    /\ Report.leastFirst r.
Proof.
  induction pending as [|pivot rest IH]; intros run Hrun Hpending Hleast.
  - exists run. split; [reflexivity | exact Hleast].
  - inversion Hpending as [|? ? Hp Hrest]; subst.
    destruct (@binarySearch_elements pivot run (length run) 0 (length run)
                Hp Hrun ltac:(lia) ltac:(lia) ltac:(lia))
      as (res & Hres & Hb & H3 & H4).
    cbn [binaryInsertionSort]. rewrite Hres. cbn [bind].
    apply IH; [|exact Hrest|].
    + apply Forall_forall. intros y Hy. apply insertAt_In in Hy.
      destruct Hy as [->|Hy]; [exact Hp|].
      rewrite Forall_forall in Hrun. now apply Hrun.
    + apply insertAt_leastFirst; [exact Hleast| |].
      * intros -> Hlen. now apply H3.
      * exact H4.
Qed.

(** The refs that hold elements are sorted without an exception, and the
    first of the result holds the element that comes first in the
    document. *)
Lemma sortDefined_elements xs :
  Forall isElement xs ->
  exists s, sortDefined byDocumentPosition xs = Normal s
            /\ Report.leastFirst s
            /\ (forall y, In y s <-> In y xs).
Proof.
  intros Hall.
  assert (Hsorted : exists s,
            sortDefined byDocumentPosition xs = Normal s
            /\ Report.leastFirst s).
  { destruct xs as [|x [|x' rest]].
    - exists []. split; [reflexivity | exact I].
    - exists [x]. split; [reflexivity|]. intros y [<-|[]]. lia.
    - destruct (countAndMakeRun_elements Hall)
        as (run & pending & Hrun & Hleast).
      unfold sortDefined. rewrite Hrun. cbn [bind fst snd].
      pose proof (@countAndMakeRun_In _ _ _ _ _ Hrun) as Hin.
      rewrite Forall_forall in Hall.
      apply binaryInsertionSort_elements; [| |exact Hleast];
        apply Forall_forall; intros y Hy; apply Hall; apply Hin; tauto. }
  destruct Hsorted as (s & Hs & Hleast).
  exists s. split; [exact Hs|]. split; [exact Hleast|].
  exact (@sortDefined_In _ _ _ _ Hs).
Qed.

(** Two refs that hold no object are enough for the comparator to raise:
    the first comparison already evaluates ['nodeType' in undefined]. *)
Lemma sortDefined_unmounted xs :
  2 <= length xs ->
  Forall Report.holdsNothing xs ->
  sortDefined byDocumentPosition xs = Throw TypeError.
Proof.
  intros Hlen Hall. destruct xs as [|hi [|lo rest]]; simpl in Hlen; try lia.
  inversion Hall as [|? ? _ Hall']; subst.
  inversion Hall' as [|? ? Hlo _]; subst.
  unfold sortDefined, countAndMakeRun, byDocumentPosition.
  destruct Hlo as [-> | ->]; reflexivity.
Qed.

Lemma refAt_own refs k r : lookup k refs = Some r -> refAt refs k = Some r.
Proof. intros H. unfold refAt. now rewrite (getProperty_own _ _ H). Qed.

(** A ref that can be focused is a ref of the object itself. *)
Lemma refAt_canFocus refs k r :
  refAt refs k = Some r -> canFocus (current r) = true ->
  lookup k refs = Some r.
Proof.
  unfold refAt, getProperty. destruct (lookup k refs) as [r'|].
  - now intros [= ->].
  - destruct (isInherited k); [|discriminate]. intros [= <-]. discriminate.
Qed.

Lemma entries_defined (refs : list (string * RefObject)) ks r :
  In r (defined (map (refAt refs) ks))
  <-> exists k, In k ks /\ refAt refs k = Some r.
Proof.
  rewrite defined_In, in_map_iff. split.
  - intros (k & Hk & Hin). eauto.
  - intros (k & Hin & Hk). eauto.
Qed.

Lemma entries_mounted (refs : list (string * RefObject)) ks :
  Forall (mounted refs) ks ->
  Forall isElement (defined (map (refAt refs) ks))
  /\ undefineds (map (refAt refs) ks) = []
  /\ length (defined (map (refAt refs) ks)) = length ks.
Proof.
  induction 1 as [|k l [p Hp] _ (IH1 & IH2 & IH3)];
    [repeat split; constructor|].
  unfold defined, undefineds in *. cbn [map flat_map filter].
  rewrite (refAt_own _ _ Hp). cbn [app length].
  repeat split; [|exact IH2 | now f_equal].
  constructor; [now exists p | exact IH1].
Qed.

Lemma entries_holdNothing (refs : list (string * RefObject)) ks :
  Forall (fun k => exists r, lookup k refs = Some r /\ Report.holdsNothing r) ks ->
  Forall Report.holdsNothing (defined (map (refAt refs) ks))
  /\ length (defined (map (refAt refs) ks)) = length ks
  /\ undefineds (map (refAt refs) ks) = [].
Proof.
  induction 1 as [|k l (r & Hr & Hn) _ (IH1 & IH2 & IH3)];
    [repeat split; constructor|].
  unfold defined, undefineds in *. cbn [map flat_map filter].
  rewrite (refAt_own _ _ Hr). cbn [app length].
  repeat split; [now constructor | f_equal; exact IH2 | exact IH3].
Qed.

(** With every invalid field mounted the focus request completes, on the
    element that comes first in the document. *)
Lemma focusFirstInvalidField_least fe f :
  fe <> [] ->
  Forall (mounted (refsRef f)) (keys fe) ->
  exists k p,
    In k (keys fe)
    /\ lookup k (refsRef f) = Some {| current := CElement p |}
    /\ (forall k' q,
          In k' (keys fe) ->
          lookup k' (refsRef f) = Some {| current := CElement q |} ->
          p <= q)
    /\ focusFirstInvalidField fe f = Normal (focus (CElement p) f).
Proof.
  intros Hne Hall. unfold focusFirstInvalidField, sort.
  destruct (@entries_mounted (refsRef f) (keys fe) Hall)
    as (Hel & Hund & Hlen).
  rewrite Hund.
  destruct (sortDefined_elements Hel) as (s & -> & Hleast & Hin).
  cbn [bind]. rewrite app_nil_r.
  destruct s as [|h rest].
  - exfalso. destruct (defined _) as [|x l] eqn:Hd.
    + unfold keys in Hlen. rewrite length_map in Hlen.
      destruct fe; [contradiction | discriminate].
    + apply (Hin x). now left.
  - cbn [map].
    assert (Hh : In h (defined (map (refAt (refsRef f)) (keys fe))))
      by (apply Hin; now left).
    assert (Hhel : isElement h) by (rewrite Forall_forall in Hel; now apply Hel).
    destruct Hhel as [p Hp]. destruct h as [ch]. cbn in Hp. subst ch.
    apply entries_defined in Hh. destruct Hh as (k & Hk & Hlook).
    apply refAt_canFocus in Hlook; [|reflexivity].
    cbn [current canFocus].
    exists k, p. repeat split; try assumption.
    intros k' q Hk' Hq.
    assert (Hq' : In {| current := CElement q |}
                    ({| current := CElement p |} :: rest)).
    { apply Hin. apply entries_defined. exists k'.
      split; [exact Hk' | now apply refAt_own]. }
    exact (Hleast _ Hq').
Qed.

Lemma focusFirstInvalidField_mounted fe f :
  fe <> [] ->
  Forall (mounted (refsRef f)) (keys fe) ->
  exists f', focusFirstInvalidField fe f = Normal f'.
Proof.
  intros Hne Hall.
  destruct (focusFirstInvalidField_least f Hne Hall) as (k & p & _ & _ & _ & ->).
  eauto.
Qed.

(** One invalid field whose ref holds no object: nothing is compared and
    nothing is focused. *)
Lemma focusFirstInvalidField_one_unmounted key m f r :
  lookup key (refsRef f) = Some r -> Report.holdsNothing r ->
  focusFirstInvalidField [(key, m)] f = Normal f.
Proof.
  intros H Hr. unfold focusFirstInvalidField. cbn.
  rewrite (refAt_own _ _ H). cbn.
  destruct r as [cr]. cbn in Hr. destruct Hr as [-> | ->]; reflexivity.
Qed.

Lemma focusFirstInvalidField_unmounted fe f :
  2 <= length fe ->
  Forall
    (fun k => exists r, lookup k (refsRef f) = Some r /\ Report.holdsNothing r)
    (keys fe) ->
  focusFirstInvalidField fe f = Throw TypeError.
Proof.
  intros Hlen Hall. unfold focusFirstInvalidField, sort.
  destruct (@entries_holdNothing (refsRef f) (keys fe) Hall)
    as (Hnothing & Hlen' & _).
  rewrite sortDefined_unmounted; [reflexivity| |exact Hnothing].
  rewrite Hlen'. unfold keys. now rewrite length_map.
Qed.

(** With no entry in [FormErrors] there is no first ref to read. *)
Lemma focusFirstInvalidField_nil f :
  focusFirstInvalidField [] f = Throw TypeError.
Proof. reflexivity. Qed.

(** ** The sign-up scenario, step by step *)

Section SignUpFacts.
Variable isEmail : string -> bool.
Variable isMobilePhone : string -> bool.

Lemma signUp_initial_rejected :
  exists errs,
    t.decode (SignUpForm isEmail isMobilePhone) (VObj signUpInitial)
    = E.Left errs
    /\ errorsToFormErrors errs = Normal signUpErrors.
Proof.
  unfold t.decode. cbn.
  destruct (isEmail ""), (isMobilePhone ""); cbn;
    eexists; (split; [reflexivity|]); reflexivity.
Qed.

Lemma signUp_filled_accepted :
  isEmail "a@b.com" = true ->
  isMobilePhone "+14155552671" = true ->
  t.decode (SignUpForm isEmail isMobilePhone) (VObj signUpFilled)
  = E.Right (VObj signUpFilled).
Proof.
  intros Hmail Hphone. unfold t.decode. cbn.
  rewrite Hmail, Hphone. reflexivity.
Qed.
End SignUpFacts.

Lemma signUp_fresh_throws (isEmail isMobilePhone : string -> bool) :
  snd (validate (useForm (SignUpForm isEmail isMobilePhone) signUpInitial))
  = Throw TypeError.
Proof.
  destruct (signUp_initial_rejected isEmail isMobilePhone)
    as (errs & Hdec & Hproj).
  unfold validate, onFail. cbn [codec state useForm].
  rewrite Hdec. cbn [E.fold]. rewrite Hproj.
  rewrite focusFirstInvalidField_unmounted; [reflexivity | cbn; lia |].
  repeat constructor; (eexists; split; [reflexivity | now left]).
Qed.

Lemma signUp_after_edits (isEmail isMobilePhone : string -> bool) (f0 : Form) :
  isEmail "a@b.com" = true ->
  isMobilePhone "+14155552671" = true ->
  codec f0 = SignUpForm isEmail isMobilePhone ->
  state f0 = signUpInitial ->
  formErrors (fst (validate f0)) = signUpErrors
  /\ state (run signUpEdits (fst (validate f0))) = signUpFilled
  /\ formErrors (fst (validate (run signUpEdits (fst (validate f0))))) = []
  /\ snd (validate (run signUpEdits (fst (validate f0))))
     = Normal (E.Right (VObj signUpFilled)).
Proof.
  intros Hmail Hphone Hcodec Hstate.
  destruct (signUp_initial_rejected isEmail isMobilePhone)
    as (errs & Hdec & Hproj).
  rewrite <- Hcodec, <- Hstate in Hdec.
  destruct (validate_rejecting f0 Hdec Hproj) as (Hfe & Hs & Hc & _).
  set (f1 := fst (validate f0)) in *.
  assert (Hfilled : state (run signUpEdits f1) = signUpFilled).
  { cbn. rewrite Hs, Hstate. reflexivity. }
  assert (Hc2 : codec (run signUpEdits f1) = SignUpForm isEmail isMobilePhone).
  { cbn. now rewrite Hc. }
  assert (Hdec2 : t.decode (codec (run signUpEdits f1))
                    (VObj (state (run signUpEdits f1)))
                  = E.Right (VObj signUpFilled)).
  { rewrite Hc2, Hfilled. now apply signUp_filled_accepted. }
  split; [exact Hfe|]. split; [exact Hfilled|].
  rewrite (validate_accepting _ Hdec2). cbn. auto.
Qed.

(** C3, on the form of its scenario: the sign-up form as [useForm] first
    renders it, every field empty and no input mounted yet.  The first
    [validate] stores a [FormErrors] with the keys company, email, password
    and phone, each with the message of [NonEmptyString], and without
    sendNewsletter; but it does not return: the focus request raises a
    TypeError.  After the four edits the second [validate] stores an empty
    [FormErrors] and returns the decoded value. *)
Theorem signUp_validate_fill_validate
  (isEmail isMobilePhone : string -> bool) :
  isEmail "a@b.com" = true ->
  isMobilePhone "+14155552671" = true ->
  formErrors
    (fst (validate (useForm (SignUpForm isEmail isMobilePhone) signUpInitial)))
  = [ ("company", Some validationErrors.NonEmptyString);
      ("email", Some validationErrors.NonEmptyString);
      ("password", Some validationErrors.NonEmptyString);
      ("phone", Some validationErrors.NonEmptyString) ]
  /\ hasProperty "sendNewsletter"
       (formErrors
          (fst (validate
                  (useForm (SignUpForm isEmail isMobilePhone) signUpInitial))))
     = false
  /\ snd (validate (useForm (SignUpForm isEmail isMobilePhone) signUpInitial))
     = Throw TypeError
  /\ state
       (run signUpEdits
          (fst (validate
                  (useForm (SignUpForm isEmail isMobilePhone) signUpInitial))))
     = signUpFilled
  /\ formErrors
       (fst (validate
               (run signUpEdits
                  (fst (validate
                          (useForm (SignUpForm isEmail isMobilePhone)
                             signUpInitial))))))
     = []
  /\ snd (validate
            (run signUpEdits
               (fst (validate
                       (useForm (SignUpForm isEmail isMobilePhone)
                          signUpInitial)))))
     = Normal (E.Right (VObj signUpFilled)).
Proof.
  intros Hmail Hphone.
  destruct (@signUp_after_edits isEmail isMobilePhone
              (useForm (SignUpForm isEmail isMobilePhone) signUpInitial)
              Hmail Hphone eq_refl eq_refl) as (Hfe & Hfilled & Hfe2 & Hret).
  split; [exact Hfe|]. split; [now rewrite Hfe|].
  split; [apply signUp_fresh_throws|]. auto.
Qed.

(** C6, at the input where the code departs from it: a form over
    [SignUpForm] with every field empty and no input mounted.  The decode
    fails, and [validate] raises a TypeError in the focus request instead of
    returning the failures. *)
Theorem validate_throws_when_inputs_not_mounted
  (isEmail isMobilePhone : string -> bool) :
  (exists errs,
     t.decode (SignUpForm isEmail isMobilePhone) (VObj signUpInitial)
     = E.Left errs)
  /\ snd (validate (useForm (SignUpForm isEmail isMobilePhone) signUpInitial))
     = Throw TypeError.
Proof.
  destruct (signUp_initial_rejected isEmail isMobilePhone)
    as (errs & Hdec & Hproj).
  split; [now exists errs | apply signUp_fresh_throws].
Qed.

(** ** Field descriptors *)

Section FieldsFacts.
Variable B : Type.
Variable g : string * t.Mixed -> B.

Let add (acc : list (string * B)) (p : string * t.Mixed) :=
  set (fst p) (g p) acc.

Lemma fold_set_other ps : forall acc k,
  ~ In k (keys ps) -> lookup k (fold_left add ps acc) = lookup k acc.
Proof.
  induction ps as [|p rest IH]; intros acc k Hk; simpl; [reflexivity|].
  rewrite IH by (intros Hin; apply Hk; now right).
  unfold add. apply lookup_set_other. intros ->. apply Hk. now left.
Qed.

Lemma fold_set_lookup ps : forall acc k ty,
  NoDup (keys ps) -> In (k, ty) ps ->
  lookup k (fold_left add ps acc) = Some (g (k, ty)).
Proof.
  induction ps as [|p rest IH]; intros acc k ty Hnd Hin; simpl; [destruct Hin|].
  inversion Hnd as [|? ? Hp Hrest]; subst.
  destruct Hin as [->|Hin].
  - rewrite fold_set_other by exact Hp. unfold add. cbn.
    apply lookup_set_same.
  - now apply IH.
Qed.
End FieldsFacts.

Lemma fields_lookup (isEmail isMobilePhone : string -> bool) (f : Form)
  (key : string) (type : t.Mixed) :
  NoDup (keys (t.props (codec f))) ->
  In (key, type) (t.props (codec f)) ->
  lookup key (fields isEmail isMobilePhone f)
  = Some {| props := createProps isEmail isMobilePhone f key type;
            isInvalid := hasProperty key (formErrors f);
            error := errorOf key (formErrors f) |}.
Proof.
  intros Hnd Hin. unfold fields.
  exact (@fold_set_lookup Field
           (fun p =>
              {| props := createProps isEmail isMobilePhone f (fst p) (snd p);
                 isInvalid := hasProperty (fst p) (formErrors f);
                 error := errorOf (fst p) (formErrors f) |})
           (t.props (codec f)) [] key type Hnd Hin).
Qed.

(** [formErrors[key] || ''] for a name that [Object.prototype] does not
    define: the message, or the empty string. *)
Lemma errorOf_spec key fe :
  isInherited key = false ->
  errorOf key fe
  = VStr match lookup key fe with
         | Some (Some m) => m
         | _ => ""
         end.
Proof.
  intros Hk. unfold errorOf. rewrite getProperty_plain by exact Hk.
  destruct (lookup key fe) as [[m|]|]; try reflexivity.
  destruct (String.eqb_spec m ""); [now subst | reflexivity].
Qed.

(** C9, where the code departs from it: a declared field whose name
    [Object.prototype] defines (constructor, toString, ...).  With nothing
    recorded for it in [FormErrors] its descriptor still reads invalid, and
    its [error] is the member inherited from [Object.prototype], not the
    empty string: [key in formErrors] and [formErrors[key]] look up the
    prototype chain. *)
Theorem fields_flag_prototype_named_field
  (isEmail isMobilePhone : string -> bool) (f : Form)
  (key : string) (type : t.Mixed) :
  NoDup (keys (t.props (codec f))) ->
  In (key, type) (t.props (codec f)) ->
  isInherited key = true ->
  has key (formErrors f) = false ->
  exists fld,
    lookup key (fields isEmail isMobilePhone f) = Some fld
    /\ isInvalid fld = true
    /\ error fld = VInherited key.
Proof.
  intros Hnd Hin Hk Hhas. eexists.
  split; [exact (@fields_lookup isEmail isMobilePhone f key type Hnd Hin)|].
  cbn [isInvalid error]. unfold hasProperty, errorOf, getProperty.
  rewrite has_lookup in Hhas.
  destruct (lookup key (formErrors f)); [discriminate|].
  rewrite Hk. split; [apply orb_true_r | reflexivity].
Qed.

(** X16: the descriptor of a declared field whose name [Object.prototype] does
    not define.  [isInvalid] tells whether the field name is a key of
    [FormErrors] and [error] is its message, or the empty string when there
    is none.  The props are those of a text input (current value, change
    handler, a key handler that validates on Enter and does nothing on
    another key, the ref) when the constraint is one of the members of
    [TextInputField], those of a checkbox (checked flag, change handler, the
    ref) when it is the [boolean] codec itself, and empty otherwise. *)
Theorem fields_dispatch_on_constraint
  (isEmail isMobilePhone : string -> bool) (f : Form)
  (key : string) (type : t.Mixed) :
  NoDup (keys (t.props (codec f))) ->
  In (key, type) (t.props (codec f)) ->
  isInherited key = false ->
  exists fld,
    lookup key (fields isEmail isMobilePhone f) = Some fld
    /\ isInvalid fld = has key (formErrors f)
    /\ error fld
       = VStr match lookup key (formErrors f) with
              | Some (Some m) => m
              | _ => ""
              end
    /\ ((exists member,
           In member (t.types (TextInputField isEmail isMobilePhone))
           /\ t.addr member = t.addr type) ->
        exists p,
          props fld = TextInput p
          /\ TextInputProps.value p = get key (state f)
          /\ (forall v, TextInputProps.onChange p v = setFieldValue key v f)
          /\ TextInputProps.onKeyPress p "Enter"
             = (fst (validate f), _ <- snd (validate f) ;; Normal tt)
          /\ (forall eventKey,
                eventKey <> "Enter" ->
                TextInputProps.onKeyPress p eventKey = (f, Normal tt))
          /\ TextInputProps.ref p = getProperty key (refsRef f))
    /\ (t.addr type = t.addr t.boolean ->
        exists p,
          props fld = Checkbox p
          /\ CheckboxProps.isChecked p = get key (state f)
          /\ (forall v, CheckboxProps.onChange p v = setFieldValue key v f)
          /\ CheckboxProps.ref p = getProperty key (refsRef f))
    /\ ((forall member,
           In member (t.types (TextInputField isEmail isMobilePhone)) ->
           t.addr member <> t.addr type) ->
        t.addr type <> t.addr t.boolean ->
        props fld = Unhandled).
Proof.
  intros Hnd Hin Hk. eexists.
  split; [exact (@fields_lookup isEmail isMobilePhone f key type Hnd Hin)|].
  cbn [props isInvalid error fst snd].
  split; [now apply hasProperty_plain|].
  split; [now apply errorOf_spec|].
  unfold createProps. split; [|split].
  + intros (member & Hmem & Haddr).
    assert (Hinc : includes (t.types (TextInputField isEmail isMobilePhone)) type
                   = true).
    { unfold includes. apply existsb_exists. exists member.
      split; [exact Hmem | now apply Nat.eqb_eq]. }
    rewrite Hinc. eexists. split; [reflexivity|]. cbn.
    split; [reflexivity|]. split; [reflexivity|]. split.
    * destruct (validate f). reflexivity.
    * split; [|reflexivity]. intros eventKey Hne.
      destruct (String.eqb_spec eventKey "Enter"); [contradiction|reflexivity].
  + intros Hbool.
    assert (Hinc : includes (t.types (TextInputField isEmail isMobilePhone)) type
                   = false).
    { unfold includes. rewrite Hbool. reflexivity. }
    rewrite Hinc. unfold CheckboxField. rewrite Hbool, Nat.eqb_refl.
    eexists. split; [reflexivity|]. cbn. auto.
  + intros Hnot Hnb.
    assert (Hinc : includes (t.types (TextInputField isEmail isMobilePhone)) type
                   = false).
    { unfold includes. apply not_true_is_false. intros Hex.
      apply existsb_exists in Hex. destruct Hex as (member & Hmem & Heq).
      apply Nat.eqb_eq in Heq. exact (Hnot member Hmem Heq). }
    rewrite Hinc. unfold CheckboxField.
    destruct (Nat.eqb_spec (t.addr type) (t.addr t.boolean));
      [contradiction | reflexivity].
Qed.

(** ** The properties at concrete inputs *)

(** [123] against [intersection([TypeString, NonEmptyString])]: the result
    is not the failure of [TypeString] alone, it has a second failure, that
    of [NonEmptyString]. *)
Lemma intersection_short_circuit_counterexample :
  ~ Spec.firstFailureOnly 40 [TypeString; NonEmptyString] (VNum 123)
      (Spec.root (VNum 123))
  /\ ~ (exists e,
          t.decode (t.intersection 40 [TypeString; NonEmptyString]) (VNum 123)
          = E.Left [e])
  /\ (exists e1 e2,
        t.decode (t.intersection 40 [TypeString; NonEmptyString]) (VNum 123)
        = E.Left [e1; e2]
        /\ t.message e2 = Some validationErrors.NonEmptyString).
Proof.
  split; [|split].
  - intros H.
    pose proof (H [] TypeString [NonEmptyString]
                  [ {| t.value := VNum 123;
                       t.context :=
                         Spec.memberContext (Spec.root (VNum 123)) 0 (VNum 123);
                       t.message := Some validationErrors.TypeString |} ]
                  eq_refl eq_refl eq_refl) as H'.
    cbv in H'. discriminate H'.
  - intros [e H]. cbv in H. discriminate H.
  - do 2 eexists. split; reflexivity.
Qed.

(** The same input, as an instance of
    [intersection_collects_member_failures]. *)
Lemma intersection_collects_member_failures_witness :
  Forall Spec.failsWithSome [TypeString; NonEmptyString]
  /\ t.validate (t.intersection 40 [TypeString; NonEmptyString]) (VNum 123)
       (Spec.root (VNum 123))
     = E.Left
         (Spec.memberFailures [TypeString; NonEmptyString] 0 (VNum 123)
            (Spec.root (VNum 123))).
Proof.
  assert (H : Forall Spec.failsWithSome [TypeString; NonEmptyString])
    by (repeat constructor; apply withMessage_failsWithSome).
  split; [exact H|].
  apply (intersection_collects_member_failures 40 (VNum 123)
           (Spec.root (VNum 123)) H).
  reflexivity.
Defined.

(** An invalid field is not always given a message: a brand without
    message, or [boolean] on a missing property, fails with none, and the
    field is recorded with [undefined]. *)
Lemma validate_records_field_without_message :
  E.isLeft (t.decode (codec Example.nickname) (VObj (state Example.nickname)))
  = true
  /\ formErrors (fst (validate Example.nickname)) = [ ("nick", None) ]
  /\ E.isLeft
       (t.decode (codec Example.noNewsletter)
          (VObj (state Example.noNewsletter)))
     = true
  /\ formErrors (fst (validate Example.noNewsletter))
     = [ ("sendNewsletter", None) ].
Proof. repeat split; reflexivity. Qed.

(** The contact form with both fields empty: each field produces several
    failures, the stored mapping has the two keys, each with the first
    message. *)
Lemma validate_keeps_first_failure_per_field_witness :
  NoDup (keys (t.props (codec Sample.contact)))
  /\ propertyOrder (keys (t.props (codec Sample.contact)))
  /\ Forall (fun k => isInherited k = false)
       (keys (t.props (codec Sample.contact)))
  /\ Forall (fun p => Spec.reportsBelow (snd p)) (t.props (codec Sample.contact))
  /\ (exists errs,
        t.decode (codec Sample.contact) (VObj (state Sample.contact))
        = E.Left errs
        /\ length errs = 4)
  /\ keys (formErrors (fst (validate Sample.contact))) = ["email"; "phone"]
  /\ lookup "email" (formErrors (fst (validate Sample.contact)))
     = Some (Some validationErrors.NonEmptyString).
Proof.
  assert (Hnd : NoDup (keys (t.props (codec Sample.contact)))).
  { cbn. repeat constructor; cbn; intuition discriminate. }
  assert (Hord : propertyOrder (keys (t.props (codec Sample.contact))))
    by (cbn; repeat constructor).
  assert (Hplain : Forall (fun k => isInherited k = false)
                     (keys (t.props (codec Sample.contact))))
    by (cbn; repeat constructor).
  assert (Hbelow : Forall (fun p => Spec.reportsBelow (snd p))
                     (t.props (codec Sample.contact))).
  { cbn [t.props codec Sample.contact useForm].
    repeat apply Forall_cons; try apply Forall_nil; cbn [snd];
      unfold Email, Phone, String64, NonEmptyTrimmedString; reports_below. }
  split; [exact Hnd|]. split; [exact Hord|]. split; [exact Hplain|].
  split; [exact Hbelow|].
  destruct (t.decode (codec Sample.contact) (VObj (state Sample.contact)))
    as [errs|v] eqn:Hdec; [|discriminate Hdec].
  destruct (validate_keeps_first_failure_per_field Sample.contact
              Hnd Hord Hplain Hbelow Hdec)
    as (_ & _ & _ & Hlook & Hkeys).
  cbv in Hdec. injection Hdec as Herrs. subst errs.
  split; [eexists; split; reflexivity|].
  split; [rewrite Hkeys; reflexivity|].
  rewrite Hlook. reflexivity.
Defined.

(** The sign-up scenario with the two stand-in predicates. *)
Lemma signUp_validate_fill_validate_witness :
  Sample.isEmail "a@b.com" = true
  /\ Sample.isMobilePhone "+14155552671" = true
  /\ formErrors (fst (validate Sample.signUp)) = signUpErrors
  /\ snd (validate Sample.signUp) = Throw TypeError
  /\ snd (validate (run signUpEdits (fst (validate Sample.signUp))))
     = Normal (E.Right (VObj signUpFilled)).
Proof.
  split; [reflexivity|]. split; [reflexivity|].
  destruct (@signUp_validate_fill_validate Sample.isEmail Sample.isMobilePhone
              eq_refl eq_refl)
    as (H1 & _ & H2 & _ & _ & H3).
  split; [exact H1|]. split; [exact H2 | exact H3].
Defined.

(** A filled form that still shows four errors loses them on [validate]. *)
Lemma validate_success_clears_formErrors_witness :
  formErrors Sample.filled = signUpErrors
  /\ t.decode (codec Sample.filled) (VObj (state Sample.filled))
     = E.Right (VObj signUpFilled)
  /\ formErrors (fst (validate Sample.filled)) = [].
Proof.
  split; [reflexivity|].
  assert (Hdec : t.decode (codec Sample.filled) (VObj (state Sample.filled))
                 = E.Right (VObj signUpFilled)) by reflexivity.
  split; [exact Hdec|].
  exact (proj1 (validate_success_clears_formErrors Sample.filled Hdec)).
Defined.

(** After the four edits of the scenario, [reset] brings the empty fields
    back. *)
Lemma reset_restores_initial_value_witness :
  state (run signUpEdits Sample.signUp) = signUpFilled
  /\ state (reset (run signUpEdits Sample.signUp)) = signUpInitial.
Proof.
  split; [reflexivity|].
  exact (proj1 (reset_restores_initial_value
                  (SignUpForm Sample.isEmail Sample.isMobilePhone)
                  signUpInitial signUpEdits)).
Defined.

(** [TextInputField]: every member rejects the number 5, and the decode
    fails with the eighteen failures of the four members; it accepts a string
    of ten letters. *)
Lemma union_first_accepting_member_witness :
  Spec.allReject [String64; Email Sample.isEmail; Password;
                  Phone Sample.isMobilePhone] 0 (VNum 5) (Spec.root (VNum 5))
  = true
  /\ t.decode (TextInputField Sample.isEmail Sample.isMobilePhone) (VNum 5)
     = E.Left
         (Spec.memberFailures
            [String64; Email Sample.isEmail; Password;
             Phone Sample.isMobilePhone] 0 (VNum 5) (Spec.root (VNum 5)))
  /\ length
       (Spec.memberFailures
          [String64; Email Sample.isEmail; Password;
           Phone Sample.isMobilePhone] 0 (VNum 5) (Spec.root (VNum 5)))
     = 18
  /\ String.length "abcdefghij" = 10
  /\ trim "abcdefghij" = "abcdefghij"
  /\ t.decode (TextInputField Sample.isEmail Sample.isMobilePhone)
       (VStr "abcdefghij")
     = E.Right (VStr "abcdefghij").
Proof.
  destruct (union_first_accepting_member 32
              [String64; Email Sample.isEmail; Password;
               Phone Sample.isMobilePhone] (VNum 5) [])
    as (_ & _ & _ & _ & Hreject & Hten).
  assert (Hall : Spec.allReject
                   [String64; Email Sample.isEmail; Password;
                    Phone Sample.isMobilePhone] 0 (VNum 5)
                   (Spec.root (VNum 5)) = true) by reflexivity.
  split; [exact Hall|]. split; [exact (Hreject Hall)|].
  split; [reflexivity|]. split; [reflexivity|]. split; [reflexivity|].
  exact (proj1 (Hten Sample.isEmail Sample.isMobilePhone "abcdefghij"
                  eq_refl eq_refl)).
Defined.

(** A field named constructor, before any validation: nothing is recorded
    for it, and its descriptor reads invalid, with the inherited member as
    error. *)
Lemma fields_flag_prototype_named_field_witness :
  NoDup (keys (t.props (codec Example.constructorField)))
  /\ In ("constructor", String64) (t.props (codec Example.constructorField))
  /\ isInherited "constructor" = true
  /\ formErrors Example.constructorField = []
  /\ exists fld,
       lookup "constructor"
         (fields Sample.isEmail Sample.isMobilePhone Example.constructorField)
       = Some fld
       /\ isInvalid fld = true
       /\ error fld = VInherited "constructor".
Proof.
  assert (Hnd : NoDup (keys (t.props (codec Example.constructorField)))).
  { cbn. repeat constructor; cbn; intuition discriminate. }
  assert (Hin : In ("constructor", String64)
                  (t.props (codec Example.constructorField)))
    by (cbn; now left).
  split; [exact Hnd|]. split; [exact Hin|]. split; [reflexivity|].
  split; [reflexivity|].
  exact (@fields_flag_prototype_named_field Sample.isEmail
           Sample.isMobilePhone Example.constructorField "constructor"
           String64 Hnd Hin eq_refl eq_refl).
Defined.

(** The descriptor of the email field before any validation. *)
Lemma fields_dispatch_on_constraint_witness :
  NoDup (keys (t.props (codec Sample.signUp)))
  /\ In ("email", Email Sample.isEmail) (t.props (codec Sample.signUp))
  /\ isInherited "email" = false
  /\ exists fld,
       lookup "email" (fields Sample.isEmail Sample.isMobilePhone Sample.signUp)
       = Some fld
       /\ isInvalid fld = false
       /\ error fld = VStr "".
Proof.
  assert (Hnd : NoDup (keys (t.props (codec Sample.signUp)))).
  { cbn. repeat constructor; cbn; intuition discriminate. }
  assert (Hin : In ("email", Email Sample.isEmail)
                  (t.props (codec Sample.signUp))).
  { cbn. right. left. reflexivity. }
  split; [exact Hnd|]. split; [exact Hin|]. split; [reflexivity|].
  destruct (@fields_dispatch_on_constraint Sample.isEmail Sample.isMobilePhone
              Sample.signUp "email" (Email Sample.isEmail) Hnd Hin eq_refl)
    as (fld & Hfld & Hinv & Herr & _).
  exists fld. split; [exact Hfld|]. split; [exact Hinv | exact Herr].
Defined.

(** [SignUpForm] decoding [null]: the one failure has the root context
    only. *)
Lemma errorsToFormErrors_needs_two_context_entries_witness :
  t.isRecord VNull = false
  /\ exists errs,
       t.decode (SignUpForm Sample.isEmail Sample.isMobilePhone) VNull
       = E.Left errs
       /\ errorsToFormErrors errs = Throw TypeError.
Proof.
  split; [reflexivity|].
  destruct (errorsToFormErrors_needs_two_context_entries []) as (_ & _ & H).
  exact (H (SignUpForm Sample.isEmail Sample.isMobilePhone) VNull eq_refl).
Defined.

(** ** [String.prototype.trim] *)

Lemma append_empty_r s : (s ++ "")%string = s.
Proof. induction s as [|ch s IH]; simpl; [reflexivity | now rewrite IH]. Qed.

Lemma append_assoc s1 s2 s3 :
  ((s1 ++ s2) ++ s3)%string = (s1 ++ (s2 ++ s3))%string.
Proof. induction s1 as [|ch s1 IH]; simpl; [reflexivity | now rewrite IH]. Qed.

Lemma reverse_append s : forall acc,
  reverse s acc = (reverse s "" ++ acc)%string.
Proof.
  induction s as [|ch s IH]; intros acc; simpl; [reflexivity|].
  rewrite IH, (IH (String ch "")).
  rewrite append_assoc. reflexivity.
Qed.

Lemma reverse_length s : forall acc,
  String.length (reverse s acc) = String.length s + String.length acc.
Proof.
  induction s as [|ch s IH]; intros acc; simpl; [reflexivity|].
  rewrite IH. simpl. lia.
Qed.

Lemma reverse_reverse s : forall acc acc',
  reverse (reverse s acc) acc' = reverse acc (s ++ acc')%string.
Proof.
  induction s as [|ch s IH]; intros acc acc'; simpl; [reflexivity|].
  now rewrite IH.
Qed.

Lemma reverse_involutive s : reverse (reverse s "") "" = s.
Proof. rewrite reverse_reverse. simpl. apply append_empty_r. Qed.

Lemma reverse_app s s' :
  reverse (s ++ s')%string "" = (reverse s' "" ++ reverse s "")%string.
Proof.
  induction s as [|ch s IH]; simpl.
  - now rewrite append_empty_r.
  - rewrite reverse_append, IH, (reverse_append s (String ch "")).
    now rewrite append_assoc.
Qed.

Lemma trimStart_length s : String.length (trimStart s) <= String.length s.
Proof.
  induction s as [|ch s IH]; simpl; [lia|].
  destruct (isWhiteSpace ch); simpl; lia.
Qed.

Lemma trimStart_same_length s :
  String.length (trimStart s) = String.length s -> trimStart s = s.
Proof.
  destruct s as [|ch s]; simpl; [reflexivity|].
  destruct (isWhiteSpace ch); [|reflexivity].
  pose proof (trimStart_length s). lia.
Qed.

Lemma trimStart_idempotent s : trimStart (trimStart s) = trimStart s.
Proof.
  induction s as [|ch s IH]; simpl; [reflexivity|].
  destruct (isWhiteSpace ch) eqn:Hch; [exact IH|].
  simpl. now rewrite Hch.
Qed.

(** What is cut off is white space, and what is left does not start with
    any. *)
Lemma trimStart_split s :
  exists w, s = (w ++ trimStart s)%string.
Proof.
  induction s as [|ch s [w IH]]; simpl.
  - now exists "".
  - destruct (isWhiteSpace ch).
    + exists (String ch w). simpl. now rewrite <- IH.
    + now exists "".
Qed.

Lemma trimStart_fixed_head ch s s' :
  trimStart (String ch s ++ s')%string = (String ch s ++ s')%string ->
  trimStart (String ch s) = String ch s.
Proof.
  simpl. destruct (isWhiteSpace ch); [|reflexivity].
  intros H. pose proof (trimStart_length (s ++ s')%string) as Hlen.
  rewrite H in Hlen. simpl in Hlen. lia.
Qed.

Lemma trim_same_length s :
  String.length (trim s) = String.length s -> trim s = s.
Proof.
  unfold trim. intros Hlen.
  pose proof (trimStart_length s) as H1.
  pose proof (trimStart_length (reverse (trimStart s) "")) as H2.
  rewrite reverse_length in Hlen. rewrite reverse_length in H2.
  simpl in Hlen, H2.
  assert (Hs : trimStart s = s) by (apply trimStart_same_length; lia).
  rewrite Hs in *.
  assert (Hr : trimStart (reverse s "") = reverse s "").
  { apply trimStart_same_length. rewrite reverse_length. simpl. lia. }
  rewrite Hr. apply reverse_involutive.
Qed.

Lemma trim_idempotent s : trim (trim s) = trim s.
Proof.
  unfold trim.
  set (t1 := trimStart s).
  set (r := trimStart (reverse t1 "")).
  assert (Hr : trimStart r = r) by apply trimStart_idempotent.
  assert (Hrev : trimStart (reverse r "") = reverse r "").
  { destruct (trimStart_split (reverse t1 "")) as [w Hw]. fold r in Hw.
    assert (Ht1 : t1 = (reverse r "" ++ reverse w "")%string).
    { rewrite <- (reverse_involutive t1), Hw. apply reverse_app. }
    assert (Hfix : trimStart t1 = t1) by apply trimStart_idempotent.
    destruct (reverse r "") as [|ch x] eqn:Hx; [reflexivity|].
    rewrite Ht1 in Hfix. now apply trimStart_fixed_head in Hfix. }
  rewrite Hrev, reverse_involutive, Hr. reflexivity.
Qed.

Lemma trimmed_iff s :
  (String.length (trim s) =? String.length s) = true <-> trim s = s.
Proof.
  rewrite Nat.eqb_eq. split; [apply trim_same_length | now intros ->].
Qed.

(** ** The leaves of [src/types/index.ts] *)

Lemma strict_eq_refl : forall a, strict_eq a a = true.
Proof.
  fix IH 1. intros [| |b|n|s|o|nm]; simpl; try reflexivity.
  - apply Bool.eqb_reflx.
  - apply Z.eqb_refl.
  - apply String.eqb_refl.
  - revert o. fix IHo 1. intros [|[k v] o']; [reflexivity|].
    now rewrite String.eqb_refl, IH, IHo.
  - apply String.eqb_refl.
Qed.

Lemma branded_string a a' p nm msg u c :
  t.validate
    (withMessage a (t.brand a' t.string (onString p) nm) (fun _ _ => msg)) u c
  = if onString p u then E.Right u
    else E.Left [ {| t.value := u; t.context := c; t.message := Some msg |} ].
Proof.
  destruct u; cbn; try reflexivity. destruct (p s); reflexivity.
Qed.

Lemma TypeString_validate u c :
  t.validate TypeString u c
  = if Report.isString u then E.Right u
    else E.Left [ {| t.value := u; t.context := c;
                     t.message := Some validationErrors.TypeString |} ].
Proof. destruct u; reflexivity. Qed.

Lemma intersection_messages a codecs u c :
  Report.messagesOf (t.validate (t.intersection a codecs) u c)
  = Report.memberMessages codecs 0 u c.
Proof.
  rewrite intersection_validate.
  assert (H : forall i,
    map t.message (Spec.memberFailures codecs i u c)
    = Report.memberMessages codecs i u c).
  { induction codecs as [|codec rest IH]; intros i; simpl; [reflexivity|].
    destruct (t.validate codec u (Spec.memberContext c i u)); simpl;
      [rewrite map_app|]; now rewrite IH. }
  rewrite <- H.
  destruct (Spec.memberFailures codecs 0 u c); reflexivity.
Qed.

Lemma intersection_failsWithSome a codecs :
  Spec.failsWithSome (t.intersection a codecs).
Proof.
  intros u c. rewrite intersection_validate.
  destruct (Spec.memberFailures codecs 0 u c); discriminate.
Qed.

Lemma messagesOf_nil v :
  v <> E.Left [] -> (Report.messagesOf v = [] <-> E.isLeft v = false).
Proof.
  destruct v as [[|e es]|x]; simpl; intros H.
  - contradiction.
  - split; discriminate.
  - tauto.
Qed.

Lemma returnsInput_intersection a codecs :
  Forall Report.returnsInput codecs ->
  Report.returnsInput (t.intersection a codecs).
Proof.
  intros Hall u c v. rewrite intersection_validate.
  destruct (Spec.memberFailures codecs 0 u c); [|discriminate].
  intros H. inversion H; subst. clear H. apply mergeAll_same.
  generalize 0 as i.
  induction Hall as [|codec rest Hc _ IH]; intros i;
    cbn [Spec.memberResults]; [reflexivity|].
  destruct (t.validate codec u (Spec.memberContext c i u)) as [e|x] eqn:Hv;
    [apply IH|].
  cbn [forallb]. apply Hc in Hv. subst x. now rewrite strict_eq_refl, IH.
Qed.

Lemma returnsInput_branded a a' p nm msg :
  Report.returnsInput
    (withMessage a (t.brand a' t.string (onString p) nm) (fun _ _ => msg)).
Proof.
  intros u c v. rewrite branded_string.
  destruct (onString p u); [|discriminate]. now inversion 1.
Qed.

Lemma returnsInput_TypeString : Report.returnsInput TypeString.
Proof.
  intros u c v. rewrite TypeString_validate.
  destruct (Report.isString u); [|discriminate]. now inversion 1.
Qed.

Lemma returnsInput_boolean : Report.returnsInput t.boolean.
Proof. intros u c v. destruct u; cbn; inversion 1; reflexivity. Qed.

Ltac returns_input :=
  repeat first
    [ apply Forall_nil
    | apply Forall_cons
    | apply returnsInput_intersection
    | apply returnsInput_branded
    | apply returnsInput_TypeString
    | apply returnsInput_boolean ].

Lemma branded_messages a a' p nm msg u c :
  Report.messagesOf
    (t.validate
       (withMessage a (t.brand a' t.string (onString p) nm) (fun _ _ => msg))
       u c)
  = Report.complaint (onString p u) msg.
Proof. rewrite branded_string. now destruct (onString p u). Qed.

Lemma TypeString_messages u c :
  Report.messagesOf (t.validate TypeString u c)
  = Report.complaint (Report.isString u) validationErrors.TypeString.
Proof. rewrite TypeString_validate. now destruct (Report.isString u). Qed.

Lemma complaint_nil ok msg : Report.complaint ok msg = [] <-> ok = true.
Proof. destruct ok; simpl; split; congruence. Qed.

Lemma NonEmptyTrimmedString_messages u c :
  Report.messagesOf (t.validate NonEmptyTrimmedString u c)
  = Report.complaint (Report.isString u) validationErrors.TypeString
    ++ Report.complaint (onString Report.nonEmpty u)
         validationErrors.NonEmptyString
    ++ Report.complaint (onString Report.trimmed u)
         validationErrors.TrimmedString.
Proof.
  unfold NonEmptyTrimmedString. rewrite intersection_messages.
  cbn [Report.memberMessages]. rewrite TypeString_messages.
  unfold NonEmptyString, TrimmedString. rewrite !branded_messages.
  now rewrite app_nil_r.
Qed.

Lemma String64_messages u c :
  Report.messagesOf (t.validate String64 u c)
  = Report.complaint (Report.isString u) validationErrors.TypeString
    ++ Report.complaint (onString Report.nonEmpty u)
         validationErrors.NonEmptyString
    ++ Report.complaint (onString Report.trimmed u)
         validationErrors.TrimmedString
    ++ Report.complaint (onString (Report.atMost 64) u)
         validationErrors.TooLong.
Proof.
  unfold String64. rewrite intersection_messages.
  cbn [Report.memberMessages]. rewrite NonEmptyTrimmedString_messages.
  unfold Max64String. rewrite branded_messages.
  now rewrite app_nil_r, <- !app_assoc.
Qed.

Lemma String512_messages u c :
  Report.messagesOf (t.validate String512 u c)
  = Report.complaint (Report.isString u) validationErrors.TypeString
    ++ Report.complaint (onString Report.nonEmpty u)
         validationErrors.NonEmptyString
    ++ Report.complaint (onString Report.trimmed u)
         validationErrors.TrimmedString
    ++ Report.complaint (onString (Report.atMost 512) u)
         validationErrors.TooLong.
Proof.
  unfold String512. rewrite intersection_messages.
  cbn [Report.memberMessages]. rewrite NonEmptyTrimmedString_messages.
  unfold Max512String. rewrite branded_messages.
  now rewrite app_nil_r, <- !app_assoc.
Qed.

(** From an empty list of complaints back to the checks. *)
Ltac checks_hold H :=
  repeat match type of H with
         | _ ++ _ = [] =>
             let H1 := fresh "Hcheck" in
             apply app_eq_nil in H; destruct H as [H1 H];
             apply complaint_nil in H1
         end;
  apply complaint_nil in H.

Lemma isString_VStr u : Report.isString u = true -> exists s, u = VStr s.
Proof. destruct u; try discriminate. eauto. Qed.

(** ** The domain types of [src/types/index.ts] *)

(** X1: [TrimmedString] hands back, unchanged, the strings that are their own
    trim, and so the trim of any string; anything else gets one failure with
    its message. *)
Theorem TrimmedString_accepts_the_trimmed (u : jsval) (c : t.Context) :
  (forall s, t.validate TrimmedString (VStr (trim s)) c = E.Right (VStr (trim s)))
  /\ (t.validate TrimmedString u c = E.Right u
      <-> exists s, u = VStr s /\ trim s = s)
  /\ (t.validate TrimmedString u c = E.Right u
      \/ t.validate TrimmedString u c
         = E.Left [ {| t.value := u; t.context := c;
                       t.message := Some validationErrors.TrimmedString |} ]).
Proof.
  split; [|split].
  - intros s. apply TrimmedString_string. apply trim_idempotent.
  - unfold TrimmedString. rewrite branded_string. split.
    + destruct u; cbn; try discriminate.
      destruct (String.length (trim s) =? String.length s) eqn:Hs;
        [|discriminate].
      intros _. exists s. split; [reflexivity | now apply trimmed_iff].
    + intros (s & -> & Hs). cbn. now rewrite Hs, Nat.eqb_refl.
  - unfold TrimmedString. rewrite branded_string.
    destruct (onString _ u); [now left | now right].
Qed.

Lemma String64_accepts u c :
  t.validate String64 u c = E.Right u
  <-> exists s, u = VStr s /\ 0 < String.length s /\ trim s = s /\ String.length s <= 64.
Proof.
  split.
  - intros Hv. pose proof (String64_messages u c) as Hm.
    rewrite Hv in Hm. cbn [Report.messagesOf] in Hm. symmetry in Hm.
    checks_hold Hm.
    destruct (isString_VStr _ Hcheck) as [s ->]. cbn [onString] in *.
    unfold Report.nonEmpty, Report.trimmed, Report.atMost, Report.atLeast
      in *.
    exists s. split; [reflexivity|].
    apply Nat.ltb_lt in Hcheck0.
    apply trimmed_iff in Hcheck1.
    apply Nat.leb_le in Hm.
    auto.
  - intros (s & -> & H0 & Ht & H64). now apply String64_string.
Qed.

Lemma String64_returnsInput : Report.returnsInput String64.
Proof.
  unfold String64, NonEmptyTrimmedString, NonEmptyString, TrimmedString,
    Max64String.
  apply returnsInput_intersection. returns_input.
Qed.

(** X2: [String64]: the messages are those of the checks that fail, in the order
    type, empty, trimmed, length; it accepts exactly the non-empty trimmed
    strings of at most 64 code units and hands them back unchanged. *)
Theorem String64_complaints (u : jsval) (c : t.Context) :
  Report.messagesOf (t.validate String64 u c)
  = Report.complaint (Report.isString u) validationErrors.TypeString
    ++ Report.complaint (onString Report.nonEmpty u) validationErrors.NonEmptyString
    ++ Report.complaint (onString Report.trimmed u) validationErrors.TrimmedString
    ++ Report.complaint (onString (Report.atMost 64) u) validationErrors.TooLong
  /\ (t.validate String64 u c = E.Right u
      <-> exists s, u = VStr s /\ 0 < String.length s /\ trim s = s /\ String.length s <= 64)
  /\ (forall v, t.validate String64 u c = E.Right v -> v = u).
Proof.
  split; [apply String64_messages|]. split; [apply String64_accepts|].
  intros v. apply String64_returnsInput.
Qed.

Lemma Email_messages (isEmail : string -> bool) u c :
  Report.messagesOf (t.validate (Email isEmail) u c)
  = Report.complaint (Report.isString u) validationErrors.TypeString
    ++ Report.complaint (onString Report.nonEmpty u) validationErrors.NonEmptyString
    ++ Report.complaint (onString Report.trimmed u) validationErrors.TrimmedString
    ++ Report.complaint (onString (Report.atMost 64) u) validationErrors.TooLong
    ++ Report.complaint (onString isEmail u) validationErrors.EmailString.
Proof.
  unfold Email. rewrite intersection_messages.
  cbn [Report.memberMessages]. rewrite String64_messages.
  unfold EmailString. rewrite branded_messages.
  now rewrite app_nil_r, <- !app_assoc.
Qed.

Lemma Email_accepts (isEmail : string -> bool) u c :
  t.validate (Email isEmail) u c = E.Right u
  <-> exists s, u = VStr s /\ 0 < String.length s /\ trim s = s /\ String.length s <= 64
                  /\ isEmail s = true.
Proof.
  split.
  - intros Hv. pose proof (Email_messages isEmail u c) as Hm.
    rewrite Hv in Hm. cbn [Report.messagesOf] in Hm. symmetry in Hm.
    checks_hold Hm.
    destruct (isString_VStr _ Hcheck) as [s ->]. cbn [onString] in *.
    unfold Report.nonEmpty, Report.trimmed, Report.atMost, Report.atLeast
      in *.
    exists s. split; [reflexivity|].
    apply Nat.ltb_lt in Hcheck0.
    apply trimmed_iff in Hcheck1.
    apply Nat.leb_le in Hcheck2.
    auto.
  - intros (s & -> & H0 & Ht & H64 & Hmail). now apply Email_string.
Qed.

Lemma Email_returnsInput (isEmail : string -> bool) : Report.returnsInput (Email isEmail).
Proof.
  unfold Email, String64, NonEmptyTrimmedString, NonEmptyString,
    TrimmedString, Max64String, EmailString.
  apply returnsInput_intersection. returns_input.
Qed.

(** X3: [Email]: the checks of [String64], then the e-mail format. *)
Theorem Email_complaints (isEmail : string -> bool) (u : jsval) (c : t.Context) :
  Report.messagesOf (t.validate (Email isEmail) u c)
  = Report.complaint (Report.isString u) validationErrors.TypeString
    ++ Report.complaint (onString Report.nonEmpty u) validationErrors.NonEmptyString
    ++ Report.complaint (onString Report.trimmed u) validationErrors.TrimmedString
    ++ Report.complaint (onString (Report.atMost 64) u) validationErrors.TooLong
    ++ Report.complaint (onString isEmail u) validationErrors.EmailString
  /\ (t.validate (Email isEmail) u c = E.Right u
      <-> exists s, u = VStr s /\ 0 < String.length s /\ trim s = s /\ String.length s <= 64
                  /\ isEmail s = true)
  /\ (forall v, t.validate (Email isEmail) u c = E.Right v -> v = u).
Proof.
  split; [apply Email_messages|]. split; [apply Email_accepts|].
  intros v. apply Email_returnsInput.
Qed.

Lemma Password_messages u c :
  Report.messagesOf (t.validate Password u c)
  = Report.complaint (Report.isString u) validationErrors.TypeString
    ++ Report.complaint (onString Report.nonEmpty u) validationErrors.NonEmptyString
    ++ Report.complaint (onString Report.trimmed u) validationErrors.TrimmedString
    ++ Report.complaint (onString (Report.atMost 512) u) validationErrors.TooLong
    ++ Report.complaint (onString (Report.atLeast 4) u) validationErrors.TooShort.
Proof.
  unfold Password. rewrite intersection_messages.
  cbn [Report.memberMessages]. rewrite String512_messages.
  unfold Min4String. rewrite branded_messages.
  now rewrite app_nil_r, <- !app_assoc.
Qed.

Lemma Password_accepts u c :
  t.validate Password u c = E.Right u
  <-> exists s, u = VStr s /\ trim s = s /\ 4 <= String.length s <= 512.
Proof.
  split.
  - intros Hv. pose proof (Password_messages u c) as Hm.
    rewrite Hv in Hm. cbn [Report.messagesOf] in Hm. symmetry in Hm.
    checks_hold Hm.
    destruct (isString_VStr _ Hcheck) as [s ->]. cbn [onString] in *.
    unfold Report.nonEmpty, Report.trimmed, Report.atMost, Report.atLeast
      in *.
    exists s. split; [reflexivity|].
    apply trimmed_iff in Hcheck1.
    apply Nat.leb_le in Hcheck2.
    apply Nat.leb_le in Hm.
    auto.
  - intros (s & -> & Ht & Hmin & Hmax). now apply Password_string.
Qed.

Lemma Password_returnsInput : Report.returnsInput Password.
Proof.
  unfold Password, String512, NonEmptyTrimmedString, NonEmptyString,
    TrimmedString, Max512String, Min4String.
  apply returnsInput_intersection. returns_input.
Qed.

(** X4: [Password]: type, empty, trimmed, at most 512, at least 4; it accepts
    exactly the trimmed strings of 4 to 512 code units. *)
Theorem Password_complaints (u : jsval) (c : t.Context) :
  Report.messagesOf (t.validate Password u c)
  = Report.complaint (Report.isString u) validationErrors.TypeString
    ++ Report.complaint (onString Report.nonEmpty u) validationErrors.NonEmptyString
    ++ Report.complaint (onString Report.trimmed u) validationErrors.TrimmedString
    ++ Report.complaint (onString (Report.atMost 512) u) validationErrors.TooLong
    ++ Report.complaint (onString (Report.atLeast 4) u) validationErrors.TooShort
  /\ (t.validate Password u c = E.Right u
      <-> exists s, u = VStr s /\ trim s = s /\ 4 <= String.length s <= 512)
  /\ (forall v, t.validate Password u c = E.Right v -> v = u).
Proof.
  split; [apply Password_messages|]. split; [apply Password_accepts|].
  intros v. apply Password_returnsInput.
Qed.

Lemma Phone_messages (isMobilePhone : string -> bool) u c :
  Report.messagesOf (t.validate (Phone isMobilePhone) u c)
  = Report.complaint (Report.isString u) validationErrors.TypeString
    ++ Report.complaint (onString Report.nonEmpty u) validationErrors.NonEmptyString
    ++ Report.complaint (onString Report.trimmed u) validationErrors.TrimmedString
    ++ Report.complaint (onString isMobilePhone u) validationErrors.PhoneString.
Proof.
  unfold Phone. rewrite intersection_messages.
  cbn [Report.memberMessages]. rewrite NonEmptyTrimmedString_messages.
  unfold PhoneString. rewrite branded_messages.
  now rewrite app_nil_r, <- !app_assoc.
Qed.

Lemma Phone_accepts (isMobilePhone : string -> bool) u c :
  t.validate (Phone isMobilePhone) u c = E.Right u
  <-> exists s, u = VStr s /\ 0 < String.length s /\ trim s = s /\ isMobilePhone s = true.
Proof.
  split.
  - intros Hv. pose proof (Phone_messages isMobilePhone u c) as Hm.
    rewrite Hv in Hm. cbn [Report.messagesOf] in Hm. symmetry in Hm.
    checks_hold Hm.
    destruct (isString_VStr _ Hcheck) as [s ->]. cbn [onString] in *.
    unfold Report.nonEmpty, Report.trimmed, Report.atMost, Report.atLeast
      in *.
    exists s. split; [reflexivity|].
    apply Nat.ltb_lt in Hcheck0.
    apply trimmed_iff in Hcheck1.
    auto.
  - intros (s & -> & H0 & Ht & Hphone). now apply Phone_string.
Qed.

Lemma Phone_returnsInput (isMobilePhone : string -> bool) : Report.returnsInput (Phone isMobilePhone).
Proof.
  unfold Phone, NonEmptyTrimmedString, NonEmptyString, TrimmedString,
    PhoneString.
  apply returnsInput_intersection. returns_input.
Qed.

(** X5: [Phone]: type, empty, trimmed, then the phone format. *)
Theorem Phone_complaints (isMobilePhone : string -> bool) (u : jsval) (c : t.Context) :
  Report.messagesOf (t.validate (Phone isMobilePhone) u c)
  = Report.complaint (Report.isString u) validationErrors.TypeString
    ++ Report.complaint (onString Report.nonEmpty u) validationErrors.NonEmptyString
    ++ Report.complaint (onString Report.trimmed u) validationErrors.TrimmedString
    ++ Report.complaint (onString isMobilePhone u) validationErrors.PhoneString
  /\ (t.validate (Phone isMobilePhone) u c = E.Right u
      <-> exists s, u = VStr s /\ 0 < String.length s /\ trim s = s /\ isMobilePhone s = true)
  /\ (forall v, t.validate (Phone isMobilePhone) u c = E.Right v -> v = u).
Proof.
  split; [apply Phone_messages|]. split; [apply Phone_accepts|].
  intros v. apply Phone_returnsInput.
Qed.

(** ** Object codecs, continued *)

Lemma strict_eq_undefined v : strict_eq v VUndefined = true -> v = VUndefined.
Proof. destruct v; simpl; congruence. Qed.

Lemma type_loop_returns_input ps : forall c (a : object) errors,
  Forall (fun p => Report.returnsInput (snd p)) ps ->
  Forall (fun p => Report.rejectsUndefined (snd p)) ps ->
  fst (t.type_loop ps c a errors) = a.
Proof.
  induction ps as [|[k type_k] rest IH]; intros c a errors Hret Hund;
    [reflexivity|].
  inversion Hret as [|? ? Hk Hrest]; subst.
  inversion Hund as [|? ? Hu Hurest]; subst.
  cbn [t.type_loop]. cbn [snd] in Hk, Hu.
  destruct (t.validate type_k (get k a) (t.appendContext c k (get k a)))
    as [e|vak] eqn:Hv; [now apply IH|].
  pose proof (Hk _ _ _ Hv) as ->.
  rewrite strict_eq_refl. cbn [negb orb].
  destruct (strict_eq (get k a) VUndefined) eqn:Hundef; [|now apply IH].
  apply strict_eq_undefined in Hundef. rewrite Hundef in Hv.
  specialize (Hu (t.appendContext c k VUndefined)). rewrite Hv in Hu.
  discriminate.
Qed.

Lemma type_validate_object (codec : t.TypeC) (o : object) c :
  NoDup (keys (t.props codec)) ->
  t.validate codec (VObj o) c
  = match Spec.fieldFailures (t.props codec) o c with
    | [] => E.Right (VObj (fst (t.type_loop (t.props codec) c o [])))
    | errs => E.Left errs
    end.
Proof.
  intros Hnd. cbn.
  pose proof (@type_loop_failures (t.props codec) c o o [] Hnd
                (fun _ _ => eq_refl)) as Hloop.
  destruct (t.type_loop (t.props codec) c o []) as [a errors].
  simpl in *. subst errors.
  destruct (Spec.fieldFailures (t.props codec) o c); reflexivity.
Qed.

Lemma fieldFailures_nil_member ps : forall (o : object) c k ty,
  Spec.fieldFailures ps o c = [] ->
  In (k, ty) ps ->
  Report.messagesOf (t.validate ty (get k o) (Spec.fieldContext c k o)) = [].
Proof.
  induction ps as [|[k' ty'] rest IH]; intros o c k ty Hnil Hin;
    [destruct Hin|].
  cbn [Spec.fieldFailures] in Hnil.
  destruct Hin as [Heq|Hin].
  - inversion Heq; subst.
    destruct (t.validate ty (get k o) (Spec.fieldContext c k o)) as [e|v];
      [|reflexivity].
    apply app_eq_nil in Hnil. destruct Hnil as [-> _]. reflexivity.
  - apply IH; [|exact Hin].
    destruct (t.validate ty' (get k' o) (Spec.fieldContext c k' o));
      [|exact Hnil].
    now apply app_eq_nil in Hnil.
Qed.

Lemma find_skips (k : string) block : forall rest,
  Forall (fun e => Spec.isAbout k e = false) block ->
  find (Spec.isAbout k) (block ++ rest) = find (Spec.isAbout k) rest.
Proof.
  induction block as [|e es IH]; intros rest Hall; [reflexivity|].
  inversion Hall as [|? ? He Hes]; subst. simpl. rewrite He. now apply IH.
Qed.

Lemma find_about_member ps : forall (o : object) r k ty,
  NoDup (keys ps) ->
  Forall (fun p => Spec.reportsBelow (snd p)) ps ->
  In (k, ty) ps ->
  option_map t.message (find (Spec.isAbout k) (Spec.fieldFailures ps o [r]))
  = hd_error
      (Report.messagesOf (t.validate ty (get k o) (Spec.fieldContext [r] k o))).
Proof.
  induction ps as [|[k' ty'] rest IH]; intros o r k ty Hnd Hall Hin;
    [destruct Hin|].
  inversion Hnd as [|? ? Hk' Hndrest]; subst.
  inversion Hall as [|? ? Hck Hcrest]; subst. cbn [snd] in Hck.
  cbn [Spec.fieldFailures].
  destruct Hin as [Heq|Hin].
  - inversion Heq; subst. clear Heq.
    destruct (t.validate ty (get k o) (Spec.fieldContext [r] k o))
      as [e|v] eqn:Hv.
    + destruct (Hck _ _ _ Hv) as [Hne Hbelow].
      destruct e as [|e0 es]; [contradiction|].
      inversion Hbelow as [|? ? [tail He0] _]; subst.
      cbn [app find Report.messagesOf map hd_error].
      unfold Spec.isAbout, Spec.fieldOf. rewrite He0. cbn.
      now rewrite String.eqb_refl.
    + cbn [Report.messagesOf hd_error].
      pose proof (fieldFailures_fields o r Hcrest) as Hfields.
      destruct (find (Spec.isAbout k) (Spec.fieldFailures rest o [r]))
        as [e|] eqn:Hfind; [|reflexivity].
      apply find_some in Hfind. destruct Hfind as [Hine Habout].
      rewrite Forall_forall in Hfields.
      destruct (Hfields e Hine) as (k2 & Hk2 & He).
      unfold Spec.isAbout in Habout. rewrite He in Habout.
      apply String.eqb_eq in Habout. subst k2. contradiction.
  - assert (Hne : k <> k').
    { intros ->. apply Hk'. unfold keys.
      change k' with (fst (k', ty)). now apply in_map. }
    destruct (t.validate ty' (get k' o) (Spec.fieldContext [r] k' o))
      as [e|v] eqn:Hv; [|now apply IH].
    rewrite find_skips; [now apply IH|].
    destruct (Hck _ _ _ Hv) as [_ Hbelow].
    eapply Forall_impl; [|exact Hbelow].
    intros x [tail Hx]. unfold Spec.isAbout, Spec.fieldOf. rewrite Hx. cbn.
    now apply String.eqb_neq.
Qed.

(** The entry of a declared field after [validate]. *)
Lemma lookup_formErrors_after_validate (f : Form) (k : string) (ty : t.Mixed) :
  NoDup (keys (t.props (codec f))) ->
  Forall (fun p => Spec.reportsBelow (snd p)) (t.props (codec f)) ->
  In (k, ty) (t.props (codec f)) ->
  isInherited k = false ->
  lookup k (formErrors (fst (validate f)))
  = hd_error
      (Report.messagesOf
         (t.validate ty (get k (state f))
            (Spec.fieldContext (Spec.root (VObj (state f))) k (state f)))).
Proof.
  intros Hnd Hbelow Hin Hk.
  pose proof (@type_validate_object (codec f) (state f)
                (Spec.root (VObj (state f))) Hnd) as Hval.
  destruct (Spec.fieldFailures (t.props (codec f)) (state f)
              (Spec.root (VObj (state f)))) as [|e0 es] eqn:Hff.
  - rewrite (validate_accepting f Hval). cbn [fst formErrors setFormErrors lookup].
    now rewrite (@fieldFailures_nil_member _ _ _ _ _ Hff Hin).
  - destruct (@fieldFailures_about (t.props (codec f)) (state f)
                {| t.key := ""; t.actual := VObj (state f) |} [] Hnd Hbelow
                (fun _ _ => eq_refl)) as [Hok _].
    unfold Spec.root in Hff. rewrite Hff in Hok.
    destruct (@reduce_projectStep_total (e0 :: es) [] Hok) as [fe Hproj].
    destruct (validate_rejecting f Hval Hproj) as (-> & _).
    rewrite (@reduce_projectStep_lookup _ _ _ _ Hproj Hk). cbn [lookup].
    rewrite <- Hff. now apply find_about_member.
Qed.

(** ** What a field shows after [validate] *)

(** X7: After [validate], the entry in [FormErrors] of a declared field whose
    name [Object.prototype] does not define is the message of the first
    failure of the field's own codec on the field's own value, and there is
    no entry when that codec accepts: the fields are judged independently.
    The descriptor follows: [isInvalid] tells whether the codec rejects,
    [error] is that first message. *)
Theorem field_entry_is_first_failure_of_its_codec
  (isEmail isMobilePhone : string -> bool) (f : Form)
  (k : string) (ty : t.Mixed) :
  NoDup (keys (t.props (codec f))) ->
  Forall (fun p => Spec.reportsBelow (snd p)) (t.props (codec f)) ->
  In (k, ty) (t.props (codec f)) ->
  isInherited k = false ->
  lookup k (formErrors (fst (validate f)))
  = hd_error
      (Report.messagesOf
         (t.validate ty (get k (state f))
            (Spec.fieldContext (Spec.root (VObj (state f))) k (state f))))
  /\ exists fld,
       lookup k (fields isEmail isMobilePhone (fst (validate f))) = Some fld
       /\ isInvalid fld
          = E.isLeft
              (t.validate ty (get k (state f))
                 (Spec.fieldContext (Spec.root (VObj (state f))) k (state f)))
       /\ error fld
          = VStr match
                   hd_error
                     (Report.messagesOf
                        (t.validate ty (get k (state f))
                           (Spec.fieldContext (Spec.root (VObj (state f))) k
                              (state f))))
                 with
                 | Some (Some m) => m
                 | _ => ""
                 end.
Proof.
  intros Hnd Hbelow Hin Hk.
  pose proof (@lookup_formErrors_after_validate f k _ Hnd Hbelow Hin Hk)
    as Hlook.
  split; [exact Hlook|].
  destruct (validate_frame f) as (Hc & _).
  eexists. split.
  - apply fields_lookup; rewrite Hc; eassumption.
  - cbn [isInvalid error].
    rewrite errorOf_spec, hasProperty_plain, has_lookup, Hlook by exact Hk.
    split; [|reflexivity].
    rewrite Forall_forall in Hbelow. specialize (Hbelow _ Hin). cbn in Hbelow.
    destruct (t.validate ty (get k (state f)) _) as [e|v] eqn:Hv;
      [|reflexivity].
    destruct (Hbelow _ _ _ Hv) as [Hne _].
    destruct e; [contradiction | reflexivity].
Qed.

(** X8: A checkbox field whose name [Object.prototype] does not define and
    whose value is not a boolean, a missing property included, is flagged
    invalid with no message: [t.boolean] has none, so the entry holds
    [undefined] and the descriptor shows the empty string. *)
Theorem invalid_checkbox_shows_no_message
  (isEmail isMobilePhone : string -> bool) (f : Form) (k : string) :
  NoDup (keys (t.props (codec f))) ->
  Forall (fun p => Spec.reportsBelow (snd p)) (t.props (codec f)) ->
  In (k, t.boolean) (t.props (codec f)) ->
  isInherited k = false ->
  (forall b, get k (state f) <> VBool b) ->
  lookup k (formErrors (fst (validate f))) = Some None
  /\ exists fld,
       lookup k (fields isEmail isMobilePhone (fst (validate f))) = Some fld
       /\ isInvalid fld = true
       /\ error fld = VStr "".
Proof.
  intros Hnd Hbelow Hin Hk Hnb.
  pose proof (@lookup_formErrors_after_validate f k _ Hnd Hbelow Hin Hk)
    as Hlook.
  assert (Hmsg : Report.messagesOf
                   (t.validate t.boolean (get k (state f))
                      (Spec.fieldContext (Spec.root (VObj (state f))) k (state f)))
                 = [None]).
  { destruct (get k (state f)) as [| |b| | | |] eqn:Hg; try reflexivity.
    now destruct (Hnb b). }
  rewrite Hmsg in Hlook. cbn in Hlook. split; [exact Hlook|].
  destruct (validate_frame f) as (Hc & _).
  eexists. split.
  - apply fields_lookup; rewrite Hc; eassumption.
  - cbn [isInvalid error].
    now rewrite errorOf_spec, hasProperty_plain, has_lookup, Hlook by exact Hk.
Qed.

(** ** [SignUpForm] *)

Lemma SignUpForm_NoDup isEmail isMobilePhone :
  NoDup (keys (t.props (SignUpForm isEmail isMobilePhone))).
Proof. cbn. repeat constructor; cbn; intuition discriminate. Qed.

Lemma SignUpForm_returnsInput isEmail isMobilePhone :
  Forall (fun p => Report.returnsInput (snd p))
    (t.props (SignUpForm isEmail isMobilePhone)).
Proof.
  cbn [t.props SignUpForm].
  repeat apply Forall_cons; try apply Forall_nil; cbn [snd];
    auto using String64_returnsInput, Email_returnsInput,
      Password_returnsInput, Phone_returnsInput, returnsInput_boolean.
Qed.

Lemma SignUpForm_rejectsUndefined isEmail isMobilePhone :
  Forall (fun p => Report.rejectsUndefined (snd p))
    (t.props (SignUpForm isEmail isMobilePhone)).
Proof.
  cbn [t.props SignUpForm].
  repeat apply Forall_cons; try apply Forall_nil; cbn [snd];
    intros c; reflexivity.
Qed.

Lemma accepted_member (ty : t.Mixed) u c :
  Spec.failsWithSome ty -> Report.returnsInput ty ->
  Report.messagesOf (t.validate ty u c) = [] ->
  t.validate ty u c = E.Right u.
Proof.
  intros Hsome Hret Hm.
  destruct (t.validate ty u c) as [[|e es]|x] eqn:Hv.
  - now destruct (Hsome u c).
  - discriminate Hm.
  - now rewrite (Hret _ _ _ Hv).
Qed.

Lemma boolean_accepts u c :
  t.validate t.boolean u c = E.Right u <-> exists b, u = VBool b.
Proof.
  split.
  - destruct u; cbn; try discriminate. eauto.
  - now intros [b ->].
Qed.

Lemma boolean_failsWithSome : Spec.failsWithSome t.boolean.
Proof. intros u c. destruct u; discriminate. Qed.

(** X6: [SignUpForm] accepts exactly the objects whose five properties pass
    their checks, and hands the object back as it is: nothing is converted,
    and properties the codec does not declare are kept.  A value that is not
    an object, or that lacks one of the five properties, is rejected. *)
Theorem SignUpForm_accepts_the_object_as_it_is
  (isEmail isMobilePhone : string -> bool) (u : jsval) :
  (forall v,
     t.decode (SignUpForm isEmail isMobilePhone) u = E.Right v -> v = u)
  /\ (t.decode (SignUpForm isEmail isMobilePhone) u = E.Right u
      <-> exists o,
            u = VObj o
            /\ (exists s, get "company" o = VStr s /\ 0 < String.length s
                           /\ trim s = s /\ String.length s <= 64)
            /\ (exists s, get "email" o = VStr s /\ 0 < String.length s
                           /\ trim s = s /\ String.length s <= 64
                           /\ isEmail s = true)
            /\ (exists s, get "password" o = VStr s /\ trim s = s
                           /\ 4 <= String.length s <= 512)
            /\ (exists s, get "phone" o = VStr s /\ 0 < String.length s
                           /\ trim s = s /\ isMobilePhone s = true)
            /\ (exists b, get "sendNewsletter" o = VBool b))
  /\ (forall o k,
        In k (keys (t.props (SignUpForm isEmail isMobilePhone))) ->
        has k o = false ->
        E.isLeft (t.decode (SignUpForm isEmail isMobilePhone) (VObj o)) = true).
Proof.
  pose proof (SignUpForm_NoDup isEmail isMobilePhone) as Hnd.
  assert (Hasis : forall o v,
    t.decode (SignUpForm isEmail isMobilePhone) (VObj o) = E.Right v ->
    v = VObj o).
  { intros o v. unfold t.decode. rewrite type_validate_object by exact Hnd.
    destruct (Spec.fieldFailures _ _ _); [|discriminate].
    rewrite type_loop_returns_input;
      [ now inversion 1
      | apply SignUpForm_returnsInput
      | apply SignUpForm_rejectsUndefined ]. }
  assert (Hiff : forall o,
    t.decode (SignUpForm isEmail isMobilePhone) (VObj o) = E.Right (VObj o)
    <-> Spec.fieldFailures (t.props (SignUpForm isEmail isMobilePhone)) o
          (Spec.root (VObj o)) = []).
  { intros o. unfold t.decode. rewrite type_validate_object by exact Hnd.
    fold (Spec.root (VObj o)).
    destruct (Spec.fieldFailures _ _ _) eqn:Hff; [|split; discriminate].
    rewrite type_loop_returns_input;
      [ tauto
      | apply SignUpForm_returnsInput
      | apply SignUpForm_rejectsUndefined ]. }
  assert (Hfwd : forall o,
    t.decode (SignUpForm isEmail isMobilePhone) (VObj o) = E.Right (VObj o) ->
    (exists s, get "company" o = VStr s /\ 0 < String.length s
               /\ trim s = s /\ String.length s <= 64)
    /\ (exists s, get "email" o = VStr s /\ 0 < String.length s
                  /\ trim s = s /\ String.length s <= 64
                  /\ isEmail s = true)
    /\ (exists s, get "password" o = VStr s /\ trim s = s
                  /\ 4 <= String.length s <= 512)
    /\ (exists s, get "phone" o = VStr s /\ 0 < String.length s
                  /\ trim s = s /\ isMobilePhone s = true)
    /\ (exists b, get "sendNewsletter" o = VBool b)).
  { intros o Hv. apply Hiff in Hv.
    assert (Hmem : forall k ty,
      In (k, ty) (t.props (SignUpForm isEmail isMobilePhone)) ->
      Report.messagesOf
        (t.validate ty (get k o) (Spec.fieldContext (Spec.root (VObj o)) k o))
      = []) by (intros k ty; now apply fieldFailures_nil_member).
    repeat split.
    - apply (String64_accepts (get "company" o)
               (Spec.fieldContext (Spec.root (VObj o)) "company" o)).
      apply accepted_member;
        [ apply intersection_failsWithSome | apply String64_returnsInput
        | apply Hmem; cbn; auto ].
    - apply (Email_accepts isEmail (get "email" o)
               (Spec.fieldContext (Spec.root (VObj o)) "email" o)).
      apply accepted_member;
        [ apply intersection_failsWithSome | apply Email_returnsInput
        | apply Hmem; cbn; auto ].
    - apply (Password_accepts (get "password" o)
               (Spec.fieldContext (Spec.root (VObj o)) "password" o)).
      apply accepted_member;
        [ apply intersection_failsWithSome | apply Password_returnsInput
        | apply Hmem; cbn; auto ].
    - apply (Phone_accepts isMobilePhone (get "phone" o)
               (Spec.fieldContext (Spec.root (VObj o)) "phone" o)).
      apply accepted_member;
        [ apply intersection_failsWithSome | apply Phone_returnsInput
        | apply Hmem; cbn; auto ].
    - apply (boolean_accepts (get "sendNewsletter" o)
               (Spec.fieldContext (Spec.root (VObj o)) "sendNewsletter" o)).
      apply accepted_member;
        [ apply boolean_failsWithSome | apply returnsInput_boolean
        | apply Hmem; cbn; auto 6 ]. }
  assert (Hinherited : forall nm v,
    t.decode (SignUpForm isEmail isMobilePhone) (VInherited nm) <> E.Right v).
  { intros nm v Hv. unfold t.decode in Hv. cbn in Hv.
    destruct (String.eqb nm "__proto__"); discriminate Hv. }
  split; [|split].
  - intros v Hv. destruct u as [| | | | |o|nm]; try discriminate Hv.
    + now apply Hasis.
    + now destruct (Hinherited nm v).
  - split.
    + intros Hv. destruct u as [| | | | |o|nm]; try discriminate Hv.
      * exists o. split; [reflexivity | now apply Hfwd].
      * now destruct (Hinherited nm _ Hv).
    + intros (o & -> & Hcompany & Hemail & Hpassword & Hphone & Hnews).
      apply Hiff. cbn [Spec.fieldFailures t.props SignUpForm].
      apply (String64_accepts _
               (Spec.fieldContext (Spec.root (VObj o)) "company" o))
        in Hcompany.
      apply (Email_accepts isEmail _
               (Spec.fieldContext (Spec.root (VObj o)) "email" o)) in Hemail.
      apply (Password_accepts _
               (Spec.fieldContext (Spec.root (VObj o)) "password" o))
        in Hpassword.
      apply (Phone_accepts isMobilePhone _
               (Spec.fieldContext (Spec.root (VObj o)) "phone" o)) in Hphone.
      apply (boolean_accepts _
               (Spec.fieldContext (Spec.root (VObj o)) "sendNewsletter" o))
        in Hnews.
      now rewrite Hcompany, Hemail, Hpassword, Hphone, Hnews.
  - intros o k Hin Hmissing.
    destruct (t.decode (SignUpForm isEmail isMobilePhone) (VObj o))
      as [e|v] eqn:Hv; [reflexivity|].
    pose proof (Hasis _ _ Hv) as ->. apply Hfwd in Hv.
    assert (Hget : get k o = VUndefined).
    { unfold get, getProperty. rewrite has_lookup in Hmissing.
      destruct (lookup k o); [discriminate|]. cbn in Hin.
      destruct Hin as [<-|[<-|[<-|[<-|[<-|[]]]]]]; reflexivity. }
    destruct Hv as ((s1 & H1 & _) & (s2 & H2 & _) & (s3 & H3 & _)
                    & (s4 & H4 & _) & (b & H5)).
    cbn in Hin.
    destruct Hin as [<-|[<-|[<-|[<-|[<-|[]]]]]]; congruence.
Qed.

(** ** Focus *)

(** X9: When the decode fails, some field is recorded in [FormErrors] and the
    inputs of all recorded fields are mounted, [validate] returns the
    failures and calls [focus] once, on the input that comes first in
    document order among the recorded fields. *)
Theorem validate_focuses_first_invalid_field
  (f : Form) (errs : t.Errors) (fe : FormErrors) :
  t.decode (codec f) (VObj (state f)) = E.Left errs ->
  errorsToFormErrors errs = Normal fe ->
  fe <> [] ->
  Forall (mounted (refsRef f)) (keys fe) ->
  exists k p,
    In k (keys fe)
    /\ lookup k (refsRef f) = Some {| current := CElement p |}
    /\ (forall k' q,
          In k' (keys fe) ->
          lookup k' (refsRef f) = Some {| current := CElement q |} ->
          p <= q)
    /\ focusCalls (fst (validate f)) = CElement p :: focusCalls f
    /\ formErrors (fst (validate f)) = fe
    /\ snd (validate f) = Normal (E.Left errs).
Proof.
  intros Hdec Hproj Hne Hall.
  destruct (@focusFirstInvalidField_least fe (setFormErrors fe f) Hne Hall)
    as (k & p & Hk & Hlook & Hleast & Hf').
  exists k, p. repeat split; try assumption;
    unfold validate, onFail; rewrite Hdec; cbn [E.fold]; rewrite Hproj, Hf';
    reflexivity.
Qed.

(** X10: When the inputs of the fields recorded in [FormErrors] are not mounted
    (their refs hold [undefined] or [null]): with one recorded field
    [validate] returns the failures and focuses nothing; with two or more,
    or with none, it raises a TypeError, after having stored the
    [FormErrors]. *)
Theorem validate_with_unmounted_invalid_fields
  (f : Form) (errs : t.Errors) (fe : FormErrors) :
  t.decode (codec f) (VObj (state f)) = E.Left errs ->
  errorsToFormErrors errs = Normal fe ->
  Forall
    (fun k => exists r, lookup k (refsRef f) = Some r /\ Report.holdsNothing r)
    (keys fe) ->
  formErrors (fst (validate f)) = fe
  /\ focusCalls (fst (validate f)) = focusCalls f
  /\ (length fe = 1 -> snd (validate f) = Normal (E.Left errs))
  /\ (2 <= length fe -> snd (validate f) = Throw TypeError)
  /\ (length fe = 0 -> snd (validate f) = Throw TypeError).
Proof.
  intros Hdec Hproj Hall.
  destruct (validate_rejecting f Hdec Hproj) as (Hfe & _).
  split; [exact Hfe|].
  assert (Hcases : length fe = 1 \/ 2 <= length fe \/ length fe = 0) by lia.
  unfold validate, onFail. rewrite Hdec. cbn [E.fold]. rewrite Hproj.
  destruct Hcases as [H1|[H2|H0]].
  - destruct fe as [|[k m] [|]]; try discriminate H1.
    inversion Hall as [|? ? (r & Hr & Hn) _]; subst.
    rewrite (@focusFirstInvalidField_one_unmounted k m
               (setFormErrors [(k, m)] f) r Hr Hn).
    cbn. repeat split; intros; try reflexivity; lia.
  - rewrite focusFirstInvalidField_unmounted; [|exact H2 | exact Hall].
    cbn. repeat split; intros; try reflexivity; lia.
  - destruct fe; [|discriminate H0]. cbn.
    repeat split; intros; try reflexivity; cbn in *; lia.
Qed.

(** X11: [validate] only ever writes [formErrors] and calls [focus]: the codec,
    the initial value, the current value and the refs stay as they were.  It
    focuses nothing when the decode succeeds, and otherwise at most one
    thing, which is what the ref of an invalid field holds. *)
Theorem validate_writes_errors_and_focus_only (f : Form) :
  codec (fst (validate f)) = codec f
  /\ initialStateRef (fst (validate f)) = initialStateRef f
  /\ state (fst (validate f)) = state f
  /\ refsRef (fst (validate f)) = refsRef f
  /\ (E.isLeft (t.decode (codec f) (VObj (state f))) = false ->
      focusCalls (fst (validate f)) = focusCalls f)
  /\ (focusCalls (fst (validate f)) = focusCalls f
      \/ exists k r,
           has k (formErrors (fst (validate f))) = true
           /\ lookup k (refsRef f) = Some r
           /\ canFocus (current r) = true
           /\ focusCalls (fst (validate f)) = current r :: focusCalls f).
Proof.
  destruct (validate_frame f) as (Hc & Hi & Hs & Hr).
  repeat (split; [assumption|]).
  unfold validate, onFail.
  destruct (t.decode (codec f) (VObj (state f))) as [errs|v]; cbn [E.fold E.isLeft].
  - split; [discriminate|].
    destruct (errorsToFormErrors errs) as [fe|e]; [|now left].
    unfold focusFirstInvalidField, sort. cbn [refsRef setFormErrors].
    destruct (sortDefined byDocumentPosition _) as [s|] eqn:Hsort;
      [|now left].
    cbn [bind].
    destruct (map Some s ++ undefineds _) as [|[r|] rest] eqn:Hsorted;
      [now left| |now left].
    destruct (canFocus (current r)) eqn:Hcan; [|now left].
    right. assert (Hin : In (Some r) (map Some s ++ undefineds
             (map (refAt (refsRef f)) (keys fe))))
      by (rewrite Hsorted; now left).
    apply sorted_defined in Hin.
    apply (@sortDefined_In _ _ _ _ Hsort) in Hin.
    apply entries_defined in Hin. destruct Hin as (k & Hk & Hlook).
    apply refAt_canFocus in Hlook; [|exact Hcan].
    exists k, r. cbn. repeat split; try assumption.
    now apply has_In.
  - split; [reflexivity | now left].
Qed.

(** ** Descriptors, edits and refs *)

Section FoldSetFacts.
Variable B : Type.
Variable g : string * t.Mixed -> B.

Let add (acc : list (string * B)) (p : string * t.Mixed) :=
  set (fst p) (g p) acc.

Lemma fold_set_keys ps : forall acc,
  NoDup (keys ps) ->
  (forall k, In k (keys ps) -> has k acc = false) ->
  propertyOrder (keys acc ++ keys ps) ->
  keys (fold_left add ps acc) = keys acc ++ keys ps.
Proof.
  induction ps as [|[k ty] rest IH]; intros acc Hnd Hfresh Hord; simpl.
  - now rewrite app_nil_r.
  - inversion Hnd as [|? ? Hk Hrest]; subst.
    assert (Hlast : set k (g (k, ty)) acc = acc ++ [(k, g (k, ty))]).
    { apply set_new; [apply Hfresh; now left|].
      eapply propertyOrder_app_last. exact Hord. }
    unfold add at 2. cbn [fst]. rewrite Hlast.
    rewrite IH; [|exact Hrest| |].
    + unfold keys. rewrite map_app, <- app_assoc. reflexivity.
    + intros k' Hin. rewrite <- Hlast, has_set_other.
      * apply Hfresh. now right.
      * intros ->. contradiction.
    + unfold keys in *. rewrite map_app, <- app_assoc. exact Hord.
Qed.

Lemma fold_set_origin ps : forall acc k b,
  lookup k (fold_left add ps acc) = Some b ->
  (exists p, In p ps /\ fst p = k /\ b = g p) \/ lookup k acc = Some b.
Proof.
  induction ps as [|p rest IH]; intros acc k b Hb; simpl in Hb; [now right|].
  destruct (IH _ _ _ Hb) as [(q & Hq & Hk & ->)|Hacc].
  - left. exists q. split; [now right | auto].
  - unfold add in Hacc. destruct (String.eqb_spec k (fst p)) as [->|Hne].
    + rewrite lookup_set_same in Hacc. inversion Hacc; subst.
      left. exists p. split; [now left | auto].
    + rewrite lookup_set_other in Hacc by exact Hne. now right.
Qed.
End FoldSetFacts.

Lemma fold_set_constant (B : Type) (d : B) ks : forall acc k,
  lookup k (fold_left (fun acc key => set key d acc) ks acc)
  = if existsb (String.eqb k) ks then Some d else lookup k acc.
Proof.
  induction ks as [|k0 rest IH]; intros acc k; simpl; [reflexivity|].
  rewrite IH. destruct (existsb (String.eqb k) rest).
  - now rewrite orb_true_r.
  - rewrite orb_false_r. destruct (String.eqb_spec k k0) as [->|Hne].
    + apply lookup_set_same.
    + now apply lookup_set_other.
Qed.

Lemma fold_set_constant_keys (B : Type) (d : B) ks : forall acc,
  NoDup ks -> (forall k, In k ks -> has k acc = false) ->
  propertyOrder (keys acc ++ ks) ->
  keys (fold_left (fun acc key => set key d acc) ks acc) = keys acc ++ ks.
Proof.
  induction ks as [|k0 rest IH]; intros acc Hks Hfresh Hord; simpl.
  - now rewrite app_nil_r.
  - inversion Hks as [|? ? Hk0 Hrest]; subst.
    assert (Hlast : set k0 d acc = acc ++ [(k0, d)]).
    { apply set_new; [apply Hfresh; now left|].
      eapply propertyOrder_app_last. exact Hord. }
    rewrite Hlast. rewrite IH; [|exact Hrest| |].
    + unfold keys. rewrite map_app, <- app_assoc. reflexivity.
    + intros k' Hin. rewrite <- Hlast, has_set_other.
      * apply Hfresh. now right.
      * intros ->. contradiction.
    + unfold keys in *. rewrite map_app, <- app_assoc. exact Hord.
Qed.

(** X12: [fields] holds one descriptor per declared field, in the order of
    [Object.keys(codec.props)].  For a field whose name [Object.prototype]
    does not define, [isInvalid] tells whether [FormErrors] has the name and
    [error] is its message or the empty string, so with an empty
    [FormErrors] (a fresh form, or one whose last validation succeeded) such
    a field is not invalid and shows no error.  A field whose name
    [Object.prototype] defines always reads invalid. *)
Theorem fields_cover_the_declared_fields
  (isEmail isMobilePhone : string -> bool) (f : Form) :
  NoDup (keys (t.props (codec f))) ->
  propertyOrder (keys (t.props (codec f))) ->
  keys (fields isEmail isMobilePhone f) = keys (t.props (codec f))
  /\ (forall k fld,
        lookup k (fields isEmail isMobilePhone f) = Some fld ->
        isInherited k = false ->
        isInvalid fld = has k (formErrors f)
        /\ error fld
           = VStr match lookup k (formErrors f) with
                  | Some (Some m) => m
                  | _ => ""
                  end)
  /\ (formErrors f = [] ->
      forall k fld,
        lookup k (fields isEmail isMobilePhone f) = Some fld ->
        isInherited k = false ->
        isInvalid fld = false /\ error fld = VStr "")
  /\ (forall k fld,
        lookup k (fields isEmail isMobilePhone f) = Some fld ->
        isInherited k = true ->
        isInvalid fld = true).
Proof.
  intros Hnd Hord.
  assert (Hdesc : forall k fld,
    lookup k (fields isEmail isMobilePhone f) = Some fld ->
    isInvalid fld = hasProperty k (formErrors f)
    /\ error fld = errorOf k (formErrors f)).
  { intros k fld Hfld. unfold fields in Hfld.
    apply (@fold_set_origin Field
             (fun p =>
                {| props := createProps isEmail isMobilePhone f (fst p) (snd p);
                   isInvalid := hasProperty (fst p) (formErrors f);
                   error := errorOf (fst p) (formErrors f) |})) in Hfld.
    destruct Hfld as [(p & _ & <- & ->)|Hnone]; [|discriminate Hnone].
    split; reflexivity. }
  split; [|split; [|split]].
  - unfold fields.
    exact (@fold_set_keys Field
             (fun p =>
                {| props := createProps isEmail isMobilePhone f (fst p) (snd p);
                   isInvalid := hasProperty (fst p) (formErrors f);
                   error := errorOf (fst p) (formErrors f) |})
             (t.props (codec f)) [] Hnd (fun _ _ => eq_refl) Hord).
  - intros k fld Hfld Hk. destruct (Hdesc k fld Hfld) as [-> ->].
    split; [now apply hasProperty_plain | now apply errorOf_spec].
  - intros Hempty k fld Hfld Hk. destruct (Hdesc k fld Hfld) as [-> ->].
    rewrite Hempty, hasProperty_plain, errorOf_spec by exact Hk.
    split; reflexivity.
  - intros k fld Hfld Hk. destruct (Hdesc k fld Hfld) as [-> _].
    unfold hasProperty. rewrite Hk. apply orb_true_r.
Qed.

(** X13: An edit writes one property of the current value and nothing else: the
    edited field reads the new value, every other field reads what it read
    before, an existing property keeps its place, and [FormErrors], hence
    [isInvalid] and [error] of every descriptor, stays as the last
    validation left it. *)
Theorem setFieldValue_edits_one_field
  (f : Form) (key : string) (v : jsval) :
  get key (state (setFieldValue key v f)) = v
  /\ (forall k, k <> key ->
                get k (state (setFieldValue key v f)) = get k (state f))
  /\ (has key (state f) = true ->
      keys (state (setFieldValue key v f)) = keys (state f))
  /\ formErrors (setFieldValue key v f) = formErrors f
  /\ initialStateRef (setFieldValue key v f) = initialStateRef f
  /\ (forall (isEmail isMobilePhone : string -> bool) k ty,
        NoDup (keys (t.props (codec f))) ->
        In (k, ty) (t.props (codec f)) ->
        exists fld fld',
          lookup k (fields isEmail isMobilePhone f) = Some fld
          /\ lookup k (fields isEmail isMobilePhone (setFieldValue key v f))
             = Some fld'
          /\ isInvalid fld' = isInvalid fld
          /\ error fld' = error fld).
Proof.
  split; [|split; [|split; [|split; [|split]]]]; cbn [state setFieldValue setState].
  - apply get_set_same.
  - intros k Hne. now apply get_set_other.
  - apply keys_set_present.
  - reflexivity.
  - reflexivity.
  - intros isEmail isMobilePhone k ty Hnd Hin.
    do 2 eexists.
    split; [exact (@fields_lookup isEmail isMobilePhone f k ty Hnd Hin)|].
    split;
      [exact (@fields_lookup isEmail isMobilePhone (setFieldValue key v f)
                k ty Hnd Hin)|].
    split; reflexivity.
Qed.

(** X14: [useForm] creates one ref per declared field and no other, each holding
    [undefined] until React mounts the input; the refs come in the order of
    [Object.keys(codec.props)]. *)
Theorem useForm_creates_one_ref_per_field
  (c : t.TypeC) (initialState : object) (k : string) :
  (In k (keys (t.props c)) ->
   lookup k (refsRef (useForm c initialState))
   = Some {| current := CUndefined |})
  /\ (~ In k (keys (t.props c)) ->
      lookup k (refsRef (useForm c initialState)) = None)
  /\ (NoDup (keys (t.props c)) ->
      propertyOrder (keys (t.props c)) ->
      keys (refsRef (useForm c initialState)) = keys (t.props c)).
Proof.
  cbn [refsRef useForm]. rewrite (fold_set_constant _ (keys (t.props c)) [] k).
  split; [|split].
  - intros Hin. destruct (existsb (String.eqb k) (keys (t.props c))) eqn:Hex;
      [reflexivity|].
    assert (existsb (String.eqb k) (keys (t.props c)) = true); [|congruence].
    apply existsb_exists. exists k. split; [exact Hin | apply String.eqb_refl].
  - intros Hnot. destruct (existsb (String.eqb k) (keys (t.props c))) eqn:Hex;
      [|reflexivity].
    apply existsb_exists in Hex. destruct Hex as (k' & Hin & Heq).
    apply String.eqb_eq in Heq. subst k'. contradiction.
  - intros Hnd Hord.
    exact (@fold_set_constant_keys _ {| current := CUndefined |}
             (keys (t.props c)) [] Hnd (fun _ _ => eq_refl) Hord).
Qed.

(** ** The sign-up scenario with the inputs mounted *)

(** X15: The sign-up form with every field empty and its four text inputs
    mounted: [validate] returns the failures, stores the four messages of
    [NonEmptyString] and focuses one of the four inputs; after the four
    edits a second [validate] stores an empty [FormErrors] and returns the
    decoded value. *)
Theorem signUp_scenario_when_mounted
  (isEmail isMobilePhone : string -> bool) (f0 : Form) :
  isEmail "a@b.com" = true ->
  isMobilePhone "+14155552671" = true ->
  codec f0 = SignUpForm isEmail isMobilePhone ->
  state f0 = signUpInitial ->
  Forall (mounted (refsRef f0)) ["company"; "email"; "password"; "phone"] ->
  exists errs,
    t.decode (codec f0) (VObj (state f0)) = E.Left errs
    /\ snd (validate f0) = Normal (E.Left errs)
    /\ formErrors (fst (validate f0))
       = [ ("company", Some validationErrors.NonEmptyString);
           ("email", Some validationErrors.NonEmptyString);
           ("password", Some validationErrors.NonEmptyString);
           ("phone", Some validationErrors.NonEmptyString) ]
    /\ (exists k p,
          In k ["company"; "email"; "password"; "phone"]
          /\ lookup k (refsRef f0) = Some {| current := CElement p |}
          /\ focusCalls (fst (validate f0)) = CElement p :: focusCalls f0)
    /\ formErrors (fst (validate (run signUpEdits (fst (validate f0))))) = []
    /\ snd (validate (run signUpEdits (fst (validate f0))))
       = Normal (E.Right (VObj signUpFilled)).
Proof.
  intros Hmail Hphone Hcodec Hstate Hmounted.
  destruct (signUp_initial_rejected isEmail isMobilePhone)
    as (errs & Hdec & Hproj).
  rewrite <- Hcodec, <- Hstate in Hdec.
  destruct (@signUp_after_edits isEmail isMobilePhone f0
              Hmail Hphone Hcodec Hstate) as (Hfe & _ & Hfe2 & Hret).
  destruct (@focusFirstInvalidField_least signUpErrors
              (setFormErrors signUpErrors f0))
    as (k & p & Hk & Hlook & _ & Hfocus);
    [discriminate | exact Hmounted |].
  exists errs. split; [exact Hdec|].
  split; [|split; [exact Hfe|split; [|split; [exact Hfe2 | exact Hret]]]].
  - unfold validate, onFail. rewrite Hdec. cbn [E.fold].
    rewrite Hproj, Hfocus. reflexivity.
  - exists k, p. split; [exact Hk|]. split; [exact Hlook|].
    unfold validate, onFail. rewrite Hdec. cbn [E.fold].
    rewrite Hproj, Hfocus. reflexivity.
Qed.

(** ** Field names that [Object.prototype] defines *)

Lemma reduce_projectStep_all_inherited errs :
  Forall
    (fun e => exists k, Spec.fieldOf e = Some k /\ isInherited k = true) errs ->
  reduce projectStep errs [] = Normal [].
Proof.
  induction errs as [|e rest IH]; intros Hall; [reflexivity|].
  inversion Hall as [|? ? (k & He & Hk) Hrest]; subst.
  cbn [reduce]. unfold projectStep at 1. unfold Spec.fieldOf in He.
  destruct (nth_error (t.context e) 1) as [entry|]; [|discriminate].
  cbn in He. inversion He; subst.
  unfold hasProperty. rewrite Hk, orb_true_r. cbn [bind]. now apply IH.
Qed.

(** X17: [errorsToFormErrors] records nothing under a name that
    [Object.prototype] defines (constructor, toString, ...): [key in acc]
    finds the inherited member, so every failure of such a field is skipped.
    When all the failures are about such fields the mapping is empty, and
    [validate] stores it and then raises a TypeError, having no first ref to
    read. *)
Theorem errorsToFormErrors_skips_prototype_names (errs : t.Errors) :
  (forall fe k,
     errorsToFormErrors errs = Normal fe ->
     isInherited k = true ->
     lookup k fe = None)
  /\ (Forall
        (fun e => exists k, Spec.fieldOf e = Some k /\ isInherited k = true)
        errs ->
      errorsToFormErrors errs = Normal []
      /\ forall f,
           t.decode (codec f) (VObj (state f)) = E.Left errs ->
           formErrors (fst (validate f)) = []
           /\ snd (validate f) = Throw TypeError).
Proof.
  split.
  - intros fe k Hfe Hk.
    exact (@reduce_projectStep_inherited errs [] fe k Hfe Hk).
  - intros Hall.
    pose proof (reduce_projectStep_all_inherited Hall) as Hproj.
    split; [exact Hproj|]. intros f Hdec.
    unfold validate, onFail. rewrite Hdec. cbn [E.fold].
    unfold errorsToFormErrors. rewrite Hproj. cbn. auto.
Qed.

(** ** The further properties at concrete inputs *)

Lemma SignUpForm_propertyOrder isEmail isMobilePhone :
  propertyOrder (keys (t.props (SignUpForm isEmail isMobilePhone))).
Proof. cbn. repeat constructor. Qed.

(** The password field of the empty sign-up form shows the message of
    [NonEmptyString]. *)
Lemma field_entry_is_first_failure_of_its_codec_witness :
  NoDup (keys (t.props (codec Sample.signUp)))
  /\ In ("password", Password) (t.props (codec Sample.signUp))
  /\ isInherited "password" = false
  /\ lookup "password" (formErrors (fst (validate Sample.signUp)))
     = Some (Some validationErrors.NonEmptyString).
Proof.
  pose proof (SignUpForm_NoDup Sample.isEmail Sample.isMobilePhone) as Hnd.
  pose proof (SignUpForm_reportsBelow Sample.isEmail Sample.isMobilePhone)
    as Hbelow.
  assert (Hin : In ("password", Password) (t.props (codec Sample.signUp)))
    by (cbn; auto).
  split; [exact Hnd|]. split; [exact Hin|]. split; [reflexivity|].
  destruct (@field_entry_is_first_failure_of_its_codec
              Sample.isEmail Sample.isMobilePhone Sample.signUp
              "password" Password Hnd Hbelow Hin eq_refl) as [Hlook _].
  rewrite Hlook. reflexivity.
Defined.

(** A filled sign-up form without the sendNewsletter property. *)
Lemma invalid_checkbox_shows_no_message_witness :
  In ("sendNewsletter", t.boolean) (t.props (codec Example.noNewsletter))
  /\ isInherited "sendNewsletter" = false
  /\ get "sendNewsletter" (state Example.noNewsletter) = VUndefined
  /\ lookup "sendNewsletter" (formErrors (fst (validate Example.noNewsletter)))
     = Some None.
Proof.
  pose proof (SignUpForm_NoDup Sample.isEmail Sample.isMobilePhone) as Hnd.
  pose proof (SignUpForm_reportsBelow Sample.isEmail Sample.isMobilePhone)
    as Hbelow.
  assert (Hin : In ("sendNewsletter", t.boolean)
                  (t.props (codec Example.noNewsletter)))
    by (cbn; auto 6).
  split; [exact Hin|]. split; [reflexivity|]. split; [reflexivity|].
  assert (Hnb : forall b, get "sendNewsletter" (state Example.noNewsletter)
                          <> VBool b) by (intros b; discriminate).
  exact (proj1 (@invalid_checkbox_shows_no_message
                  Sample.isEmail Sample.isMobilePhone Example.noNewsletter
                  "sendNewsletter" Hnd Hbelow Hin eq_refl Hnb)).
Defined.

(** The empty sign-up form with its inputs mounted: the phone input, first
    in the document, gets the focus. *)
Lemma validate_focuses_first_invalid_field_witness :
  signUpErrors <> []
  /\ Forall (mounted (refsRef Example.mountedSignUp)) (keys signUpErrors)
  /\ focusCalls (fst (validate Example.mountedSignUp)) = [CElement 0].
Proof.
  assert (Hne : signUpErrors <> []) by discriminate.
  assert (Hall : Forall (mounted (refsRef Example.mountedSignUp))
                   (keys signUpErrors)).
  { repeat constructor; eexists; reflexivity. }
  split; [exact Hne|]. split; [exact Hall|].
  destruct (signUp_initial_rejected Sample.isEmail Sample.isMobilePhone)
    as (errs & Hdec & Hproj).
  destruct (@validate_focuses_first_invalid_field Example.mountedSignUp
              errs signUpErrors Hdec Hproj Hne Hall)
    as (k & p & _ & _ & Hleast & Hfocus & _).
  assert (Hp : p <= 0).
  { apply (Hleast "phone" 0); [cbn; auto | reflexivity]. }
  rewrite Hfocus. assert (p = 0) as -> by lia. reflexivity.
Defined.

Lemma noPassword_rejected :
  exists errs,
    t.decode (codec Example.noPassword) (VObj (state Example.noPassword))
    = E.Left errs
    /\ errorsToFormErrors errs
       = Normal [("password", Some validationErrors.NonEmptyString)].
Proof. eexists. split; reflexivity. Qed.

(** The sign-up form with an empty password only and nothing mounted:
    [validate] returns the failures. *)
Lemma validate_with_unmounted_invalid_fields_witness :
  exists errs,
    t.decode (codec Example.noPassword) (VObj (state Example.noPassword))
    = E.Left errs
    /\ errorsToFormErrors errs
       = Normal [("password", Some validationErrors.NonEmptyString)]
    /\ snd (validate Example.noPassword) = Normal (E.Left errs).
Proof.
  destruct noPassword_rejected as (errs & Hdec & Hproj).
  exists errs. split; [exact Hdec|]. split; [exact Hproj|].
  assert (Hall : Forall
            (fun k => exists r, lookup k (refsRef Example.noPassword) = Some r
                                /\ Report.holdsNothing r)
            (keys [("password", Some validationErrors.NonEmptyString)])).
  { repeat constructor. eexists. split; [reflexivity | now left]. }
  destruct (validate_with_unmounted_invalid_fields Example.noPassword
              Hdec Hproj Hall) as (_ & _ & Hone & _).
  exact (Hone eq_refl).
Defined.

(** The descriptors of the sign-up form. *)
Lemma fields_cover_the_declared_fields_witness :
  NoDup (keys (t.props (codec Sample.signUp)))
  /\ propertyOrder (keys (t.props (codec Sample.signUp)))
  /\ keys (fields Sample.isEmail Sample.isMobilePhone Sample.signUp)
     = ["company"; "email"; "password"; "phone"; "sendNewsletter"].
Proof.
  pose proof (SignUpForm_NoDup Sample.isEmail Sample.isMobilePhone) as Hnd.
  pose proof (SignUpForm_propertyOrder Sample.isEmail Sample.isMobilePhone)
    as Hord.
  split; [exact Hnd|]. split; [exact Hord|].
  rewrite (proj1 (@fields_cover_the_declared_fields
                    Sample.isEmail Sample.isMobilePhone Sample.signUp
                    Hnd Hord)).
  reflexivity.
Defined.

(** The refs of the sign-up form. *)
Lemma useForm_creates_one_ref_per_field_witness :
  NoDup (keys (t.props (SignUpForm Sample.isEmail Sample.isMobilePhone)))
  /\ propertyOrder
       (keys (t.props (SignUpForm Sample.isEmail Sample.isMobilePhone)))
  /\ keys (refsRef Sample.signUp)
     = ["company"; "email"; "password"; "phone"; "sendNewsletter"].
Proof.
  pose proof (SignUpForm_NoDup Sample.isEmail Sample.isMobilePhone) as Hnd.
  pose proof (SignUpForm_propertyOrder Sample.isEmail Sample.isMobilePhone)
    as Hord.
  split; [exact Hnd|]. split; [exact Hord|].
  destruct (useForm_creates_one_ref_per_field
              (SignUpForm Sample.isEmail Sample.isMobilePhone)
              signUpInitial "company") as (_ & _ & Hkeys).
  exact (Hkeys Hnd Hord).
Defined.

(** The sign-up scenario on the form with its inputs mounted: the phone
    input or another of the four gets the focus, and the scenario ends with
    the decoded value. *)
Lemma signUp_scenario_when_mounted_witness :
  Sample.isEmail "a@b.com" = true
  /\ Sample.isMobilePhone "+14155552671" = true
  /\ Forall (mounted (refsRef Example.mountedSignUp))
       ["company"; "email"; "password"; "phone"]
  /\ formErrors (fst (validate Example.mountedSignUp)) = signUpErrors
  /\ snd (validate
            (run signUpEdits (fst (validate Example.mountedSignUp))))
     = Normal (E.Right (VObj signUpFilled)).
Proof.
  assert (Hall : Forall (mounted (refsRef Example.mountedSignUp))
                   ["company"; "email"; "password"; "phone"]).
  { repeat constructor; eexists; reflexivity. }
  split; [reflexivity|]. split; [reflexivity|]. split; [exact Hall|].
  destruct (@signUp_scenario_when_mounted Sample.isEmail Sample.isMobilePhone
              Example.mountedSignUp eq_refl eq_refl eq_refl eq_refl Hall)
    as (errs & _ & _ & Hfe & _ & _ & Hret).
  split; [exact Hfe | exact Hret].
Defined.

(** A form whose one field is named constructor and is empty: the codec
    rejects, [FormErrors] stays empty and [validate] raises. *)
Lemma errorsToFormErrors_skips_prototype_names_witness :
  exists errs,
    t.decode (codec Example.constructorField)
      (VObj (state Example.constructorField))
    = E.Left errs
    /\ errs <> []
    /\ Forall
         (fun e => exists k, Spec.fieldOf e = Some k /\ isInherited k = true)
         errs
    /\ formErrors (fst (validate Example.constructorField)) = []
    /\ snd (validate Example.constructorField) = Throw TypeError.
Proof.
  destruct (t.decode (codec Example.constructorField)
              (VObj (state Example.constructorField))) as [errs|v] eqn:Hdec;
    [|discriminate Hdec].
  assert (Hall : Forall
            (fun e => exists k, Spec.fieldOf e = Some k /\ isInherited k = true)
            errs).
  { cbv in Hdec. injection Hdec as <-.
    repeat constructor; eexists; split; reflexivity. }
  destruct (errorsToFormErrors_skips_prototype_names errs) as [_ Hskip].
  destruct (Hskip Hall) as [_ Hvalidate].
  exists errs. split; [reflexivity|].
  split; [cbv in Hdec; injection Hdec as <-; discriminate|].
  split; [exact Hall|].
  exact (Hvalidate Example.constructorField Hdec).
Defined.
